(** * A resource pool: lifecycle engine, waiter queue and eviction cursor

    Shallow embedding of the TypeScript sources of the pool
    (Pool.ts, PooledResource.ts, ResourceRequest.ts, Deferred.ts,
    PriorityQueue.ts, Queue.ts, Deque.ts, DoublyLinkedList.ts,
    DoublyLinkedListIterator.ts, PoolOptions.ts) and the properties the
    specification states about them.

    Conventions of the embedding.
    - Objects that the code shares by reference (pooled resources, resource
      requests, list nodes, factory promises) live in stores indexed by
      [nat] identities; containers hold the identities.
    - Counts are integers ([Z]).  A JavaScript number that the code takes
      from its caller and uses unchecked (the bounds [max] and [min] of
      the options, the delay of [setTimeout]) is a [number]: a rational
      or NaN.
    - [Date.now()] is an argument [now] of every operation that reads the
      clock; the reads made inside one synchronous call are taken equal.
    - A call that can throw returns a [Result]; a method of the pool that
      can throw returns the [Result] paired with the state it had reached
      when it returned or threw. *)

From Stdlib Require Import ZArith QArith Qround Lia Lqa List.
From stdpp Require Import base numbers option list strings gmap.

Local Open Scope Z_scope.

(** ** Errors and results *)

Inductive JsError : Type :=
| TypeError                 (* calling or indexing an undefined value *)
| DelayError                (* "Delay must be a positive integer." *)
| DrainingError             (* "pool is draining and cannot accept work" *)
| QueueFullError            (* "max waitingClients count exceeded" *)
| UnknownResourceError      (* "Resource not currently part of this pool or not borrowed" *)
| TimeoutError              (* errors.TimeoutError("ResourceRequest timed out") *)
| DestroyTimeoutError       (* "destroy timed out" *)
| FactoryError (tag : nat). (* a rejection coming from the caller's factory *)

Global Instance JsError_eq_dec : EqDecision JsError.
Proof. solve_decision. Defined.

Inductive Result (A : Type) : Type :=
| Ok (a : A)
| Throw (e : JsError).
Arguments Ok {A} a.
Arguments Throw {A} e.

Definition bindR {A B : Type} (r : Result A) (k : A -> Result B) : Result B :=
  match r with
  | Ok a => k a
  | Throw e => Throw e
  end.

Notation "x ←! r ; k" := (bindR r (fun x => k))
  (at level 100, r at next level, right associativity, only parsing).

(** ** Sequences *)

(** The sequence without the first occurrence of [x]. *)
Fixpoint removeFirst {A : Type} `{EqDecision A} (x : A) (l : list A) : list A :=
  match l with
  | [] => []
  | y :: l' => if decide (y = x) then l' else y :: removeFirst x l'
  end.

(** ** JavaScript numbers used by the sources *)

Module Js.

(** A number is NaN or a rational.  The two infinities are left out:
    with an infinite bound the loops of [_ensureMinimum] and [_dispense]
    do not end, and the counts below are those of loops that end. *)
Inductive number : Type :=
| NaN
| Num (q : Q).

Definition ofZ (z : Z) : number := Num (inject_Z z).

(** [Math.floor]: NaN stays NaN ([None]). *)
Definition Math_floor (n : number) : option Z :=
  match n with
  | NaN => None
  | Num q => Some (Qfloor q)
  end.

(** [x | 0] on an integer: the conversion ToInt32, written as the
    wrap-around of the two's complement 32-bit range, followed by the
    bitwise or with 0. *)
Definition ToInt32 (z : Z) : Z :=
  let m := z mod 2 ^ 32 in
  if 2 ^ 31 <=? m then m - 2 ^ 32 else m.

Definition bitor (a b : Z) : Z := Z.lor (ToInt32 a) (ToInt32 b).

(** [Math.max(a, b)] and [Math.min(a, b)]: NaN as soon as an argument
    is NaN. *)
Definition Math_max (a b : number) : number :=
  match a, b with
  | Num x, Num y => Num (if Qle_bool x y then y else x)
  | _, _ => NaN
  end.

Definition Math_min (a b : number) : number :=
  match a, b with
  | Num x, Num y => Num (if Qle_bool x y then x else y)
  | _, _ => NaN
  end.

(** [a - b]. *)
Definition sub (a b : number) : number :=
  match a, b with
  | Num x, Num y => Num (x - y)
  | _, _ => NaN
  end.

(** [a < b]: false as soon as an operand is NaN. *)
Definition ltb (a b : number) : bool :=
  match a, b with
  | Num x, Num y => negb (Qle_bool y x)
  | _, _ => false
  end.

(** [x || 0]: NaN and 0 are falsy. *)
Definition orZero (x : number) : number :=
  match x with
  | NaN => ofZ 0
  | Num q => if Qeq_bool q 0 then ofZ 0 else x
  end.

(** The rounds of [for (let i = 0; i < n; i++)]: one for each natural
    number below [n], none when [n] is NaN. *)
Definition rounds (n : number) : nat :=
  match n with
  | NaN => O
  | Num q => Z.to_nat (Qceiling q)
  end.

(** Calling [undefined], reading a property of [undefined], or spreading
    a value that is not iterable: a [TypeError]. *)
Definition typeError {A : Type} : Result A := Throw TypeError.

(** Truthiness of a number that may be [null]. *)
Definition truthy (x : option Z) : bool :=
  match x with
  | Some v => negb (v =? 0)
  | None => false
  end.

(** [for (let i = 0; i < n; i++) body]: [body] runs [n] times. *)
Fixpoint times {A : Type} (n : nat) (body : A -> A) (a : A) : A :=
  match n with
  | O => a
  | S k => times k body (body a)
  end.

(** The same loop with a body that can throw: the loop ends at the first
    exception, in the state the body had reached. *)
Fixpoint timesR {St : Type} (n : nat) (body : St -> Result unit * St) (s : St)
  : Result unit * St :=
  match n with
  | O => (Ok tt, s)
  | S k =>
      match body s with
      | (Ok _, s') => timesR k body s'
      | (Throw e, s') => (Throw e, s')
      end
  end.

(** [xs.forEach(body)], or a loop over [xs], with a body that can throw. *)
Fixpoint forEachR {A St : Type} (body : A -> St -> Result unit * St) (xs : list A)
  (s : St) : Result unit * St :=
  match xs with
  | [] => (Ok tt, s)
  | x :: rest =>
      match body x s with
      | (Ok _, s') => forEachR body rest s'
      | (Throw e, s') => (Throw e, s')
      end
  end.

End Js.

(** ** PooledResource.ts *)

(** Modelled from the spec: the enumeration [PooledResourceStateEnum] is
    imported by PooledResource.ts from a file that is not among the
    sources; its five members are the states the specification lists and
    the ones PooledResource.ts assigns. *)
Inductive PooledResourceStateEnum : Type :=
| IDLE
| ALLOCATED
| VALIDATION
| RETURNING
| INVALID.

Global Instance PooledResourceStateEnum_eq_dec : EqDecision PooledResourceStateEnum.
Proof. solve_decision. Defined.

Module PooledResource.

(** The resource handle [obj] is opaque; handles are compared by
    identity, so a [nat] stands for the handle. *)
Record t : Type := mk {
  creationTime : Z;
  lastReturnTime : option Z;
  lastBorrowTime : option Z;
  lastIdleTime : option Z;
  obj : nat;
  state : PooledResourceStateEnum
}.

Definition new (resource : nat) (now : Z) : t :=
  {| creationTime := now;
     lastReturnTime := None;
     lastBorrowTime := None;
     lastIdleTime := Some now;
     obj := resource;
     state := IDLE |}.

Definition allocate (now : Z) (p : t) : t :=
  {| creationTime := creationTime p;
     lastReturnTime := lastReturnTime p;
     lastBorrowTime := Some now;
     lastIdleTime := None;
     obj := obj p;
     state := ALLOCATED |}.

Definition deallocate (now : Z) (p : t) : t :=
  {| creationTime := creationTime p;
     lastReturnTime := Some now;
     lastBorrowTime := lastBorrowTime p;
     lastIdleTime := Some now;
     obj := obj p;
     state := IDLE |}.

Definition invalidate (p : t) : t :=
  {| creationTime := creationTime p;
     lastReturnTime := lastReturnTime p;
     lastBorrowTime := lastBorrowTime p;
     lastIdleTime := lastIdleTime p;
     obj := obj p;
     state := INVALID |}.

Definition test (p : t) : t :=
  {| creationTime := creationTime p;
     lastReturnTime := lastReturnTime p;
     lastBorrowTime := lastBorrowTime p;
     lastIdleTime := lastIdleTime p;
     obj := obj p;
     state := VALIDATION |}.

Definition idle (now : Z) (p : t) : t :=
  {| creationTime := creationTime p;
     lastReturnTime := lastReturnTime p;
     lastBorrowTime := lastBorrowTime p;
     lastIdleTime := Some now;
     obj := obj p;
     state := IDLE |}.

Definition returning (p : t) : t :=
  {| creationTime := creationTime p;
     lastReturnTime := lastReturnTime p;
     lastBorrowTime := lastBorrowTime p;
     lastIdleTime := lastIdleTime p;
     obj := obj p;
     state := RETURNING |}.

(** The lifecycle operations a pooled resource can receive after its
    construction, each with the clock value it reads. *)
Inductive op : Type :=
| Allocate (now : Z)
| Deallocate (now : Z)
| Idle (now : Z)
| Test
| Returning
| Invalidate.

Definition apply (p : t) (o : op) : t :=
  match o with
  | Allocate now => allocate now p
  | Deallocate now => deallocate now p
  | Idle now => idle now p
  | Test => test p
  | Returning => returning p
  | Invalidate => invalidate p
  end.

Definition run (ops : list op) (p : t) : t := fold_left apply ops p.

(** What the specification asks of [lastIdleTime]. *)
Definition idle_time_tracks_state (p : t) : Prop :=
  lastIdleTime p <> None <-> state p = IDLE.

End PooledResource.

(** ** Deferred.ts *)

Inductive DeferredState : Type :=
| PENDING
| FULFILLED
| REJECTED.

Global Instance DeferredState_eq_dec : EqDecision DeferredState.
Proof. solve_decision. Defined.

(** How a promise has settled, when it has. *)
Inductive Settled (T : Type) : Type :=
| ResolvedWith (v : T)
| RejectedWith (e : JsError).
Arguments ResolvedWith {T} v.
Arguments RejectedWith {T} e.

Module Deferred.

Record t (T : Type) : Type := mk {
  _state : DeferredState;
  _promise : option (Settled T)   (* [None]: the promise is pending *)
}.
Arguments mk {T} _ _.
Arguments _state {T} _.
Arguments _promise {T} _.

Definition new {T : Type} : t T := mk PENDING None.

Definition reject {T : Type} (reason : JsError) (d : t T) : t T :=
  match _state d with
  | PENDING => mk REJECTED (Some (RejectedWith reason))
  | _ => d
  end.

Definition resolve {T : Type} (value : T) (d : t T) : t T :=
  match _state d with
  | PENDING => mk FULFILLED (Some (ResolvedWith value))
  | _ => d
  end.

End Deferred.

(** ** Timers of the host

    [setTimeout] returns a handle that [clearTimeout] cancels.  Handles
    start at 1, so a handle is truthy exactly when it is present. *)
Module Timers.

Record t : Type := mk {
  armed : gmap nat Z;     (* handle -> delay it was armed with *)
  nextHandle : nat
}.

Definition empty : t := mk ∅ 1.

Definition setTimeout (delay : Z) (e : t) : nat * t :=
  (nextHandle e, mk (<[nextHandle e := delay]> (armed e)) (S (nextHandle e))).

Definition clearTimeout (h : nat) (e : t) : t :=
  mk (delete h (armed e)) (nextHandle e).

(** Handles in use are below the next handle. *)
Definition wf (e : t) : Prop :=
  forall h d, armed e !! h = Some d -> (h < nextHandle e)%nat.

End Timers.

(** ** ResourceRequest.ts *)

Module ResourceRequest.

Record t : Type := mk {
  deferred : Deferred.t nat;       (* the inherited Deferred<T> *)
  _creationTimestamp : Z;
  _timerRef : option nat
}.

Definition state (r : t) : DeferredState := Deferred._state (deferred r).

Definition clearTimeout (r : t) (e : Timers.t) : t * Timers.t :=
  let e' := match _timerRef r with
            | Some h => Timers.clearTimeout h e
            | None => e
            end in
  (mk (deferred r) (_creationTimestamp r) None, e').

(** [setTimeout(delay)]: the timer callback is [_fireTimeout]. *)
Definition setTimeout (now : Z) (delay : Js.number) (r : t) (e : Timers.t)
  : Result (t * Timers.t) :=
  if decide (state r = PENDING) then
    match Js.Math_floor delay with
    | None => Throw DelayError                       (* isNaN(ttl) *)
    | Some ttl =>
        if ttl <=? 0 then Throw DelayError
        else
          let age := now - _creationTimestamp r in
          let '(r1, e1) := match _timerRef r with
                           | Some _ => clearTimeout r e
                           | None => (r, e)
                           end in
          let '(h, e2) := Timers.setTimeout (Z.max (ttl - age) 0) e1 in
          Ok (mk (deferred r1) (_creationTimestamp r1) (Some h), e2)
    end
  else Ok (r, e).

(** The constructor; [timeoutMillis] is [None] for [null]/[undefined]. *)
Definition new (now : Z) (timeoutMillis : option Js.number) (e : Timers.t)
  : Result (t * Timers.t) :=
  let r := mk Deferred.new now None in
  match timeoutMillis with
  | Some d => setTimeout now d r e
  | None => Ok (r, e)
  end.

Definition reject (reason : JsError) (r : t) (e : Timers.t) : t * Timers.t :=
  if decide (state r = PENDING) then
    let '(r1, e1) := clearTimeout r e in
    (mk (Deferred.reject reason (deferred r1)) (_creationTimestamp r1) (_timerRef r1), e1)
  else (r, e).

Definition resolve (value : nat) (r : t) (e : Timers.t) : t * Timers.t :=
  if decide (state r = PENDING) then
    let '(r1, e1) := clearTimeout r e in
    (mk (Deferred.resolve value (deferred r1)) (_creationTimestamp r1) (_timerRef r1), e1)
  else (r, e).

Definition _fireTimeout (r : t) (e : Timers.t) : t * Timers.t :=
  if decide (state r = PENDING) then reject TimeoutError r e else (r, e).

(** The calls a request receives during its life: the calls of its
    public methods, and the host running the callback of an armed timer,
    which the host forgets as it fires. *)
Inductive call : Type :=
| SetTimeout (now : Z) (delay : Js.number)
| ClearTimeout
| Resolve (value : nat)
| Reject (reason : JsError)
| TimerFires (handle : nat).

Definition apply (c : call) (s : t * Timers.t) : Result (t * Timers.t) :=
  let '(r, e) := s in
  match c with
  | SetTimeout now delay => setTimeout now delay r e
  | ClearTimeout => Ok (clearTimeout r e)
  | Resolve value => Ok (resolve value r e)
  | Reject reason => Ok (reject reason r e)
  | TimerFires handle =>
      match Timers.armed e !! handle with
      | Some _ => Ok (_fireTimeout r (Timers.clearTimeout handle e))
      | None => Ok (r, e)
      end
  end.

Fixpoint run (cs : list call) (s : t * Timers.t) : Result (t * Timers.t) :=
  match cs with
  | [] => Ok s
  | c :: cs' => bindR (apply c s) (run cs')
  end.

End ResourceRequest.

(** ** DoublyLinkedList.ts

    Nodes are objects linked by references: a heap maps node identities
    to nodes.  The identities stored in a list always name nodes of the
    heap (see [dll_repr] below); a field read through an identity that
    names no node yields [null], and a write through it is lost. *)

Module DoublyLinkedList.

Section WithData.
Context {T : Type}.

Record INode : Type := mkNode {
  prev : option nat;
  next : option nat;
  data : T
}.

Record t : Type := mk {
  _head : option nat;
  _tail : option nat;
  _length : Z
}.

Definition empty : t := mk None None 0.

Definition getPrev (h : gmap nat INode) (n : nat) : option nat := h !! n ≫= prev.
Definition getNext (h : gmap nat INode) (n : nat) : option nat := h !! n ≫= next.

Definition setPrev (n : nat) (v : option nat) (h : gmap nat INode) : gmap nat INode :=
  alter (fun nd => mkNode v (next nd) (data nd)) n h.
Definition setNext (n : nat) (v : option nat) (h : gmap nat INode) : gmap nat INode :=
  alter (fun nd => mkNode (prev nd) v (data nd)) n h.

(** [createNode(data)]: a new object, hence a new identity. *)
Definition createNode (d : T) (h : gmap nat INode) : nat * gmap nat INode :=
  let n := fresh (dom h) in
  (n, <[n := mkNode None None d]> h).

Definition insertAfter (node newNode : nat) (h : gmap nat INode) (l : t) : gmap nat INode * t :=
  let h1 := setPrev newNode (Some node) h in
  let h2 := setNext newNode (getNext h1 node) h1 in
  let '(h3, l3) := match getNext h2 node with
                   | None => (h2, mk (_head l) (Some newNode) (_length l))
                   | Some nx => (setPrev nx (Some newNode) h2, l)
                   end in
  let h4 := setNext node (Some newNode) h3 in
  (h4, mk (_head l3) (_tail l3) (_length l3 + 1)).

Definition insertBefore (node newNode : nat) (h : gmap nat INode) (l : t) : gmap nat INode * t :=
  let h1 := setPrev newNode (getPrev h node) h in
  let h2 := setNext newNode (Some node) h1 in
  let '(h3, l3) := match getPrev h2 node with
                   | None => (h2, mk (Some newNode) (_tail l) (_length l))
                   | Some pv => (setNext pv (Some newNode) h2, l)
                   end in
  let h4 := setPrev node (Some newNode) h3 in
  (h4, mk (_head l3) (_tail l3) (_length l3 + 1)).

Definition insertBeginning (d : T) (h : gmap nat INode) (l : t) : nat * (gmap nat INode * t) :=
  let '(node, h1) := createNode d h in
  match _head l with
  | None => (node, (h1, mk (Some node) (Some node) (_length l + 1)))
  | Some hd => (node, insertBefore hd node h1 l)
  end.

(** When the list is empty [insertEnd] allocates a node, leaves it
    unused and lets [insertBeginning] allocate the one it links; the
    node it returns is the unused one. *)
Definition insertEnd (d : T) (h : gmap nat INode) (l : t) : nat * (gmap nat INode * t) :=
  let '(node, h1) := createNode d h in
  match _tail l with
  | None => (node, snd (insertBeginning d h1 l))
  | Some tl => (node, insertAfter tl node h1 l)
  end.

Definition remove (node : nat) (h : gmap nat INode) (l : t) : gmap nat INode * t :=
  let '(h1, l1) := match getPrev h node with
                   | None => (h, mk (getNext h node) (_tail l) (_length l))
                   | Some pv => (setNext pv (getNext h node) h, l)
                   end in
  let '(h2, l2) := match getNext h1 node with
                   | None => (h1, mk (_head l1) (getPrev h1 node) (_length l1))
                   | Some nx => (setPrev nx (getPrev h1 node) h1, l1)
                   end in
  let h3 := setPrev node None h2 in
  let h4 := setNext node None h3 in
  (h4, mk (_head l2) (_tail l2) (_length l2 - 1)).

(** [getNode(index)]: an index outside [[0, length)] gives [null]; the
    loop reads [current!.next], a TypeError when [current] is [null]. *)
Definition getNode (index : Z) (h : gmap nat INode) (l : t) : Result (option nat) :=
  if (index <? 0) || (_length l <=? index) then Ok None
  else
    Js.times (Z.to_nat index)
      (fun current =>
         bindR current (fun cur =>
           match cur with
           | Some c => Ok (getNext h c)
           | None => Throw TypeError
           end))
      (Ok (_head l)).

(** [dll_repr h l ns]: the list [l] links exactly the nodes [ns], in
    this order, in the heap [h]. *)
Definition dll_repr (h : gmap nat INode) (l : t) (ns : list nat) : Prop :=
  NoDup ns /\
  _head l = head ns /\
  _tail l = last ns /\
  _length l = Z.of_nat (length ns) /\
  forall (i : nat) (n : nat), ns !! i = Some n ->
    exists nd, h !! n = Some nd /\
      prev nd = (match i with O => None | S j => ns !! j end) /\
      next nd = ns !! S i.

End WithData.
Arguments INode T : clear implicits.

End DoublyLinkedList.

(** ** DoublyLinkedListIterator.ts *)

Module DoublyLinkedListIterator.

Import DoublyLinkedList.

Section WithData.
Context {T : Type}.

(** [reverse = true] is direction "prev" from start position "tail". *)
Record t : Type := mk {
  reverse : bool;
  _started : bool;
  _cursor : option nat;
  _done : bool
}.

Definition new (rev : bool) : t := mk rev false None false.

Definition _advanceCursor (h : gmap nat (INode T)) (l : DoublyLinkedList.t) (it : t) : t :=
  if negb (_started it) then
    mk (reverse it) true (if reverse it then _tail l else _head l) (_done it)
  else
    match _cursor it with
    | Some c =>
        mk (reverse it) (_started it)
           (if reverse it then getPrev h c else getNext h c) (_done it)
    | None => it
    end.

Definition reset (it : t) : t := mk (reverse it) false None false.

Definition _isCursorDetached (h : gmap nat (INode T)) (l : DoublyLinkedList.t) (it : t) : bool :=
  match _cursor it with
  | None => true
  | Some c =>
      let isTrulyOrphaned :=
        bool_decide (getPrev h c = None) &&
        bool_decide (getNext h c = None) &&
        bool_decide (_tail l <> Some c) &&
        bool_decide (_head l <> Some c) in
      if _length l =? 0 then true else isTrulyOrphaned
  end.

(** The iterator result: [IterDone] is [{ value: undefined, done: true }]. *)
Inductive IteratorResult : Type :=
| IterValue (node : nat)
| IterDone.

Definition next (h : gmap nat (INode T)) (l : DoublyLinkedList.t) (it : t) : IteratorResult * t :=
  if _done it then (IterDone, it)
  else
    let it1 := _advanceCursor h l it in
    match _cursor it1 with
    | Some c =>
        if _isCursorDetached h l it1
        then (IterDone, mk (reverse it1) (_started it1) (_cursor it1) true)
        else (IterValue c, it1)
    | None => (IterDone, mk (reverse it1) (_started it1) (_cursor it1) true)
    end.

Definition remove (h : gmap nat (INode T)) (l : DoublyLinkedList.t) (it : t)
  : gmap nat (INode T) * DoublyLinkedList.t :=
  match _cursor it with
  | Some c =>
      if negb (_started it) || _done it || _isCursorDetached h l it
      then (h, l)
      else DoublyLinkedList.remove c h l
  | None => (h, l)
  end.

End WithData.

End DoublyLinkedListIterator.

(** ** Deque.ts and DequeIterator.ts

    [Deque] delegates every operation to its [DoublyLinkedList].  A deque
    is modelled by the sequence of the data its nodes hold, from head to
    tail; the lemmas on [dll_repr] relate the linked structure to that
    sequence. *)

Module Deque.

Section WithData.
Context {T : Type} `{EqDecision T}.

Definition empty : list T := [].

Definition length (q : list T) : Z := Z.of_nat (List.length q).

Definition shift (q : list T) : option T * list T :=
  match q with
  | [] => (None, [])
  | x :: q' => (Some x, q')
  end.

Definition unshift (element : T) (q : list T) : list T := element :: q.

Definition push (element : T) (q : list T) : list T := q ++ [element].

Definition pop (q : list T) : option T * list T :=
  match last q with
  | None => (None, q)
  | Some x => (Some x, removelast q)
  end.

Definition head (q : list T) : option T := List.head q.
Definition tail (q : list T) : option T := last q.

(** [Deque] has no other method: Pool.ts calls [remove(value)] on the
    available cache (in [_evict] and in [clear]), which no class defines;
    those calls throw a TypeError, see [Pool._evictTest] and
    [Pool.clearOne].  The object that [iterator()] returns has [next],
    [reset] and [remove], and no [Symbol.iterator]: it cannot be spread,
    see [Pool.spreadIterator]. *)

End WithData.

End Deque.

(** ** Queue.ts *)

Module Queue.

Section WithData.
Context {T : Type} `{EqDecision T}.

(** [push(resourceRequest)].  Its first statements take the internal
    list and create a node; the next one evaluates
    [this._createTimeoutRejectionHandler(node, internalList)] to pass the
    result to [promise.catch].  Neither [Queue] nor [Deque] defines that
    method: the call throws a TypeError, and the statements after it do
    not run.  They would link the request twice, once by
    [internalList.insertEnd(node.data)] and once by
    [super.push(resourceRequest)], and register the rejection handler
    [removeItem] below. *)
Definition push (resourceRequest : T) (q : list T) : Result (list T) :=
  bindR Js.typeError                       (* this._createTimeoutRejectionHandler(...) *)
    (fun _ : unit =>
       let q1 := q ++ [resourceRequest] in (* internalList.insertEnd(node.data) *)
       Ok (Deque.push resourceRequest q1)).  (* super.push(resourceRequest) *)

(** The closure [removeItem] of [push], which the rejection handler
    calls on a [TimeoutError]: it walks the list from its head and
    unlinks the first node whose data is the request. *)
Definition removeItem (resourceRequest : T) (q : list T) : list T :=
  removeFirst resourceRequest q.

Definition onRejected (reason : JsError) (resourceRequest : T) (q : list T) : list T :=
  if decide (reason = TimeoutError) then removeItem resourceRequest q else q.

End WithData.

End Queue.

(** ** Deque.ts, DequeIterator.ts and Queue.ts on the linked list

    The methods of [Deque] and of [Queue] as they are written, on the
    heap of nodes and the [DoublyLinkedList] of the deque.  [Deque] and
    [Queue] above are the sequence view of the same methods. *)

Module LinkedDeque.

Import DoublyLinkedList.

Section WithData.
Context {T : Type} `{EqDecision T}.

Definition length (l : DoublyLinkedList.t) : Z := _length l.

(** [shift]: [remove(null)] throws; the outer [None] is that exception.
    [node.data] is read once the node is removed. *)
Definition shift (h : gmap nat (INode T)) (l : DoublyLinkedList.t)
  : option (option T * (gmap nat (INode T) * DoublyLinkedList.t)) :=
  if length l =? 0 then Some (None, (h, l))
  else
    match _head l with
    | Some node =>
        let '(h', l') := remove node h l in
        Some (data <$> h' !! node, (h', l'))
    | None => None
    end.

Definition unshift (element : T) (h : gmap nat (INode T)) (l : DoublyLinkedList.t)
  : gmap nat (INode T) * DoublyLinkedList.t :=
  (insertBeginning element h l).2.

Definition push (element : T) (h : gmap nat (INode T)) (l : DoublyLinkedList.t)
  : gmap nat (INode T) * DoublyLinkedList.t :=
  (insertEnd element h l).2.

Definition pop (h : gmap nat (INode T)) (l : DoublyLinkedList.t)
  : option (option T * (gmap nat (INode T) * DoublyLinkedList.t)) :=
  if length l =? 0 then Some (None, (h, l))
  else
    match _tail l with
    | Some node =>
        let '(h', l') := remove node h l in
        Some (data <$> h' !! node, (h', l'))
    | None => None
    end.

(** The getters [head] and [tail]. *)
Definition head (h : gmap nat (INode T)) (l : DoublyLinkedList.t) : option T :=
  if length l =? 0 then None
  else match _head l with
       | Some node => data <$> h !! node
       | None => None
       end.

Definition tail (h : gmap nat (INode T)) (l : DoublyLinkedList.t) : option T :=
  if length l =? 0 then None
  else match _tail l with
       | Some node => data <$> h !! node
       | None => None
       end.

(** [DequeIterator.next]: the result of the list iterator with the node
    replaced by its data; [None] is [{ value: undefined, done: true }]. *)
Definition iteratorNext (h : gmap nat (INode T)) (l : DoublyLinkedList.t)
  (it : DoublyLinkedListIterator.t) : option (option T) * DoublyLinkedListIterator.t :=
  match DoublyLinkedListIterator.next h l it with
  | (DoublyLinkedListIterator.IterValue node, it') => (Some (data <$> h !! node), it')
  | (DoublyLinkedListIterator.IterDone, it') => (None, it')
  end.

(** The values a deque iterator yields when [next] is called until it
    reports the end, at most [fuel] times. *)
Fixpoint values (fuel : nat) (h : gmap nat (INode T)) (l : DoublyLinkedList.t)
  (it : DoublyLinkedListIterator.t) : list (option T) :=
  match fuel with
  | O => []
  | S k =>
      match iteratorNext h l it with
      | (Some v, it') => v :: values k h l it'
      | (None, _) => []
      end
  end.

(** [Queue.push] (Queue.ts) on the list of the slot.  The node it
    creates is linked nowhere; the call of the method
    [_createTimeoutRejectionHandler], which no class defines, throws a
    TypeError before [internalList.insertEnd(node.data)] and
    [super.push] link the request. *)
Definition queuePush (resourceRequest : T) (h : gmap nat (INode T)) (l : DoublyLinkedList.t)
  : Result (gmap nat (INode T) * DoublyLinkedList.t) :=
  let '(node, h1) := createNode resourceRequest h in
  bindR Js.typeError
    (fun _ : unit =>
       let '(h2, l2) := (insertEnd resourceRequest h1 l).2 in
       Ok (push resourceRequest h2 l2)).

(** The loop of [removeItem] in [Queue.push], from the node [current];
    [None] when [fuel] runs out before the loop ends. *)
Fixpoint removeItemFrom (fuel : nat) (resourceRequest : T) (current : option nat)
  (h : gmap nat (INode T)) (l : DoublyLinkedList.t)
  : option (gmap nat (INode T) * DoublyLinkedList.t) :=
  match fuel with
  | O => None
  | S k =>
      match current with
      | None => Some (h, l)
      | Some c =>
          if decide (data <$> h !! c = Some resourceRequest)
          then Some (remove c h l)
          else removeItemFrom k resourceRequest (getNext h c) h l
      end
  end.

Definition removeItem (fuel : nat) (resourceRequest : T)
  (h : gmap nat (INode T)) (l : DoublyLinkedList.t)
  : option (gmap nat (INode T) * DoublyLinkedList.t) :=
  removeItemFrom fuel resourceRequest (_head l) h l.

(** The deque [l] holds the sequence [xs]. *)
Definition holds (h : gmap nat (INode T)) (l : DoublyLinkedList.t) (xs : list T) : Prop :=
  exists ns, dll_repr h l ns /\ Forall2 (fun n x => data <$> h !! n = Some x) ns xs.

End WithData.

End LinkedDeque.

(** ** PriorityQueue.ts *)

Module PriorityQueue.

Section WithData.
Context {T : Type} `{EqDecision T}.

Record t : Type := mk {
  _size : Z;
  _slots : list (list T)
}.

Definition new (size : Z) : t :=
  let sz := Z.max (Js.bitor size 0) 1 in
  mk sz (replicate (Z.to_nat sz) []).

Definition length (pq : t) : Z :=
  fold_left (fun totalLength slot => totalLength + Deque.length slot) (_slots pq) 0.

(** [(priority && +priority | 0) || 0]; [None] is [undefined]. *)
Definition resolvedPriority0 (priority : option Z) : Z :=
  let conj :=                       (* priority && (+priority | 0) *)
    match priority with
    | None => None
    | Some p => if p =? 0 then Some p else Some (Js.bitor p 0)
    end in
  match conj with                   (* ... || 0 *)
  | None => 0
  | Some v => if v =? 0 then 0 else v
  end.

Definition resolvedPriority (pq : t) (priority : option Z) : Z :=
  let r := resolvedPriority0 priority in
  if (r <? 0) || (_size pq <=? r) then _size pq - 1 else r.

(** [this._slots[resolvedPriority].push(obj)]: indexing outside the
    array yields [undefined], whose [push] is a [TypeError]; inside, the
    slot's [Queue.push] runs. *)
Definition enqueue (obj : T) (priority : option Z) (pq : t) : Result t :=
  let r := resolvedPriority pq priority in
  if r <? 0 then Throw TypeError
  else
    match _slots pq !! Z.to_nat r with
    | Some slot =>
        bindR (Queue.push obj slot)
          (fun slot' => Ok (mk (_size pq) (<[Z.to_nat r := slot']> (_slots pq))))
    | None => Throw TypeError
    end.

Fixpoint dequeue_slots (slots : list (list T)) : option T * list (list T) :=
  match slots with
  | [] => (None, [])
  | slot :: rest =>
      if 0 <? Deque.length slot then
        let '(x, slot') := Deque.shift slot in (x, slot' :: rest)
      else
        let '(x, rest') := dequeue_slots rest in (x, slot :: rest')
  end.

Definition dequeue (pq : t) : option T * t :=
  let '(x, slots') := dequeue_slots (_slots pq) in
  (x, mk (_size pq) slots').

(** The getter [head]: the head of the first slot that is not empty. *)
Fixpoint head_slots (slots : list (list T)) : option T :=
  match slots with
  | [] => None
  | slot :: rest =>
      if 0 <? Deque.length slot then Deque.head slot else head_slots rest
  end.

Definition head (pq : t) : option T := head_slots (_slots pq).

(** The getter [tail]: the tail of the last slot that is not empty; the
    loop runs from the last slot down to slot 0. *)
Fixpoint tail_slots (slotsFromLast : list (list T)) : option T :=
  match slotsFromLast with
  | [] => None
  | slot :: rest =>
      if 0 <? Deque.length slot then Deque.tail slot else tail_slots rest
  end.

Definition tail (pq : t) : option T := tail_slots (rev (_slots pq)).

(** A queue as its constructor builds it and its methods keep it. *)
Definition wf (pq : t) : Prop :=
  1 <= _size pq /\ Z.of_nat (List.length (_slots pq)) = _size pq.

End WithData.
Arguments t T : clear implicits.

End PriorityQueue.

(** ** PoolOptions.ts and PoolDefaults.ts *)

Module PoolOptions.

(** The caller's options; [None] is an absent ([undefined]) field.  The
    bounds and the acquire timeout are numbers as the caller passes
    them; the other numeric options are taken at integer values. *)
Record IPoolOptionsParams : Type := mkParams {
  opt_fifo : option bool;
  opt_priorityRange : option Z;
  opt_testOnBorrow : option bool;
  opt_testOnReturn : option bool;
  opt_autostart : option bool;
  opt_acquireTimeoutMillis : option Js.number;
  opt_destroyTimeoutMillis : option Z;
  opt_maxWaitingClients : option Z;
  opt_min : option Js.number;
  opt_max : option Js.number;
  opt_evictionRunIntervalMillis : option Z;
  opt_numTestsPerEvictionRun : option Z;
  opt_softIdleTimeoutMillis : option Z;
  opt_idleTimeoutMillis : option Z
}.

Definition noOptions : IPoolOptionsParams :=
  mkParams None None None None None None None None None None None None None None.

Record t : Type := mk {
  fifo : bool;
  priorityRange : Z;
  testOnBorrow : bool;
  testOnReturn : bool;
  autostart : bool;
  acquireTimeoutMillis : option Js.number;   (* [None] is [null] *)
  destroyTimeoutMillis : option Z;
  maxWaitingClients : option Z;
  min : Js.number;
  max : Js.number;
  evictionRunIntervalMillis : Z;
  numTestsPerEvictionRun : Z;
  softIdleTimeoutMillis : Z;
  idleTimeoutMillis : Z
}.

(** The constructor.  [max] and [min] go through [Math.max] and
    [Math.min] with no other check: a fraction stays a fraction and NaN
    stays NaN. *)
Definition new (opts : IPoolOptionsParams) : t :=
  let defaultMax := Js.ofZ 1 in
  let defaultMin := Js.ofZ 0 in
  let max := match opt_max opts with
             | Some m => Js.Math_max m (Js.ofZ 1)
             | None => defaultMax
             end in
  let min := match opt_min opts with
             | Some m => Js.Math_min (Js.Math_max m (Js.ofZ 0)) max
             | None => defaultMin
             end in
  let min := if Js.ltb max min then max else min in   (* if (this.min > this.max) *)
  {| fifo := default true (opt_fifo opts);
     priorityRange := default 1 (opt_priorityRange opts);
     testOnBorrow := default false (opt_testOnBorrow opts);
     testOnReturn := default false (opt_testOnReturn opts);
     autostart := default true (opt_autostart opts);
     acquireTimeoutMillis := opt_acquireTimeoutMillis opts;
     destroyTimeoutMillis := opt_destroyTimeoutMillis opts;
     maxWaitingClients := opt_maxWaitingClients opts;
     min := min;
     max := max;
     evictionRunIntervalMillis := default 0 (opt_evictionRunIntervalMillis opts);
     numTestsPerEvictionRun := default 3 (opt_numTestsPerEvictionRun opts);
     softIdleTimeoutMillis := default (-1) (opt_softIdleTimeoutMillis opts);
     idleTimeoutMillis := default 30000 (opt_idleTimeoutMillis opts) |}.

End PoolOptions.

(** ** ResourceLoan.ts *)

Module ResourceLoan.

Record t : Type := mk {
  pooledResource : nat;              (* identity of the PooledResource *)
  deferred : Deferred.t unit;
  _creationTimestamp : Z
}.

Definition new (pooled : nat) (now : Z) : t := mk pooled Deferred.new now.

Definition resolve (l : t) : t :=
  mk (pooledResource l) (Deferred.resolve tt (deferred l)) (_creationTimestamp l).

(** [reject] has an empty body. *)
Definition reject (reason : JsError) (l : t) : t := l.

End ResourceLoan.

(** ** DefaultEvictor.ts *)

Module DefaultEvictor.

Record IEvictionConfig : Type := mkConfig {
  softIdleTimeoutMillis : Z;
  idleTimeoutMillis : Z;
  min : Js.number
}.

Definition evict (now : Z) (config : IEvictionConfig)
  (pooledResource : PooledResource.t) (availableObjectsCount : Z) : bool :=
  match PooledResource.lastIdleTime pooledResource with
  | None => false
  | Some lastIdle =>
      let idleTime := now - lastIdle in
      if (0 <? softIdleTimeoutMillis config)
         && (softIdleTimeoutMillis config <? idleTime)
         && Js.ltb (min config) (Js.ofZ availableObjectsCount)
      then true
      else if (0 <? idleTimeoutMillis config) && (idleTimeoutMillis config <? idleTime)
      then true
      else false
  end.

End DefaultEvictor.

(** ** SimpleEventEmitter.ts

    Listeners are functions, compared by identity: a [nat] stands for a
    listener. *)

Module SimpleEventEmitter.

Record t : Type := mk {
  _events : gmap string (list nat)
}.

Definition new : t := mk ∅.

Definition on (eventName : string) (listener : nat) (em : t) : t :=
  let events := match _events em !! eventName with
                | Some _ => _events em
                | None => <[eventName := []]> (_events em)
                end in
  mk (alter (fun listeners => listeners ++ [listener]) eventName events).

(** [indexOf]: the index of the first occurrence, [None] for -1. *)
Fixpoint indexOf (listener : nat) (listeners : list nat) : option nat :=
  match listeners with
  | [] => None
  | x :: rest => if decide (x = listener) then Some 0%nat else S <$> indexOf listener rest
  end.

Definition off (eventName : string) (listener : nat) (em : t) : t :=
  match _events em !! eventName with
  | None => em
  | Some listeners =>
      match indexOf listener listeners with
      | Some index =>
          let spliced := delete index listeners in         (* splice(index, 1) *)
          if Z.of_nat (length spliced) =? 0
          then mk (delete eventName (_events em))
          else mk (<[eventName := spliced]> (_events em))
      | None => em
      end
  end.

(** [emit]: the listeners it calls, in the order of the calls. *)
Definition emit (eventName : string) (em : t) : list nat :=
  match _events em !! eventName with
  | None => []
  | Some listeners => listeners
  end.

End SimpleEventEmitter.

(** ** Pool.ts

    The state of a pool is the fields of the class together with the
    objects they refer to and the part of the host the pool drives:
    timers, the calls made to the factory and the promise reactions that
    the pool has registered and that have not run yet. *)

(** Settlement state of a promise the pool tracks. *)
Inductive PromisePhase : Type :=
| OpPending
| OpFulfilled
| OpRejected (e : JsError).

Global Instance PromisePhase_eq_dec : EqDecision PromisePhase.
Proof. solve_decision. Defined.

(** A member of [_factoryCreateOperations]: the promise
    [Promise.resolve(factory.create()).then(resource => ...)] of
    [_createResource]. *)
Record CreateOp : Type := mkCreateOp {
  op_id : nat;
  op_phase : PromisePhase
}.

Inductive EventName : Type :=
| FACTORY_CREATE_ERROR
| FACTORY_DESTROY_ERROR.

(** Promise reactions registered by the pool. *)
Inductive Reaction : Type :=
| AfterCreate                          (* [.then(() => this._dispense())], ready to run *)
| AfterCreateError (e : JsError)       (* [.catch(reason => ...)] of [_createResource], ready to run *)
| BorrowValidation (op pr : nat)       (* [_testOnBorrow]: awaits validation [op] of resource [pr] *)
| BorrowValidationFailed (pr : nat)    (* [_testOnBorrow]: its [.catch], ready to run *)
| ReturnValidation (op pr : nat)       (* [release]: awaits validation [op] of resource [pr] *)
| ReturnValidationFailed (pr : nat)    (* [release]: its [.catch], ready to run *)
| DestroyTracking (op : nat)           (* [_destroy]: awaits destroy promise [op] *)
| SlotObserver (slot req : nat)        (* [Queue.push]: rejection handler on request [req] *)
| ClearAwaitsCreates (ops : list nat)  (* [clear]: awaits the create promises [ops] *)
| ClearAwaitsDestroys (ops : list nat) (* [clear]: awaits its own destroy promises *)
| ClearAwaitsTracked (ops : list nat). (* [clear]: awaits the tracked destroy promises *)

Global Instance Reaction_eq_dec : EqDecision Reaction.
Proof. solve_decision. Defined.

Module Pool.

Record t : Type := mk {
  _config : PoolOptions.t;
  _draining : bool;
  _started : bool;
  _waitingClientsQueue : PriorityQueue.t nat;   (* identities of ResourceRequests *)
  _factoryCreateOperations : list CreateOp;   (* the Set of create promises, in insertion order *)
  _factoryDestroyOperations : gset nat;
  _availableObjects : list nat;   (* the Deque of idle PooledResources, head first *)
  _testOnBorrowResources : gset nat;
  _validationOperations : gset nat;
  _allObjects : gset nat;
  _resourceLoans : gmap nat ResourceLoan.t;   (* resource handle -> loan *)
  _scheduledEviction : option nat;   (* timer handle *)
  pooled : gmap nat PooledResource.t;   (* the PooledResource objects *)
  requests : gmap nat ResourceRequest.t;   (* the ResourceRequest objects *)
  timers : Timers.t;   (* timers of the host *)
  nextId : nat;   (* next fresh identity *)
  destroyCalls : list nat;   (* handles passed to factory.destroy, oldest first *)
  emitted : list (EventName * JsError);   (* events emitted, oldest first *)
  reactions : list Reaction;   (* promise reactions not yet run *)
  hostPending : gset nat   (* untracked factory promises still pending *)
}.

Definition set_draining (v : bool) (p : t) : t :=
  mk (_config p) v (_started p) (_waitingClientsQueue p)
    (_factoryCreateOperations p) (_factoryDestroyOperations p)
    (_availableObjects p) (_testOnBorrowResources p) (_validationOperations p)
    (_allObjects p) (_resourceLoans p) (_scheduledEviction p) (pooled p)
    (requests p) (timers p) (nextId p) (destroyCalls p) (emitted p)
    (reactions p) (hostPending p).

Definition set_started (v : bool) (p : t) : t :=
  mk (_config p) (_draining p) v (_waitingClientsQueue p)
    (_factoryCreateOperations p) (_factoryDestroyOperations p)
    (_availableObjects p) (_testOnBorrowResources p) (_validationOperations p)
    (_allObjects p) (_resourceLoans p) (_scheduledEviction p) (pooled p)
    (requests p) (timers p) (nextId p) (destroyCalls p) (emitted p)
    (reactions p) (hostPending p).

Definition set_waitingClientsQueue (v : PriorityQueue.t nat) (p : t) : t :=
  mk (_config p) (_draining p) (_started p) v (_factoryCreateOperations p)
    (_factoryDestroyOperations p) (_availableObjects p)
    (_testOnBorrowResources p) (_validationOperations p) (_allObjects p)
    (_resourceLoans p) (_scheduledEviction p) (pooled p) (requests p)
    (timers p) (nextId p) (destroyCalls p) (emitted p) (reactions p)
    (hostPending p).

Definition set_factoryCreateOperations (v : list CreateOp) (p : t) : t :=
  mk (_config p) (_draining p) (_started p) (_waitingClientsQueue p) v
    (_factoryDestroyOperations p) (_availableObjects p)
    (_testOnBorrowResources p) (_validationOperations p) (_allObjects p)
    (_resourceLoans p) (_scheduledEviction p) (pooled p) (requests p)
    (timers p) (nextId p) (destroyCalls p) (emitted p) (reactions p)
    (hostPending p).

Definition set_factoryDestroyOperations (v : gset nat) (p : t) : t :=
  mk (_config p) (_draining p) (_started p) (_waitingClientsQueue p)
    (_factoryCreateOperations p) v (_availableObjects p)
    (_testOnBorrowResources p) (_validationOperations p) (_allObjects p)
    (_resourceLoans p) (_scheduledEviction p) (pooled p) (requests p)
    (timers p) (nextId p) (destroyCalls p) (emitted p) (reactions p)
    (hostPending p).

Definition set_availableObjects (v : list nat) (p : t) : t :=
  mk (_config p) (_draining p) (_started p) (_waitingClientsQueue p)
    (_factoryCreateOperations p) (_factoryDestroyOperations p) v
    (_testOnBorrowResources p) (_validationOperations p) (_allObjects p)
    (_resourceLoans p) (_scheduledEviction p) (pooled p) (requests p)
    (timers p) (nextId p) (destroyCalls p) (emitted p) (reactions p)
    (hostPending p).

Definition set_testOnBorrowResources (v : gset nat) (p : t) : t :=
  mk (_config p) (_draining p) (_started p) (_waitingClientsQueue p)
    (_factoryCreateOperations p) (_factoryDestroyOperations p)
    (_availableObjects p) v (_validationOperations p) (_allObjects p)
    (_resourceLoans p) (_scheduledEviction p) (pooled p) (requests p)
    (timers p) (nextId p) (destroyCalls p) (emitted p) (reactions p)
    (hostPending p).

Definition set_validationOperations (v : gset nat) (p : t) : t :=
  mk (_config p) (_draining p) (_started p) (_waitingClientsQueue p)
    (_factoryCreateOperations p) (_factoryDestroyOperations p)
    (_availableObjects p) (_testOnBorrowResources p) v (_allObjects p)
    (_resourceLoans p) (_scheduledEviction p) (pooled p) (requests p)
    (timers p) (nextId p) (destroyCalls p) (emitted p) (reactions p)
    (hostPending p).

Definition set_allObjects (v : gset nat) (p : t) : t :=
  mk (_config p) (_draining p) (_started p) (_waitingClientsQueue p)
    (_factoryCreateOperations p) (_factoryDestroyOperations p)
    (_availableObjects p) (_testOnBorrowResources p) (_validationOperations p)
    v (_resourceLoans p) (_scheduledEviction p) (pooled p) (requests p)
    (timers p) (nextId p) (destroyCalls p) (emitted p) (reactions p)
    (hostPending p).

Definition set_resourceLoans (v : gmap nat ResourceLoan.t) (p : t) : t :=
  mk (_config p) (_draining p) (_started p) (_waitingClientsQueue p)
    (_factoryCreateOperations p) (_factoryDestroyOperations p)
    (_availableObjects p) (_testOnBorrowResources p) (_validationOperations p)
    (_allObjects p) v (_scheduledEviction p) (pooled p) (requests p)
    (timers p) (nextId p) (destroyCalls p) (emitted p) (reactions p)
    (hostPending p).

Definition set_scheduledEviction (v : option nat) (p : t) : t :=
  mk (_config p) (_draining p) (_started p) (_waitingClientsQueue p)
    (_factoryCreateOperations p) (_factoryDestroyOperations p)
    (_availableObjects p) (_testOnBorrowResources p) (_validationOperations p)
    (_allObjects p) (_resourceLoans p) v (pooled p) (requests p) (timers p)
    (nextId p) (destroyCalls p) (emitted p) (reactions p) (hostPending p).

Definition set_pooled (v : gmap nat PooledResource.t) (p : t) : t :=
  mk (_config p) (_draining p) (_started p) (_waitingClientsQueue p)
    (_factoryCreateOperations p) (_factoryDestroyOperations p)
    (_availableObjects p) (_testOnBorrowResources p) (_validationOperations p)
    (_allObjects p) (_resourceLoans p) (_scheduledEviction p) v (requests p)
    (timers p) (nextId p) (destroyCalls p) (emitted p) (reactions p)
    (hostPending p).

Definition set_requests (v : gmap nat ResourceRequest.t) (p : t) : t :=
  mk (_config p) (_draining p) (_started p) (_waitingClientsQueue p)
    (_factoryCreateOperations p) (_factoryDestroyOperations p)
    (_availableObjects p) (_testOnBorrowResources p) (_validationOperations p)
    (_allObjects p) (_resourceLoans p) (_scheduledEviction p) (pooled p) v
    (timers p) (nextId p) (destroyCalls p) (emitted p) (reactions p)
    (hostPending p).

Definition set_timers (v : Timers.t) (p : t) : t :=
  mk (_config p) (_draining p) (_started p) (_waitingClientsQueue p)
    (_factoryCreateOperations p) (_factoryDestroyOperations p)
    (_availableObjects p) (_testOnBorrowResources p) (_validationOperations p)
    (_allObjects p) (_resourceLoans p) (_scheduledEviction p) (pooled p)
    (requests p) v (nextId p) (destroyCalls p) (emitted p) (reactions p)
    (hostPending p).

Definition set_nextId (v : nat) (p : t) : t :=
  mk (_config p) (_draining p) (_started p) (_waitingClientsQueue p)
    (_factoryCreateOperations p) (_factoryDestroyOperations p)
    (_availableObjects p) (_testOnBorrowResources p) (_validationOperations p)
    (_allObjects p) (_resourceLoans p) (_scheduledEviction p) (pooled p)
    (requests p) (timers p) v (destroyCalls p) (emitted p) (reactions p)
    (hostPending p).

Definition set_destroyCalls (v : list nat) (p : t) : t :=
  mk (_config p) (_draining p) (_started p) (_waitingClientsQueue p)
    (_factoryCreateOperations p) (_factoryDestroyOperations p)
    (_availableObjects p) (_testOnBorrowResources p) (_validationOperations p)
    (_allObjects p) (_resourceLoans p) (_scheduledEviction p) (pooled p)
    (requests p) (timers p) (nextId p) v (emitted p) (reactions p)
    (hostPending p).

Definition set_emitted (v : list (EventName * JsError)) (p : t) : t :=
  mk (_config p) (_draining p) (_started p) (_waitingClientsQueue p)
    (_factoryCreateOperations p) (_factoryDestroyOperations p)
    (_availableObjects p) (_testOnBorrowResources p) (_validationOperations p)
    (_allObjects p) (_resourceLoans p) (_scheduledEviction p) (pooled p)
    (requests p) (timers p) (nextId p) (destroyCalls p) v (reactions p)
    (hostPending p).

Definition set_reactions (v : list Reaction) (p : t) : t :=
  mk (_config p) (_draining p) (_started p) (_waitingClientsQueue p)
    (_factoryCreateOperations p) (_factoryDestroyOperations p)
    (_availableObjects p) (_testOnBorrowResources p) (_validationOperations p)
    (_allObjects p) (_resourceLoans p) (_scheduledEviction p) (pooled p)
    (requests p) (timers p) (nextId p) (destroyCalls p) (emitted p) v
    (hostPending p).

Definition set_hostPending (v : gset nat) (p : t) : t :=
  mk (_config p) (_draining p) (_started p) (_waitingClientsQueue p)
    (_factoryCreateOperations p) (_factoryDestroyOperations p)
    (_availableObjects p) (_testOnBorrowResources p) (_validationOperations p)
    (_allObjects p) (_resourceLoans p) (_scheduledEviction p) (pooled p)
    (requests p) (timers p) (nextId p) (destroyCalls p) (emitted p)
    (reactions p) v.

(** *** Introspection *)

Definition _count (p : t) : Z :=
  Z.of_nat (size (_allObjects p)) + Z.of_nat (length (_factoryCreateOperations p)).

Definition spareResourceCapacity (p : t) : Js.number :=
  Js.sub (PoolOptions.max (_config p))
    (Js.ofZ (Z.of_nat (size (_allObjects p))
             + Z.of_nat (length (_factoryCreateOperations p)))).

Definition _potentiallyAllocableResourceCount (p : t) : Z :=
  Deque.length (_availableObjects p)
  + Z.of_nat (size (_testOnBorrowResources p))
  + Z.of_nat (length (_factoryCreateOperations p)).

Definition available (p : t) : Z := Deque.length (_availableObjects p).
Definition borrowed (p : t) : Z := Z.of_nat (size (_resourceLoans p)).
Definition pending (p : t) : Z := PriorityQueue.length (_waitingClientsQueue p).
Definition max (p : t) : Js.number := PoolOptions.max (_config p).
Definition min (p : t) : Js.number := Js.orZero (PoolOptions.min (_config p)).

Definition isBorrowedResource (resource : nat) (p : t) : bool :=
  bool_decide (is_Some (_resourceLoans p !! resource)).

(** *** Exceptions

    A method that can throw returns [(Throw e, p)], where [p] is the
    state it had reached. *)

(** The rest [k] of a method after a call that can throw. *)
Definition andThen {A B : Type} (r : Result A) (p : t) (k : A -> Result B * t)
  : Result B * t :=
  match r with
  | Ok a => k a
  | Throw e => (Throw e, p)
  end.

(** A callback under [.then(callback).catch(handler)]: when the callback
    throws, the promise of [.then] rejects with the exception and the
    reaction [handler] becomes ready. *)
Definition orCatch {A : Type} (handler : JsError -> Reaction) (m : Result A * t) : t :=
  match m with
  | (Ok _, p) => p
  | (Throw e, p) => set_reactions (reactions p ++ [handler e]) p
  end.

(** *** Creation and destruction *)

(** [_createResource]: calls [factory.create()] and tracks the promise;
    its reactions are [onCreateFulfilled], [onCreateRejected],
    [onCreateUntracked] and the [AfterCreate] reactions below. *)
Definition _createResource (p : t) : t :=
  let op := nextId p in
  set_nextId (S op)
    (set_factoryCreateOperations
       (_factoryCreateOperations p ++ [mkCreateOp op OpPending]) p).

Definition _ensureMinimum (p : t) : t :=
  if _draining p || negb (_started p) then p
  else
    let minShortfall :=
      Js.sub (Js.orZero (PoolOptions.min (_config p))) (Js.ofZ (_count p)) in
    Js.times (Js.rounds minShortfall) _createResource p.

(** [pooledResource.obj].  An identity the pool holds always names an
    object of the store; the default is for identities that name none. *)
Definition handleOf (pooledResource : nat) (p : t) : nat :=
  default 0%nat (PooledResource.obj <$> pooled p !! pooledResource).

Definition _destroy (pooledResource : nat) (p : t) : t :=
  let p1 := set_pooled (alter PooledResource.invalidate pooledResource (pooled p)) p in
  let p2 := set_allObjects (_allObjects p1 ∖ {[pooledResource]}) p1 in
  (* factory.destroy(pooledResource.obj) *)
  let p3 := set_destroyCalls (destroyCalls p2 ++ [handleOf pooledResource p2]) p2 in
  (* _applyDestroyTimeout arms a timer when destroyTimeoutMillis is truthy *)
  let p4 := if Js.truthy (PoolOptions.destroyTimeoutMillis (_config p3))
            then set_timers
                   (snd (Timers.setTimeout
                           (default 0 (PoolOptions.destroyTimeoutMillis (_config p3)))
                           (timers p3))) p3
            else p3 in
  (* _trackOperation(wrappedDestroyPromise, _factoryDestroyOperations).catch(...) *)
  let op := nextId p4 in
  let p5 := set_nextId (S op)
              (set_reactions (reactions p4 ++ [DestroyTracking op])
                 (set_factoryDestroyOperations
                    ({[op]} ∪ _factoryDestroyOperations p4) p4)) in
  _ensureMinimum p5.

Definition _addPooledResourceToAvailableObjects (now : Z) (pooledResource : nat) (p : t) : t :=
  let p1 := set_pooled (alter (PooledResource.idle now) pooledResource (pooled p)) p in
  if PoolOptions.fifo (_config p1)
  then set_availableObjects (Deque.push pooledResource (_availableObjects p1)) p1
  else set_availableObjects (Deque.unshift pooledResource (_availableObjects p1)) p1.

(** *** Dispatch *)

(** [DeferredState.PENDING] as Pool.ts reads it.  Pool.ts imports
    [DeferredState] from Deferred.ts, which declares the enumeration and
    does not export it: the imported binding is [undefined], and reading
    its property [PENDING] throws a TypeError. *)
Definition DeferredState_PENDING : Result DeferredState := Js.typeError.

(** In [clientResourceRequest === undefined || clientResourceRequest.state
    !== DeferredState.PENDING] the second operand is evaluated only when a
    request was dequeued. *)
Definition _dispatchPooledResourceToNextWaitingClient (now : Z) (pooledResource : nat) (p : t)
  : Result bool * t :=
  let '(clientResourceRequest, q) := PriorityQueue.dequeue (_waitingClientsQueue p) in
  let p1 := set_waitingClientsQueue q p in
  match clientResourceRequest with
  | None => (Ok false, _addPooledResourceToAvailableObjects now pooledResource p1)
  | Some r =>
      andThen DeferredState_PENDING p1 (fun pendingState =>
        match requests p1 !! r with
        | Some rr =>
            if decide (ResourceRequest.state rr = pendingState) then
              let loan := ResourceLoan.new pooledResource now in
              let p2 := set_resourceLoans
                          (<[handleOf pooledResource p1 := loan]> (_resourceLoans p1)) p1 in
              let p3 := set_pooled
                          (alter (PooledResource.allocate now) pooledResource (pooled p2)) p2 in
              let '(rr', tm) :=
                ResourceRequest.resolve (handleOf pooledResource p3) rr (timers p3) in
              (Ok true, set_timers tm (set_requests (<[r := rr']> (requests p3)) p3))
            else (Ok false, _addPooledResourceToAvailableObjects now pooledResource p1)
        | None => (Ok false, _addPooledResourceToAvailableObjects now pooledResource p1)
        end)
  end.

(** [_testOnBorrow]: the validation promise is tracked and the
    [BorrowValidation] reaction awaits it. *)
Definition _testOnBorrow (p : t) : bool * t :=
  if Deque.length (_availableObjects p) <? 1 then (false, p)
  else
    match Deque.shift (_availableObjects p) with
    | (Some pooledResource, q) =>
        let p1 := set_availableObjects q p in
        let p2 := set_pooled (alter PooledResource.test pooledResource (pooled p1)) p1 in
        let p3 := set_testOnBorrowResources
                    ({[pooledResource]} ∪ _testOnBorrowResources p2) p2 in
        let op := nextId p3 in
        (true,
         set_nextId (S op)
           (set_reactions (reactions p3 ++ [BorrowValidation op pooledResource])
              (set_validationOperations ({[op]} ∪ _validationOperations p3) p3)))
    | (None, _) => (false, p)
    end.

Definition _dispatchResource (now : Z) (p : t) : Result bool * t :=
  if Deque.length (_availableObjects p) <? 1 then (Ok false, p)
  else
    match Deque.shift (_availableObjects p) with
    | (Some pooledResource, q) =>
        match _dispatchPooledResourceToNextWaitingClient now pooledResource
                (set_availableObjects q p) with
        | (Ok _, p') => (Ok true, p')
        | (Throw e, p') => (Throw e, p')
        end
    | (None, _) => (Ok false, p)
    end.

(** [_dispense].  The creation loop runs while [i] is below
    [Math.min(spareResourceCapacity, resourceShortfall)], a number; the
    dispatch loop ends when [_dispatchResource] throws. *)
Definition _dispense (now : Z) (p : t) : Result unit * t :=
  let numWaitingClients := PriorityQueue.length (_waitingClientsQueue p) in
  if numWaitingClients <? 1 then (Ok tt, p)
  else
    let resourceShortfall := numWaitingClients - _potentiallyAllocableResourceCount p in
    let actualNumberOfResourcesToCreate :=
      Js.Math_min (spareResourceCapacity p) (Js.ofZ resourceShortfall) in
    let p1 := Js.times (Js.rounds actualNumberOfResourcesToCreate) _createResource p in
    if PoolOptions.testOnBorrow (_config p1) then
      let desiredNumberOfResourcesToMoveIntoTest :=
        numWaitingClients - Z.of_nat (size (_testOnBorrowResources p1)) in
      let actualNumberOfResourcesToMoveIntoTest :=
        Z.min (Deque.length (_availableObjects p1)) desiredNumberOfResourcesToMoveIntoTest in
      (Ok tt,
       Js.times (Z.to_nat actualNumberOfResourcesToMoveIntoTest)
         (fun q => snd (_testOnBorrow q)) p1)
    else
      let actualNumberOfResourcesToDispatch :=
        Z.min (Deque.length (_availableObjects p1)) numWaitingClients in
      Js.timesR (Z.to_nat actualNumberOfResourcesToDispatch)
        (fun q => match _dispatchResource now q with
                  | (Ok _, q') => (Ok tt, q')
                  | (Throw e, q') => (Throw e, q')
                  end) p1.

(** *** The evictor *)

Definition _scheduleEvictorRun (p : t) : t :=
  if (0 <? PoolOptions.evictionRunIntervalMillis (_config p)) && _started p then
    let '(h, tm) :=
      Timers.setTimeout (PoolOptions.evictionRunIntervalMillis (_config p)) (timers p) in
    set_scheduledEviction (Some h) (set_timers tm p)
  else p.

Definition _descheduleEvictorRun (p : t) : t :=
  let p1 := match _scheduledEviction p with
            | Some h => set_timers (Timers.clearTimeout h (timers p)) p
            | None => p
            end in
  set_scheduledEviction None p1.

Definition evictionConfig (p : t) : DefaultEvictor.IEvictionConfig :=
  DefaultEvictor.mkConfig
    (PoolOptions.softIdleTimeoutMillis (_config p))
    (PoolOptions.idleTimeoutMillis (_config p))
    (Js.orZero (PoolOptions.min (_config p))).

(** One test of [_evict] on the resource the eviction cursor yields.
    The cursor yields data of nodes linked in [_availableObjects].  When
    the evictor selects the resource, [_evict] calls
    [this._availableObjects.remove(resource)]; [Deque] has no method
    [remove], so the call throws a TypeError and [_destroy] does not
    run. *)
Definition _evictTest (now : Z) (resource : nat) (p : t) : Result unit * t :=
  match pooled p !! resource with
  | Some r =>
      if bool_decide (resource ∈ _availableObjects p)
         && DefaultEvictor.evict now (evictionConfig p) r
              (Deque.length (_availableObjects p))
      then andThen Js.typeError p                 (* this._availableObjects.remove(resource) *)
             (fun _ : unit => (Ok tt, _destroy resource p))
      else (Ok tt, p)
  | None => (Ok tt, p)
  end.

(** [_evict]: at most [testsToRun] tests; the loop ends when a test
    throws.  Which resources the cursor yields is an input, [visited]:
    the cursor itself is the subject of [DoublyLinkedListIterator]. *)
Definition _evict (now : Z) (visited : list nat) (p : t) : Result unit * t :=
  let testsToRun :=
    Z.min (PoolOptions.numTestsPerEvictionRun (_config p))
          (Deque.length (_availableObjects p)) in
  Js.forEachR (_evictTest now) (take (Z.to_nat testsToRun) visited) p.

(** The timer callback of [_scheduleEvictorRun]: when [_evict] throws,
    the exception leaves the callback and the next run is not
    scheduled. *)
Definition onEvictorTimer (now : Z) (visited : list nat) (p : t) : t :=
  match _evict now visited p with
  | (Ok _, p1) => if _started p1 then _scheduleEvictorRun p1 else p1
  | (Throw _, p1) => p1
  end.

(** *** Public operations *)

Definition start (p : t) : t :=
  if _draining p || _started p then p
  else _ensureMinimum (_scheduleEvictorRun (set_started true p)).

(** The constructor, after [validateFactory]. *)
Definition new (options : PoolOptions.IPoolOptionsParams) : t :=
  let config := PoolOptions.new options in
  let p := mk config false false (PriorityQueue.new (PoolOptions.priorityRange config))
             [] ∅ Deque.empty ∅ ∅ ∅ ∅ None ∅ ∅ Timers.empty 0%nat [] [] [] ∅ in
  if PoolOptions.autostart config then start p else p.

(** What a call of [acquire] gives back: an exception, a promise
    already rejected, or the promise of the request it enqueued. *)
Inductive AcquireOutcome : Type :=
| AcquireThrew (e : JsError)
| AcquireRejected (e : JsError)
| AcquirePending (request : nat).

(** The guard of the "max waitingClients" rejection. *)
Definition waitingClientsExceeded (p : t) : bool :=
  Js.ltb (spareResourceCapacity p) (Js.ofZ 1)
  && (Deque.length (_availableObjects p) <? 1)
  && match PoolOptions.maxWaitingClients (_config p) with
     | Some m => m <=? PriorityQueue.length (_waitingClientsQueue p)
     | None => false
     end.

(** [acquire] from its second statement on.  The request is constructed,
    and its timer armed, before [enqueue] runs; an exception of [enqueue]
    or of [_dispense] leaves [acquire]. *)
Definition acquireStarted (now : Z) (priority : option Z) (p : t) : AcquireOutcome * t :=
  if _draining p then (AcquireRejected DrainingError, p)
  else if waitingClientsExceeded p then (AcquireRejected QueueFullError, p)
  else
    match ResourceRequest.new now (PoolOptions.acquireTimeoutMillis (_config p)) (timers p) with
    | Throw e => (AcquireThrew e, p)
    | Ok (resourceRequest, tm) =>
        let r := nextId p in
        let p1 := set_nextId (S r)
                    (set_timers tm
                       (set_requests (<[r := resourceRequest]> (requests p)) p)) in
        match PriorityQueue.enqueue r priority (_waitingClientsQueue p1) with
        | Throw e => (AcquireThrew e, p1)
        | Ok q =>
            let slot := Z.to_nat (PriorityQueue.resolvedPriority
                                    (_waitingClientsQueue p1) priority) in
            let p2 := set_reactions (reactions p1 ++ [SlotObserver slot r])
                        (set_waitingClientsQueue q p1) in
            match _dispense now p2 with
            | (Ok _, p3) => (AcquirePending r, p3)
            | (Throw e, p3) => (AcquireThrew e, p3)
            end
        end
    end.

Definition acquire (now : Z) (priority : option Z) (p : t) : AcquireOutcome * t :=
  let p0 := if negb (_started p) && negb (PoolOptions.autostart (_config p))
            then start p else p in
  acquireStarted now priority p0.

(** What [release] and [destroy] give back: the promise they return,
    resolved or rejected, or the exception that left them. *)
Inductive CallOutcome : Type :=
| CallResolved
| CallRejected (e : JsError)
| CallThrew (e : JsError).

Definition returned (m : Result unit * t) : CallOutcome * t :=
  match m with
  | (Ok _, p) => (CallResolved, p)
  | (Throw e, p) => (CallThrew e, p)
  end.

(** [release] after [pooledResource.deallocate()]. *)
Definition releaseDeallocated (now : Z) (pooledResource : nat) (p : t) : Result unit * t :=
  if PoolOptions.testOnReturn (_config p) then
    let p1 := set_pooled (alter PooledResource.test pooledResource (pooled p)) p in
    let op := nextId p1 in
    (Ok tt,
     set_nextId (S op)
       (set_reactions (reactions p1 ++ [ReturnValidation op pooledResource])
          (set_validationOperations ({[op]} ∪ _validationOperations p1) p1)))
  else
    _dispense now (_addPooledResourceToAvailableObjects now pooledResource p).

(** [release]: the loan, once removed from [_resourceLoans] and resolved,
    is referenced by the pool no more. *)
Definition release (now : Z) (resource : nat) (p : t) : CallOutcome * t :=
  match _resourceLoans p !! resource with
  | None => (CallRejected UnknownResourceError, p)
  | Some loan =>
      let p1 := set_resourceLoans (delete resource (_resourceLoans p)) p in
      let pooledResource := ResourceLoan.pooledResource loan in
      let p2 := set_pooled
                  (alter (PooledResource.deallocate now) pooledResource (pooled p1)) p1 in
      returned (releaseDeallocated now pooledResource p2)
  end.

Definition destroy (now : Z) (resource : nat) (p : t) : CallOutcome * t :=
  match _resourceLoans p !! resource with
  | None => (CallRejected UnknownResourceError, p)
  | Some loan =>
      let p1 := set_resourceLoans (delete resource (_resourceLoans p)) p in
      let pooledResource := ResourceLoan.pooledResource loan in
      returned (_dispense now (_destroy pooledResource p1))
  end.

(** [drain]: the synchronous part; the promise it returns only waits. *)
Definition drain (p : t) : t :=
  _descheduleEvictorRun (set_draining true p).

(** [clear]: the synchronous part snapshots the create promises. *)
Definition clear (p : t) : t :=
  set_reactions
    (reactions p ++ [ClearAwaitsCreates (op_id <$> _factoryCreateOperations p)]) p.

(** *** Promise reactions

    Each definition is the body of a callback that the pool registered;
    [step] below says when the host runs it.  An exception that leaves a
    callback with no [.catch] behind it is lost: the state is the one the
    callback had reached. *)

(** The create promises are distinct objects; a promise is found in the
    set by its identity. *)
Definition phaseOf (op : nat) (ops : list CreateOp) : option PromisePhase :=
  op_phase <$> List.find (fun o => bool_decide (op_id o = op)) ops.

(** The promise [op] settles. *)
Fixpoint setPhase (op : nat) (ph : PromisePhase) (ops : list CreateOp) : list CreateOp :=
  match ops with
  | [] => []
  | o :: rest =>
      if decide (op_id o = op) then mkCreateOp (op_id o) ph :: rest
      else o :: setPhase op ph rest
  end.

(** [set.delete(operation)]. *)
Fixpoint untrack (op : nat) (ops : list CreateOp) : list CreateOp :=
  match ops with
  | [] => []
  | o :: rest => if decide (op_id o = op) then rest else o :: untrack op rest
  end.

(** [_createResource]: [.then(resource => ...)] on the factory promise.
    The promise [op] is fulfilled when the callback returns; it is still
    a member of [_factoryCreateOperations]. *)
Definition onCreateFulfilled (now : Z) (op resource : nat) (p : t) : t :=
  let pooledResource := nextId p in
  let p1 := set_nextId (S pooledResource)
              (set_pooled (<[pooledResource := PooledResource.new resource now]> (pooled p)) p) in
  let p2 := set_allObjects ({[pooledResource]} ∪ _allObjects p1) p1 in
  let p3 := _addPooledResourceToAvailableObjects now pooledResource p2 in
  set_factoryCreateOperations (setPhase op OpFulfilled (_factoryCreateOperations p3)) p3.

(** The factory promise rejects: so does [op], and no callback runs. *)
Definition onCreateRejected (op : nat) (e : JsError) (p : t) : t :=
  set_factoryCreateOperations (setPhase op (OpRejected e) (_factoryCreateOperations p)) p.

(** [_trackOperation]: the two callbacks that delete [op] from the set;
    the promise they settle makes the next reaction ready. *)
Definition onCreateUntracked (op : nat) (p : t) : t :=
  let remaining := untrack op (_factoryCreateOperations p) in
  match phaseOf op (_factoryCreateOperations p) with
  | Some OpFulfilled =>
      set_reactions (reactions p ++ [AfterCreate]) (set_factoryCreateOperations remaining p)
  | Some (OpRejected e) =>
      set_reactions (reactions p ++ [AfterCreateError e])
        (set_factoryCreateOperations remaining p)
  | _ => p
  end.

(** [_createResource]: [.then(() => { this._dispense(); ... })], with the
    [.catch] below behind it. *)
Definition onAfterCreate (now : Z) (p : t) : t :=
  orCatch AfterCreateError (_dispense now p).

(** [_createResource]: [.catch(reason => ...)], the end of the chain. *)
Definition onAfterCreateError (now : Z) (reason : JsError) (p : t) : t :=
  snd (_dispense now (set_emitted (emitted p ++ [(FACTORY_CREATE_ERROR, reason)]) p)).

(** [_testOnBorrow]: the [.catch] callback, the end of the chain. *)
Definition onBorrowValidationFailed (now : Z) (pooledResource : nat) (p : t) : t :=
  let p1 := set_testOnBorrowResources (_testOnBorrowResources p ∖ {[pooledResource]}) p in
  snd (_dispense now (_destroy pooledResource p1)).

(** [_testOnBorrow]: [_trackOperation]'s callback, then the [.then]
    callback, with the [.catch] behind it, or, when the validation
    promise rejects, the [.catch] callback. *)
Definition onBorrowValidation (now : Z) (op pooledResource : nat)
  (outcome : Settled bool) (p : t) : t :=
  let p0 := set_validationOperations (_validationOperations p ∖ {[op]}) p in
  match outcome with
  | ResolvedWith isValid =>
      let p1 := set_testOnBorrowResources
                  (_testOnBorrowResources p0 ∖ {[pooledResource]}) p0 in
      if isValid then
        orCatch (fun _ => BorrowValidationFailed pooledResource)
          (_dispatchPooledResourceToNextWaitingClient now pooledResource p1)
      else
        let p2 := set_pooled
                    (alter PooledResource.invalidate pooledResource (pooled p1)) p1 in
        orCatch (fun _ => BorrowValidationFailed pooledResource)
          (_dispense now (_destroy pooledResource p2))
  | RejectedWith _ => onBorrowValidationFailed now pooledResource p0
  end.

(** [release] with [testOnReturn]: the [.catch] callback, the end of the
    chain. *)
Definition onReturnValidationFailed (now : Z) (pooledResource : nat) (p : t) : t :=
  snd (_dispense now (_destroy pooledResource p)).

(** [release] with [testOnReturn]: [_trackOperation]'s callback, then
    the [.then] callback, with the [.catch] behind it, or, when the
    validation promise rejects, the [.catch] callback. *)
Definition onReturnValidation (now : Z) (op pooledResource : nat)
  (outcome : Settled bool) (p : t) : t :=
  let p0 := set_validationOperations (_validationOperations p ∖ {[op]}) p in
  match outcome with
  | ResolvedWith false =>
      orCatch (fun _ => ReturnValidationFailed pooledResource)
        (_dispense now (_destroy pooledResource p0))
  | ResolvedWith true =>
      orCatch (fun _ => ReturnValidationFailed pooledResource)
        (_dispense now (_addPooledResourceToAvailableObjects now pooledResource p0))
  | RejectedWith _ => onReturnValidationFailed now pooledResource p0
  end.

(** [_destroy]: [_trackOperation]'s callback and the [.catch]. *)
Definition onDestroySettled (op : nat) (outcome : Settled unit) (p : t) : t :=
  let p0 := set_factoryDestroyOperations (_factoryDestroyOperations p ∖ {[op]}) p in
  match outcome with
  | ResolvedWith _ => p0
  | RejectedWith reason =>
      set_emitted (emitted p0 ++ [(FACTORY_DESTROY_ERROR, reason)]) p0
  end.

(** The timer of a request fires: [_fireTimeout]. *)
Definition onRequestTimer (request : nat) (p : t) : t :=
  match requests p !! request with
  | Some rr =>
      let '(rr', tm) := ResourceRequest._fireTimeout rr (timers p) in
      set_timers tm (set_requests (<[request := rr']> (requests p)) p)
  | None => p
  end.

(** The rejection handler that [Queue.push] registers on a request. *)
Definition onSlotObserver (slot request : nat) (reason : JsError) (p : t) : t :=
  let q := _waitingClientsQueue p in
  set_waitingClientsQueue
    (PriorityQueue.mk (PriorityQueue._size q)
       (alter (Queue.onRejected reason request) slot (PriorityQueue._slots q))) p.

(** [[...this._availableObjects.iterator()]] in [clear].  The spread
    asks its operand for [Symbol.iterator].  The operand is the
    [DequeIterator] that [iterator()] returns; [Deque] has the method,
    [DequeIterator] and [DoublyLinkedListIterator] have not: the spread
    throws a TypeError. *)
Definition spreadIterator (q : list nat) : Result (list nat) := Js.typeError.

(** [clear]: the body of the [forEach] over the copy of the available
    resources.  Its first statement calls
    [this._availableObjects.remove(pooledResource)], which no class
    defines: a TypeError.  The destroy promise of the statements after it
    is not tracked by the pool. *)
Definition clearOne (pooledResource : nat) (acc : t * list nat)
  : Result unit * (t * list nat) :=
  match Js.typeError (A := unit) with                (* this._availableObjects.remove(...) *)
  | Throw e => (Throw e, acc)
  | Ok _ =>
      let '(p, destroyPromises) := acc in
      let p2 := set_destroyCalls (destroyCalls p ++ [handleOf pooledResource p]) p in
      let d := nextId p2 in
      (Ok tt,
       (set_nextId (S d) (set_hostPending ({[d]} ∪ hostPending p2) p2),
        destroyPromises ++ [d]))
  end.

(** [clear]: the callback that runs once the create promises settled.
    When it throws, the promise that [clear] returned rejects, and the
    callback that would run [_ensureMinimum] is skipped. *)
Definition onClearCreatesSettled (p : t) : Result unit * t :=
  andThen (spreadIterator (_availableObjects p)) p (fun availableCopy =>
    match Js.forEachR clearOne availableCopy (p, []) with
    | (Throw e, (p1, _)) => (Throw e, p1)
    | (Ok _, (p1, destroyPromises)) =>
        let p2 := set_allObjects ∅ p1 in
        (Ok tt, set_reactions (reactions p2 ++ [ClearAwaitsDestroys destroyPromises]) p2)
    end).

Definition onClearDestroysSettled (p : t) : t :=
  set_reactions
    (reactions p ++ [ClearAwaitsTracked (elements (_factoryDestroyOperations p))]) p.

Definition onClearTrackedSettled (p : t) : t := _ensureMinimum p.

(** *** The pool as a transition system

    A label is a call of a public method or something the host does:
    settling a promise of the factory, firing a timer, running a
    reaction that is ready.  [step] is [None] when the label is not
    enabled.  The host may run ready reactions in any order. *)

Inductive Label : Type :=
| CallStart
| CallAcquire (priority : option Z)
| CallRelease (resource : nat)
| CallDestroy (resource : nat)
| CallDrain
| CallClear
| CreateFulfils (op resource : nat)
| CreateRejects (op : nat) (e : JsError)
| CreateUntracked (op : nat)
| RunAfterCreate
| RunAfterCreateError (e : JsError)
| BorrowValidationSettles (op pooledResource : nat) (outcome : Settled bool)
| RunBorrowValidationFailed (pooledResource : nat)
| ReturnValidationSettles (op pooledResource : nat) (outcome : Settled bool)
| RunReturnValidationFailed (pooledResource : nat)
| DestroySettles (op : nat) (outcome : Settled unit)
| HostDestroySettles (d : nat)
| RequestTimerFires (request : nat)
| SlotObserverRuns (slot request : nat)
| EvictorTimerFires (visited : list nat)
| ClearCreatesSettled (ops : list nat)
| ClearDestroysSettled (ds : list nat)
| ClearTrackedSettled (ops : list nat).

Definition takeReaction (r : Reaction) (p : t) : option t :=
  if decide (r ∈ reactions p)
  then Some (set_reactions (removeFirst r (reactions p)) p)
  else None.

Definition fireTimer (h : nat) (p : t) : option t :=
  match Timers.armed (timers p) !! h with
  | Some _ => Some (set_timers (Timers.clearTimeout h (timers p)) p)
  | None => None
  end.

Definition rejectionOf (request : nat) (p : t) : option JsError :=
  match requests p !! request with
  | Some rr =>
      match Deferred._promise (ResourceRequest.deferred rr) with
      | Some (RejectedWith e) => Some e
      | _ => None
      end
  | None => None
  end.

Definition step (now : Z) (l : Label) (p : t) : option t :=
  match l with
  | CallStart => Some (start p)
  | CallAcquire priority => Some (snd (acquire now priority p))
  | CallRelease resource => Some (snd (release now resource p))
  | CallDestroy resource => Some (snd (destroy now resource p))
  | CallDrain => Some (drain p)
  | CallClear => Some (clear p)
  | CreateFulfils op resource =>
      match phaseOf op (_factoryCreateOperations p) with
      | Some OpPending => Some (onCreateFulfilled now op resource p)
      | _ => None
      end
  | CreateRejects op e =>
      match phaseOf op (_factoryCreateOperations p) with
      | Some OpPending => Some (onCreateRejected op e p)
      | _ => None
      end
  | CreateUntracked op =>
      match phaseOf op (_factoryCreateOperations p) with
      | Some OpFulfilled | Some (OpRejected _) => Some (onCreateUntracked op p)
      | _ => None
      end
  | RunAfterCreate => onAfterCreate now <$> takeReaction AfterCreate p
  | RunAfterCreateError e =>
      onAfterCreateError now e <$> takeReaction (AfterCreateError e) p
  | BorrowValidationSettles op pr outcome =>
      onBorrowValidation now op pr outcome <$> takeReaction (BorrowValidation op pr) p
  | RunBorrowValidationFailed pr =>
      onBorrowValidationFailed now pr <$> takeReaction (BorrowValidationFailed pr) p
  | ReturnValidationSettles op pr outcome =>
      onReturnValidation now op pr outcome <$> takeReaction (ReturnValidation op pr) p
  | RunReturnValidationFailed pr =>
      onReturnValidationFailed now pr <$> takeReaction (ReturnValidationFailed pr) p
  | DestroySettles op outcome =>
      onDestroySettled op outcome <$> takeReaction (DestroyTracking op) p
  | HostDestroySettles d =>
      if decide (d ∈ hostPending p)
      then Some (set_hostPending (hostPending p ∖ {[d]}) p)
      else None
  | RequestTimerFires request =>
      h ← (requests p !! request ≫= ResourceRequest._timerRef);
      onRequestTimer request <$> fireTimer h p
  | SlotObserverRuns slot request =>
      reason ← rejectionOf request p;
      onSlotObserver slot request reason <$> takeReaction (SlotObserver slot request) p
  | EvictorTimerFires visited =>
      h ← _scheduledEviction p;
      onEvictorTimer now visited <$> fireTimer h p
  | ClearCreatesSettled ops =>
      if forallb (fun op => negb (bool_decide
                    (phaseOf op (_factoryCreateOperations p) = Some OpPending))) ops
      then (fun q => snd (onClearCreatesSettled q)) <$> takeReaction (ClearAwaitsCreates ops) p
      else None
  | ClearDestroysSettled ds =>
      if forallb (fun d => negb (bool_decide (d ∈ hostPending p))) ds
      then onClearDestroysSettled <$> takeReaction (ClearAwaitsDestroys ds) p
      else None
  | ClearTrackedSettled ops =>
      if forallb (fun op => negb (bool_decide (op ∈ _factoryDestroyOperations p))) ops
      then onClearTrackedSettled <$> takeReaction (ClearAwaitsTracked ops) p
      else None
  end.

(** The states a pool built from [options] can be in. *)
Inductive reachable (options : PoolOptions.IPoolOptionsParams) : t -> Prop :=
| reachable_new : reachable options (new options)
| reachable_step (p p' : t) (now : Z) (l : Label) :
    reachable options p -> step now l p = Some p' -> reachable options p'.


End Pool.

(** * Properties *)

(** ** JavaScript integers *)

Lemma ToInt32_range z : - 2 ^ 31 <= Js.ToInt32 z < 2 ^ 31.
Proof.
  unfold Js.ToInt32.
  pose proof (Z.mod_pos_bound z (2 ^ 32) ltac:(lia)) as Hm.
  destruct (2 ^ 31 <=? z mod 2 ^ 32) eqn:E; lia.
Qed.

Lemma ToInt32_small z : - 2 ^ 31 <= z < 2 ^ 31 -> Js.ToInt32 z = z.
Proof.
  intros Hz. unfold Js.ToInt32.
  destruct (Z.neg_nonneg_cases z) as [Hneg | Hpos].
  - assert (z mod 2 ^ 32 = z + 2 ^ 32) as ->.
    { symmetry. apply (Z.mod_unique z (2 ^ 32) (-1)); lia. }
    destruct (2 ^ 31 <=? z + 2 ^ 32) eqn:E; lia.
  - rewrite Z.mod_small by lia.
    destruct (2 ^ 31 <=? z) eqn:E; lia.
Qed.

Lemma bitor_zero z : Js.bitor z 0 = Js.ToInt32 z.
Proof. unfold Js.bitor. change (Js.ToInt32 0) with 0. apply Z.lor_0_r. Qed.

(** Comparison of integers as numbers. *)
Lemma ltb_ofZ a b : Js.ltb (Js.ofZ a) (Js.ofZ b) = (a <? b).
Proof.
  unfold Js.ltb, Js.ofZ, Qle_bool. simpl. rewrite !Z.mul_1_r.
  destruct (Z.leb_spec b a), (Z.ltb_spec a b); simpl; try done; lia.
Qed.

Lemma times_add {A : Type} (f : A -> A) n m a :
  Js.times (n + m) f a = Js.times m f (Js.times n f a).
Proof. revert a. induction n as [|n IH]; intros a; simpl; [done | apply IH]. Qed.

(** An invariant of the loop body is an invariant of the loop. *)
Lemma times_ind {A : Type} (P : A -> Prop) (f : A -> A) :
  (forall a, P a -> P (f a)) -> forall n a, P a -> P (Js.times n f a).
Proof. intros Hf n. induction n as [|n IH]; intros a Ha; simpl; auto. Qed.

(** ** The pooled resource and its idle time *)

Section PooledResourceFacts.
Import PooledResource.

(** Every operation keeps: an IDLE resource has an idle time. *)
Lemma apply_idle_has_time p o :
  (state p = IDLE -> lastIdleTime p <> None) ->
  state (apply p o) = IDLE -> lastIdleTime (apply p o) <> None.
Proof. destruct o; simpl; intros Hp Hs; try discriminate; try done. Qed.

Lemma run_idle_has_time ops p :
  (state p = IDLE -> lastIdleTime p <> None) ->
  state (run ops p) = IDLE -> lastIdleTime (run ops p) <> None.
Proof.
  revert p. induction ops as [|o ops IH]; intros p Hp; simpl; [done|].
  apply IH. by apply apply_idle_has_time.
Qed.

(** In every state a resource reaches, IDLE implies an idle time. *)
Lemma idle_state_has_idle_time resource now ops :
  state (run ops (new resource now)) = IDLE ->
  lastIdleTime (run ops (new resource now)) <> None.
Proof. apply run_idle_has_time. simpl. done. Qed.

(** C6, at the failing input: a resource that is constructed and then
    put under test (what [_testOnBorrow] does with an idle resource) is
    in state VALIDATION and still has its idle time, so "lastIdleTime is
    non-null iff the state is IDLE" does not hold of it.  The same
    happens after [invalidate] and after [returning]; only [allocate]
    resets the idle time. *)
Theorem lastIdleTime_outlives_idle_state resource now :
  let p := run [Test] (new resource now) in
  state p = VALIDATION /\ lastIdleTime p = Some now /\
  ~ idle_time_tracks_state p /\
  ~ idle_time_tracks_state (run [Invalidate] (new resource now)) /\
  ~ idle_time_tracks_state (run [Returning] (new resource now)) /\
  idle_time_tracks_state (run [Allocate now] (new resource now)).
Proof.
  unfold idle_time_tracks_state. simpl.
  repeat split; try done; intros [H _]; by specialize (H ltac:(done)).
Qed.

End PooledResourceFacts.

(** ** The timeout of a resource request *)

Section ResourceRequestFacts.
Import ResourceRequest.

Lemma clearTimeout_timerRef r e : _timerRef (clearTimeout r e).1 = None.
Proof. done. Qed.

(** C7, as amended.  [setTimeout(delay)] does nothing when the request
    is not pending.  When it is pending the delay is floored to [ttl]:
    the call throws when [ttl] is NaN or [ttl <= 0] (so for 0, for a
    negative delay and for a fraction below 1, but not for a fraction
    above 1); otherwise a prior timer is cancelled and a new timer is
    armed with delay [max(ttl - age, 0)], where [age] is the time since
    the creation timestamp. *)
Theorem setTimeout_floors_then_arms now delay r e :
  (state r <> PENDING -> setTimeout now delay r e = Ok (r, e)) /\
  (state r = PENDING ->
   match Js.Math_floor delay with
   | None => setTimeout now delay r e = Throw DelayError
   | Some ttl =>
       if ttl <=? 0 then setTimeout now delay r e = Throw DelayError
       else
         exists r' e' h,
           setTimeout now delay r e = Ok (r', e') /\
           _timerRef r' = Some h /\
           Timers.armed e' !! h = Some (Z.max (ttl - (now - _creationTimestamp r)) 0) /\
           deferred r' = deferred r /\
           _creationTimestamp r' = _creationTimestamp r /\
           (forall h0, _timerRef r = Some h0 -> h0 <> Timers.nextHandle e ->
                       Timers.armed e' !! h0 = None)
   end).
Proof.
  split.
  - intros Hs. unfold setTimeout. by rewrite decide_False.
  - intros Hs. unfold setTimeout. rewrite (decide_True _ _ Hs).
    destruct (Js.Math_floor delay) as [ttl|]; [|done].
    destruct (ttl <=? 0) eqn:Ettl; [done|].
    destruct (_timerRef r) as [h0|] eqn:Eref; simpl.
    + eexists _, _, _. split; [reflexivity|]. simpl. rewrite Eref. simpl.
      rewrite lookup_insert_eq. repeat split; try done.
      intros h1 [= <-] Hne. rewrite lookup_insert_ne by congruence.
      apply lookup_delete_eq.
    + eexists _, _, _. split; [reflexivity|]. simpl.
      rewrite lookup_insert_eq. repeat split; done.
Qed.

(** A pending request created at time 0, no timer armed. *)
Definition pendingRequest : ResourceRequest.t := mk Deferred.new 0 None.

(** C7, the claim as stated fails twice.  A delay of 3/2 is not an
    integer, and [setTimeout] accepts it and arms a timer with delay
    [floor(3/2) - age = 1]; a delay of 0 is an integer and not negative,
    and [setTimeout] throws. *)
Lemma setTimeout_fraction_accepted_zero_rejected :
  (~ exists z : Z, Qeq (3 # 2) (inject_Z z))
  /\ setTimeout 0 (Js.Num (3 # 2)) pendingRequest Timers.empty
     = Ok (mk Deferred.new 0 (Some 1%nat), Timers.mk {[ 1%nat := 1 ]} 2)
  /\ setTimeout 0 (Js.ofZ 0) pendingRequest Timers.empty = Throw DelayError.
Proof.
  split; [|split; reflexivity].
  intros [z Hz]. unfold Qeq in Hz. simpl in Hz. lia.
Qed.

End ResourceRequestFacts.

(** ** The priority queue *)

Section PriorityQueueFacts.
Context {T : Type} `{EqDecision T}.
Import PriorityQueue.

Lemma resolvedPriority0_ToInt32 priority :
  resolvedPriority0 priority =
  match priority with
  | None => 0
  | Some p => Js.ToInt32 p
  end.
Proof.
  unfold resolvedPriority0. destruct priority as [p|]; [|done].
  destruct (p =? 0) eqn:Ep.
  - rewrite Ep. apply Z.eqb_eq in Ep. by subst.
  - rewrite bitor_zero. destruct (Js.ToInt32 p =? 0) eqn:E0; [|done].
    apply Z.eqb_eq in E0. by rewrite E0.
Qed.

Lemma resolvedPriority_clamp (pq : PriorityQueue.t T) priority :
  resolvedPriority pq priority =
  let v := match priority with None => 0 | Some p => Js.ToInt32 p end in
  if decide (0 <= v < _size pq) then v else _size pq - 1.
Proof.
  unfold resolvedPriority. rewrite resolvedPriority0_ToInt32. simpl.
  set (v := match priority with None => 0 | Some p => Js.ToInt32 p end).
  destruct (v <? 0) eqn:E1, (_size pq <=? v) eqn:E2; simpl;
    case_decide; lia.
Qed.

Lemma resolvedPriority_range (pq : PriorityQueue.t T) priority :
  wf pq -> 0 <= resolvedPriority pq priority < _size pq.
Proof.
  intros [Hsz _]. rewrite resolvedPriority_clamp. simpl. case_decide; lia.
Qed.

Lemma new_wf size : wf (PriorityQueue.new (T := T) size).
Proof.
  unfold PriorityQueue.new, wf. simpl. rewrite length_replicate. lia.
Qed.

Lemma dequeue_slots_length (slots : list (list T)) :
  List.length (dequeue_slots slots).2 = List.length slots.
Proof.
  induction slots as [|slot rest IH]; simpl; [done|].
  destruct (0 <? Deque.length slot).
  - destruct slot; simpl; done.
  - destruct (dequeue_slots rest) as [x rest'] eqn:E. simpl in *. by rewrite IH.
Qed.

Lemma dequeue_wf (pq : PriorityQueue.t T) : wf pq -> wf (dequeue pq).2.
Proof.
  intros [Hsz Hlen]. unfold dequeue.
  pose proof (dequeue_slots_length (_slots pq)) as Hl.
  destruct (dequeue_slots (_slots pq)) as [x slots']. simpl in *.
  split; simpl; [done|]. by rewrite Hl.
Qed.

Lemma enqueue_throws (pq : PriorityQueue.t T) obj priority :
  enqueue obj priority pq = Throw TypeError.
Proof.
  unfold enqueue. cbv zeta. destruct (_ <? 0); [done|].
  by destruct (_slots pq !! _).
Qed.

(** C8.  [enqueue] computes the slot and calls the slot's [push],
    which throws a TypeError before it links anything: whatever the
    queue, the item and the priority, [enqueue] throws and appends
    nothing.  On a queue as the constructor builds it the slot exists, so
    the exception is the one of [Queue.push].  The slot index itself is
    the 32-bit conversion of the priority, clamped afterwards: the
    priority [2^32], outside [[0, 2)], selects slot 0 of a queue of two
    slots, not the lowest priority slot 1. *)
Theorem enqueue_throws_and_appends_nothing (pq : PriorityQueue.t T) obj priority :
  enqueue obj priority pq = Throw TypeError /\
  (forall slot, Queue.push obj slot = Throw TypeError) /\
  (forall h l, LinkedDeque.queuePush obj h l = Throw TypeError) /\
  (wf pq -> is_Some (_slots pq !! Z.to_nat (resolvedPriority pq priority))) /\
  ~ (0 <= 2 ^ 32 < 2) /\
  resolvedPriority (PriorityQueue.new (T := T) 2) (Some (2 ^ 32)) = 0.
Proof.
  split; [|split; [done|split; [|split; [|split; [lia|done]]]]].
  - apply enqueue_throws.
  - intros h l. unfold LinkedDeque.queuePush.
    by destruct (DoublyLinkedList.createNode obj h).
  - intros Hwf. pose proof (resolvedPriority_range pq priority Hwf) as Hr.
    destruct Hwf as [_ Hlen]. apply lookup_lt_is_Some_2. lia.
Qed.

End PriorityQueueFacts.

(** ** The doubly linked list *)

Section DoublyLinkedListFacts.
Context {T : Type}.
Import DoublyLinkedList.
Implicit Types (h : gmap nat (INode T)) (l : DoublyLinkedList.t) (ns : list nat).

Lemma lookup_setNext h n v k :
  setNext n v h !! k =
  if decide (n = k) then (fun nd : INode T => mkNode (prev nd) v (data nd)) <$> h !! n else h !! k.
Proof. unfold setNext. apply lookup_alter. Qed.

Lemma lookup_setPrev h n v k :
  setPrev n v h !! k =
  if decide (n = k) then (fun nd : INode T => mkNode v (next nd) (data nd)) <$> h !! n else h !! k.
Proof. unfold setPrev. apply lookup_alter. Qed.

(** The list after [remove]. *)
Lemma remove_list h l m ndm :
  h !! m = Some ndm -> prev ndm <> Some m ->
  (remove m h l).2 =
    mk (match prev ndm with None => next ndm | Some _ => _head l end)
       (match next ndm with None => prev ndm | Some _ => _tail l end)
       (_length l - 1).
Proof.
  intros Hm Hpm. unfold remove, getPrev, getNext. rewrite Hm. simpl.
  destruct (prev ndm) as [pv|] eqn:Epv; simpl.
  - rewrite !lookup_setNext, decide_False by congruence. rewrite Hm. simpl.
    rewrite Epv. destruct (next ndm); simpl; done.
  - rewrite Hm. simpl. rewrite Epv. destruct (next ndm); simpl; done.
Qed.

(** The heap after [remove]: the removed node is detached, its
    neighbours are linked to each other, every other node is as before. *)
Lemma remove_heap h l m ndm n :
  h !! m = Some ndm -> prev ndm <> Some m -> next ndm <> Some m ->
  (remove m h l).1 !! n =
    if decide (n = m) then Some (mkNode None None (data ndm))
    else (fun nd : INode T => mkNode (if decide (next ndm = Some n) then prev ndm else prev nd)
                           (if decide (prev ndm = Some n) then next ndm else next nd)
                           (data nd)) <$> h !! n.
Proof.
  intros Hm Hpm Hnm. unfold remove, getPrev, getNext. rewrite Hm. simpl.
  destruct (prev ndm) as [pv|] eqn:Epv; simpl.
  - rewrite !lookup_setNext, decide_False by congruence. rewrite Hm. simpl.
    rewrite Epv.
    destruct (next ndm) as [nx|] eqn:Enx; simpl;
      rewrite ?lookup_setNext, ?lookup_setPrev;
      repeat (case_decide; simplify_eq; rewrite ?lookup_setNext, ?lookup_setPrev);
      rewrite ?Hm; simpl; try done;
      destruct (h !! n) as [nd|]; simpl; try done; destruct nd; done.
  - rewrite Hm. simpl. rewrite Epv.
    destruct (next ndm) as [nx|] eqn:Enx; simpl;
      rewrite ?lookup_setNext, ?lookup_setPrev;
      repeat (case_decide; simplify_eq; rewrite ?lookup_setNext, ?lookup_setPrev);
      rewrite ?Hm; simpl; try done;
      destruct (h !! n) as [nd|]; simpl; try done; destruct nd; done.
Qed.

Lemma repr_node h l ns i n :
  dll_repr h l ns -> ns !! i = Some n ->
  exists nd, h !! n = Some nd /\
    prev nd = (match i with O => None | S j => ns !! j end) /\
    next nd = ns !! S i.
Proof. intros (_ & _ & _ & _ & Hn). apply Hn. Qed.

Lemma repr_no_self_link h l ns i m nd :
  dll_repr h l ns -> ns !! i = Some m -> h !! m = Some nd ->
  prev nd <> Some m /\ next nd <> Some m.
Proof.
  intros Hr Hi Hm. destruct (repr_node _ _ _ _ _ Hr Hi) as (nd' & Hm' & Hp & Hn).
  destruct Hr as (Hnd & _). simplify_eq. split.
  - rewrite Hp. destruct i as [|j]; [done|]. intros Hj.
    pose proof (NoDup_lookup _ _ _ _ Hnd Hi Hj). lia.
  - rewrite Hn. intros Hj. pose proof (NoDup_lookup _ _ _ _ Hnd Hi Hj). lia.
Qed.

(** [remove] unlinks exactly the node it is given. *)
Lemma remove_repr h l ns i m :
  dll_repr h l ns -> ns !! i = Some m ->
  dll_repr (remove m h l).1 (remove m h l).2 (delete i ns).
Proof.
  intros Hr Hi.
  destruct (repr_node _ _ _ _ _ Hr Hi) as (ndm & Hm & Hpm & Hnm).
  destruct (repr_no_self_link _ _ _ _ _ _ Hr Hi Hm) as [Hps Hns].
  pose proof Hr as (Hnd & Hhead & Htail & Hlen & Hnodes).
  pose proof (lookup_lt_Some _ _ _ Hi) as Hlt.
  assert (Hdl : length (delete i ns) = (length ns - 1)%nat).
  { apply length_delete. eauto. }
  rewrite (remove_list h l m ndm Hm Hps).
  split; [apply (sublist_NoDup _ ns); [done | apply sublist_delete]|].
  split; [|split; [|split]]; simpl.
  - rewrite head_lookup. rewrite Hpm. destruct i as [|j].
    + rewrite Hnm. by rewrite list_lookup_delete_ge by lia.
    + destruct (lookup_lt_is_Some_2 ns j ltac:(lia)) as [x ->].
      rewrite Hhead, head_lookup. by rewrite list_lookup_delete_lt by lia.
  - rewrite last_lookup, Hdl. rewrite Hnm.
    destruct (ns !! S i) as [x|] eqn:Ex.
    + pose proof (lookup_lt_Some _ _ _ Ex).
      rewrite Htail, last_lookup. rewrite list_lookup_delete_ge by lia.
      f_equal. lia.
    + apply lookup_ge_None in Ex. rewrite Hpm. destruct i as [|j].
      * symmetry. apply lookup_ge_None_2. rewrite Hdl. lia.
      * rewrite list_lookup_delete_lt by lia. f_equal. lia.
  - rewrite Hlen. lia.
  - intros j n Hj. rewrite (remove_heap h l m ndm n Hm Hps Hns).
    destruct (decide (j < i)%nat) as [Hji|Hji].
    + rewrite list_lookup_delete_lt in Hj by lia.
      destruct (Hnodes j n Hj) as (nd & Hn & Hp & Hx).
      assert (n <> m) by (intros ->; pose proof (NoDup_lookup _ _ _ _ Hnd Hi Hj); lia).
      rewrite decide_False by done. rewrite Hn. simpl. eexists. split; [done|]. simpl.
      split.
      * rewrite decide_False.
        { rewrite Hp. destruct j as [|j']; [done|]. by rewrite list_lookup_delete_lt by lia. }
        rewrite Hnm. intros Hc. pose proof (NoDup_lookup _ _ _ _ Hnd Hj Hc). lia.
      * case_decide as Hd.
        { rewrite Hpm in Hd. destruct i as [|i']; [done|].
          pose proof (NoDup_lookup _ _ _ _ Hnd Hj Hd). subst i'.
          rewrite Hnm. by rewrite list_lookup_delete_ge by lia. }
        rewrite Hx. destruct (decide (S j = i)) as [<-|Hne].
        { exfalso. apply Hd. rewrite Hpm. done. }
        by rewrite list_lookup_delete_lt by lia.
    + rewrite list_lookup_delete_ge in Hj by lia.
      destruct (Hnodes (S j) n Hj) as (nd & Hn & Hp & Hx).
      assert (n <> m) by (intros ->; pose proof (NoDup_lookup _ _ _ _ Hnd Hi Hj); lia).
      rewrite decide_False by done. rewrite Hn. simpl. eexists. split; [done|]. simpl.
      split.
      * case_decide as Hd.
        { rewrite Hnm in Hd. pose proof (NoDup_lookup _ _ _ _ Hnd Hj Hd).
          assert (j = i) by lia. subst j. rewrite Hpm.
          destruct i as [|i']; [done|]. by rewrite list_lookup_delete_lt by lia. }
        rewrite Hp. destruct j as [|j'].
        { exfalso. apply Hd. rewrite Hnm. assert (i = 0)%nat by lia. by subst i. }
        destruct (decide (S j' = i)) as [<-|Hne].
        { exfalso. apply Hd. by rewrite Hnm. }
        by rewrite list_lookup_delete_ge by lia.
      * rewrite decide_False.
        { rewrite Hx. by rewrite list_lookup_delete_ge by lia. }
        rewrite Hpm. destruct i as [|i']; [done|]. intros Hc.
        pose proof (NoDup_lookup _ _ _ _ Hnd Hj Hc). lia.
Qed.

End DoublyLinkedListFacts.

(** ** The cursor of the list iterator *)

Section IteratorFacts.
Context {T : Type}.
Import DoublyLinkedList DoublyLinkedListIterator.
Implicit Types (h : gmap nat (INode T)) (l : DoublyLinkedList.t) (ns : list nat).

(** A forward cursor on a linked node moves to the node that follows,
    and is done when there is none. *)
Lemma next_at_linked_node h l ns i c (it : DoublyLinkedListIterator.t) :
  dll_repr h l ns -> ns !! i = Some c ->
  reverse it = false -> _started it = true -> _done it = false -> _cursor it = Some c ->
  next h l it =
    match ns !! S i with
    | Some x => (IterValue x, mk false true (Some x) false)
    | None => (IterDone, mk false true None true)
    end.
Proof.
  intros Hr Hi Hrev Hst Hdn Hc.
  destruct (repr_node _ _ _ _ _ Hr Hi) as (nd & Hn & Hp & Hx).
  unfold next, _advanceCursor. rewrite Hdn, Hst, Hc, Hrev. simpl.
  unfold getNext. rewrite Hn. simpl. rewrite Hx.
  destruct (ns !! S i) as [x|] eqn:Ex; [|done].
  destruct (repr_node _ _ _ _ _ Hr Ex) as (ndx & Hnx & Hpx & _).
  unfold _isCursorDetached. simpl.
  destruct Hr as (_ & _ & _ & Hlen & _).
  pose proof (lookup_lt_Some _ _ _ Ex).
  destruct (_length l =? 0) eqn:El; [lia|].
  unfold getPrev. rewrite Hnx. simpl. rewrite Hpx, Hi.
  rewrite bool_decide_eq_false_2 by done. done.
Qed.

(** A forward iterator that has not started yields the head. *)
Lemma next_from_start h l ns (it : DoublyLinkedListIterator.t) :
  dll_repr h l ns ->
  reverse it = false -> _started it = false -> _done it = false ->
  next h l it =
    match ns with
    | x :: _ => (IterValue x, mk false true (Some x) false)
    | [] => (IterDone, mk false true None true)
    end.
Proof.
  intros Hr Hrev Hst Hdn.
  unfold next, _advanceCursor. rewrite Hdn, Hst, Hrev. simpl.
  pose proof Hr as (_ & Hhead & _ & Hlen & _). rewrite Hhead.
  destruct ns as [|x ns']; simpl; [done|].
  unfold _isCursorDetached. simpl.
  destruct (_length l =? 0) eqn:El; [simpl in Hlen; lia|].
  rewrite Hhead. simpl.
  rewrite (bool_decide_eq_false_2 (Some x <> Some x)) by (intros Hc; by apply Hc).
  by rewrite andb_false_r.
Qed.

(** [remove] leaves the node it unlinks without neighbours. *)
Lemma remove_detaches h l m nd :
  h !! m = Some nd ->
  exists d, (DoublyLinkedList.remove m h l).1 !! m = Some (mkNode None None d).
Proof.
  intros Hm. unfold DoublyLinkedList.remove.
  destruct (match getPrev h m with
            | Some pv => (setNext pv (getNext h m) h, l)
            | None => (h, DoublyLinkedList.mk (getNext h m) (_tail l) (_length l))
            end) as [h1 l1] eqn:E1.
  assert (is_Some (h1 !! m)) as [nd1 Hm1].
  { destruct (getPrev h m); simplify_eq; [|eauto].
    rewrite lookup_setNext. case_decide; subst; rewrite Hm; simpl; eauto. }
  destruct (match getNext h1 m with
            | Some nx => (setPrev nx (getPrev h1 m) h1, l1)
            | None => (h1, DoublyLinkedList.mk (_head l1) (getPrev h1 m) (_length l1))
            end) as [h2 l2] eqn:E2.
  assert (is_Some (h2 !! m)) as [nd2 Hm2].
  { destruct (getNext h1 m); simplify_eq; [|eauto].
    rewrite lookup_setPrev. case_decide; subst; rewrite Hm1; simpl; eauto. }
  simpl. rewrite lookup_setNext, decide_True by done.
  rewrite lookup_setPrev, decide_True by done. rewrite Hm2. simpl. eauto.
Qed.

(** Once the node under the cursor is removed, [next] reports the end. *)
Lemma next_after_cursor_removed h l c nd (it : DoublyLinkedListIterator.t) :
  h !! c = Some nd ->
  _started it = true -> _done it = false -> _cursor it = Some c ->
  next (DoublyLinkedList.remove c h l).1 (DoublyLinkedList.remove c h l).2 it
    = (IterDone, mk (reverse it) true None true).
Proof.
  intros Hc Hst Hdn Hcur.
  destruct (remove_detaches h l c nd Hc) as [d Hd].
  unfold next, _advanceCursor. rewrite Hdn, Hst, Hcur. simpl.
  unfold getPrev, getNext. rewrite Hd. simpl. by destruct (reverse it).
Qed.

(** A done iterator stays done until it is reset. *)
Lemma next_done h l (it : DoublyLinkedListIterator.t) :
  _done it = true -> next h l it = (IterDone, it).
Proof. intros Hd. unfold next. by rewrite Hd. Qed.

(** C9, as amended.  A forward cursor that stands on a linked node [c]
    is not disturbed by the removal of another node [m]: the list stays
    well linked and [next] moves to the node that follows [c] among the
    remaining ones.  When the node under the cursor itself is removed,
    [next] does not move on: it reports the end of the iteration, and
    keeps reporting it, even when nodes remain after the removed one;
    only after [reset] (which [Pool._evict] calls on the end) does [next]
    yield again, starting at the head. *)
Theorem cursor_survives_removals_elsewhere h l ns i c j m
    (it : DoublyLinkedListIterator.t) :
  dll_repr h l ns -> ns !! i = Some c -> ns !! j = Some m ->
  reverse it = false -> _started it = true -> _done it = false ->
  _cursor it = Some c ->
  let h' := (DoublyLinkedList.remove m h l).1 in
  let l' := (DoublyLinkedList.remove m h l).2 in
  dll_repr h' l' (delete j ns) /\
  (m <> c ->
   exists i', delete j ns !! i' = Some c /\
     next h' l' it =
       match delete j ns !! S i' with
       | Some x => (IterValue x, mk false true (Some x) false)
       | None => (IterDone, mk false true None true)
       end) /\
  (m = c ->
   next h' l' it = (IterDone, mk false true None true) /\
   next h' l' (next h' l' it).2 = (IterDone, mk false true None true) /\
   next h' l' (reset (next h' l' it).2) =
     match delete j ns with
     | x :: _ => (IterValue x, mk false true (Some x) false)
     | [] => (IterDone, mk false true None true)
     end).
Proof.
  intros Hr Hi Hj Hrev Hst Hdn Hcur h' l'.
  pose proof (remove_repr h l ns j m Hr Hj) as Hr'. fold h' l' in Hr'.
  split; [done|]. split.
  - intros Hne.
    assert (i <> j) as Hij by (intros ->; congruence).
    exists (if decide (i < j)%nat then i else pred i).
    assert (delete j ns !! (if decide (i < j)%nat then i else pred i) = Some c) as Hi'.
    { case_decide.
      - by rewrite list_lookup_delete_lt by lia.
      - rewrite list_lookup_delete_ge by lia. rewrite <- Hi. f_equal. lia. }
    split; [done|].
    by apply (next_at_linked_node h' l' (delete j ns) _ c).
  - intros ->.
    destruct (repr_node _ _ _ _ _ Hr Hi) as (nd & Hn & _).
    pose proof (next_after_cursor_removed h l c nd it Hn Hst Hdn Hcur) as Hnx.
    fold h' l' in Hnx. rewrite Hrev in Hnx. rewrite Hnx. simpl.
    split; [done|]. split; [by apply next_done|].
    by apply next_from_start.
Qed.

End IteratorFacts.

(** A list of three nodes built by [insertEnd]: the nodes are 1, 2
    and 3 (node 0 is the one [insertEnd] leaves unused). *)
Definition threeNodes : gmap nat (DoublyLinkedList.INode nat) * DoublyLinkedList.t :=
  let s0 := (∅, DoublyLinkedList.empty) in
  let s1 := (DoublyLinkedList.insertEnd 10%nat s0.1 s0.2).2 in
  let s2 := (DoublyLinkedList.insertEnd 20%nat s1.1 s1.2).2 in
  (DoublyLinkedList.insertEnd 30%nat s2.1 s2.2).2.

(** A forward iterator after two calls of [next]: it stands on node 2. *)
Definition cursorOnSecond : DoublyLinkedListIterator.t :=
  let it1 := (DoublyLinkedListIterator.next threeNodes.1 threeNodes.2
                (DoublyLinkedListIterator.new false)).2 in
  (DoublyLinkedListIterator.next threeNodes.1 threeNodes.2 it1).2.

Lemma threeNodes_repr :
  DoublyLinkedList.dll_repr threeNodes.1 threeNodes.2 [1; 2; 3]%nat.
Proof.
  split; [by apply (bool_decide_unpack _)|].
  split; [reflexivity|]. split; [reflexivity|]. split; [reflexivity|].
  intros i n Hi. destruct i as [|[|[|i]]]; simpl in Hi; simplify_eq;
    eexists; (split; [vm_compute; reflexivity | split; reflexivity]).
Qed.

(** C9, witness: with the cursor on node 2, removing node 3 leaves the
    cursor at the end of the list [1; 2], and removing node 1 lets it
    move on to node 3. *)
Lemma cursor_survives_removals_elsewhere_witness :
  DoublyLinkedList.dll_repr threeNodes.1 threeNodes.2 [1; 2; 3]%nat /\
  DoublyLinkedList.dll_repr
    (DoublyLinkedList.remove 1%nat threeNodes.1 threeNodes.2).1
    (DoublyLinkedList.remove 1%nat threeNodes.1 threeNodes.2).2 [2; 3]%nat.
Proof.
  split; [exact threeNodes_repr|].
  exact (proj1 (cursor_survives_removals_elsewhere
                  threeNodes.1 threeNodes.2 [1; 2; 3]%nat 1%nat 2%nat 0%nat 1%nat
                  cursorOnSecond threeNodes_repr eq_refl eq_refl eq_refl eq_refl
                  eq_refl eq_refl)).
Defined.

(** C9, the claim as stated fails.  The cursor stands on node 2 of the
    list 1, 2, 3.  Node 2 is removed; nodes 1 and 3 remain linked.  The
    next call of [next] does not advance to the head (node 1) nor to the
    following node (node 3): it terminates the iteration. *)
Lemma next_terminates_when_cursor_node_removed :
  DoublyLinkedListIterator._cursor cursorOnSecond = Some 2%nat /\
  (DoublyLinkedList.remove 2%nat threeNodes.1 threeNodes.2).2
    = DoublyLinkedList.mk (Some 1%nat) (Some 3%nat) 2 /\
  DoublyLinkedListIterator.next
    (DoublyLinkedList.remove 2%nat threeNodes.1 threeNodes.2).1
    (DoublyLinkedList.remove 2%nat threeNodes.1 threeNodes.2).2
    cursorOnSecond
  = (DoublyLinkedListIterator.IterDone,
     DoublyLinkedListIterator.mk false true None true).
Proof. repeat split; vm_compute; reflexivity. Qed.

(** ** The pool: what each operation leaves unchanged *)

(** ** JavaScript numbers and the bounds of the options *)

Lemma Math_max_spec a b x :
  Js.Math_max a b = Js.Num x ->
  exists u v, a = Js.Num u /\ b = Js.Num v /\ (u <= x)%Q /\ (v <= x)%Q /\ (x = u \/ x = v).
Proof.
  destruct a as [|u], b as [|v]; try done. simpl. intros [= <-].
  exists u, v. split; [done|]. split; [done|].
  destruct (Qle_bool u v) eqn:E.
  - apply Qle_bool_iff in E. split; [done|]. split; [apply Qle_refl|by right].
  - assert (~ (u <= v)%Q) as Hn by (rewrite <- Qle_bool_iff; congruence).
    apply Qnot_le_lt, Qlt_le_weak in Hn. split; [apply Qle_refl|]. split; [done|by left].
Qed.

Lemma Math_min_spec a b x :
  Js.Math_min a b = Js.Num x ->
  exists u v, a = Js.Num u /\ b = Js.Num v /\ (x <= u)%Q /\ (x <= v)%Q /\ (x = u \/ x = v).
Proof.
  destruct a as [|u], b as [|v]; try done. simpl. intros [= <-].
  exists u, v. split; [done|]. split; [done|].
  destruct (Qle_bool u v) eqn:E.
  - apply Qle_bool_iff in E. split; [apply Qle_refl|]. split; [done|by left].
  - assert (~ (u <= v)%Q) as Hn by (rewrite <- Qle_bool_iff; congruence).
    apply Qnot_le_lt, Qlt_le_weak in Hn. split; [done|]. split; [apply Qle_refl|by right].
Qed.

Lemma ltb_false_of_le x y : (y <= x)%Q -> Js.ltb (Js.Num x) (Js.Num y) = false.
Proof. intros H. simpl. apply Qle_bool_iff in H. by rewrite H. Qed.


(** The test [this.min > this.max] of the constructor never succeeds:
    the [min] it is handed is already clamped. *)
Lemma clamped_min_kept m mx : Js.ltb mx (Js.Math_min m mx) = false.
Proof.
  destruct (Js.Math_min m mx) as [|x] eqn:E; [by destruct mx|].
  destruct (Math_min_spec _ _ _ E) as (u & v & -> & -> & _ & Hv & _).
  by apply ltb_false_of_le.
Qed.

Lemma Qceiling_sub q z : Qceiling (q - inject_Z z) = Qceiling q - z.
Proof.
  apply Z.le_antisymm.
  - rewrite <- (Qceiling_Z (Qceiling q - z)). apply Qceiling_resp_le.
    unfold Z.sub. rewrite inject_Z_plus, inject_Z_opp. pose proof (Qle_ceiling q). lra.
  - assert (Qceiling q <= Qceiling (q - inject_Z z) + z); [|lia].
    rewrite <- (Qceiling_Z (Qceiling (q - inject_Z z) + z)). apply Qceiling_resp_le.
    rewrite inject_Z_plus. pose proof (Qle_ceiling (q - inject_Z z)). lra.
Qed.

(** The loop [for (let i = 0; i < q - z; i++)] makes [ceil(q) - z]
    rounds when that is positive, and none otherwise. *)
Lemma rounds_sub q z :
  Js.rounds (Js.sub (Js.Num q) (Js.ofZ z)) = Z.to_nat (Qceiling q - z).
Proof. simpl. by rewrite Qceiling_sub. Qed.


(** [x || 0] is a number, never NaN. *)
Lemma orZero_num x :
  exists q, Js.orZero x = Js.Num q /\ (x = Js.Num q \/ Js.orZero x = Js.ofZ 0).
Proof.
  destruct x as [|q].
  - exists (inject_Z 0). split; [done|by right].
  - unfold Js.orZero. destruct (Qeq_bool q 0).
    + exists (inject_Z 0). split; [done|by right].
    + exists q. split; [done|by left].
Qed.


Section OptionsFacts.
Import PoolOptions.

Lemma new_max opts :
  max (new opts) = match opt_max opts with
                   | Some m => Js.Math_max m (Js.ofZ 1)
                   | None => Js.ofZ 1
                   end.
Proof. done. Qed.

Lemma new_max_ge_1 opts x : max (new opts) = Js.Num x -> (1 <= x)%Q.
Proof.
  rewrite new_max. intros Hx. destruct (opt_max opts) as [m|].
  - by destruct (Math_max_spec _ _ _ Hx) as (u & v & _ & [= <-] & _ & Hv & _).
  - injection Hx as <-. apply Qle_refl.
Qed.

Lemma new_min opts :
  min (new opts) = match opt_min opts with
                   | Some m => Js.Math_min (Js.Math_max m (Js.ofZ 0)) (max (new opts))
                   | None => Js.ofZ 0
                   end.
Proof.
  set (mn := match opt_min opts with
             | Some m => Js.Math_min (Js.Math_max m (Js.ofZ 0)) (max (new opts))
             | None => Js.ofZ 0
             end).
  assert (Js.ltb (max (new opts)) mn = false) as Hlt.
  { subst mn. destruct (opt_min opts) as [m|]; [apply clamped_min_kept|].
    destruct (max (new opts)) as [|x] eqn:Ex; [done|]. apply ltb_false_of_le.
    apply Qle_trans with 1%Q; [done|by eapply new_max_ge_1]. }
  unfold new at 1. cbn [min]. fold (new opts).
  change (match opt_max opts with
          | Some m => Js.Math_max m (Js.ofZ 1)
          | None => Js.ofZ 1
          end) with (max (new opts)).
  fold mn. by rewrite Hlt.
Qed.

Lemma new_min_range opts x y :
  max (new opts) = Js.Num x -> min (new opts) = Js.Num y -> (0 <= y)%Q /\ (y <= x)%Q.
Proof.
  intros Hx Hy. pose proof (new_max_ge_1 opts x Hx) as H1.
  rewrite new_min in Hy. destruct (opt_min opts) as [m|].
  - destruct (Math_min_spec _ _ _ Hy) as (u & v & Hu & Hv & H2 & H3 & H4).
    rewrite Hx in Hv. injection Hv as <-. split; [|done].
    destruct (Math_max_spec _ _ _ Hu) as (u' & v' & _ & [= <-] & _ & H5 & _).
    destruct H4 as [->| ->]; [done|]. by apply Qle_trans with 1%Q.
  - injection Hy as <-. split; [apply Qle_refl|]. by apply Qle_trans with 1%Q.
Qed.



End OptionsFacts.

(** ** The pool: what its methods leave alone *)

Section PoolFrame.
Import Pool.

(** The fields that decide how many resources the pool may create. *)
Definition core (p : Pool.t) :
    PoolOptions.t * bool * bool * gset nat * list CreateOp :=
  (_config p, _draining p, _started p, _allObjects p, _factoryCreateOperations p).

Lemma core_config p q : core p = core q -> _config p = _config q.
Proof. unfold core. congruence. Qed.



Lemma dispatch_somebody now pr p r q :
  PriorityQueue.dequeue (_waitingClientsQueue p) = (Some r, q) ->
  _dispatchPooledResourceToNextWaitingClient now pr p =
    (Throw TypeError, set_waitingClientsQueue q p).
Proof. intros Hdq. unfold _dispatchPooledResourceToNextWaitingClient. by rewrite Hdq. Qed.






Lemma forEachR_ind {A St : Type} (P : St -> Prop) (f : A -> St -> Result unit * St) :
  (forall x s, P s -> P (f x s).2) -> forall xs s, P s -> P (Js.forEachR f xs s).2.
Proof.
  intros Hf xs. induction xs as [|x xs IH]; intros s Hs; simpl; [done|].
  specialize (Hf x s Hs). destruct (f x s) as [[[]|e] s']; simpl in *; auto.
Qed.

(** [n] calls of [_createResource] add [n] pending promises. *)
Lemma core_createResources n p :
  exists ops,
    length ops = n /\
    Forall (fun o => op_phase o = OpPending) ops /\
    core (Js.times n _createResource p) =
      (_config p, _draining p, _started p, _allObjects p,
       _factoryCreateOperations p ++ ops).
Proof.
  revert p. induction n as [|n IH]; intros p; simpl.
  - exists []. rewrite app_nil_r. done.
  - destruct (IH (_createResource p)) as (ops & Hlen & Hall & Hcore).
    exists (mkCreateOp (nextId p) OpPending :: ops). simpl.
    split; [lia|]. split; [by constructor|].
    rewrite Hcore. simpl. by rewrite <- app_assoc.
Qed.

Lemma core_ensureMinimum p :
  exists ops,
    length ops =
      (if _draining p || negb (_started p) then O
       else Js.rounds (Js.sub (Pool.min p) (Js.ofZ (_count p)))) /\
    Forall (fun o => op_phase o = OpPending) ops /\
    core (_ensureMinimum p) =
      (_config p, _draining p, _started p, _allObjects p,
       _factoryCreateOperations p ++ ops).
Proof.
  unfold _ensureMinimum.
  destruct (_draining p || negb (_started p)).
  - exists []. rewrite app_nil_r. done.
  - apply core_createResources.
Qed.


(** Nobody waits: [_dispense] returns at its first test. *)
Lemma dispense_nobody now p : pending p = 0 -> _dispense now p = (Ok tt, p).
Proof. unfold pending, _dispense. by intros ->. Qed.

(** What [_createResource] and therefore [_ensureMinimum] leave alone. *)
Definition sameButCreations (p q : Pool.t) : Prop :=
  _config q = _config p /\ _draining q = _draining p /\ _started q = _started p /\
  _waitingClientsQueue q = _waitingClientsQueue p /\
  _availableObjects q = _availableObjects p /\ _allObjects q = _allObjects p /\
  _resourceLoans q = _resourceLoans p /\ _scheduledEviction q = _scheduledEviction p /\
  pooled q = pooled p /\ requests q = requests p /\ timers q = timers p /\
  destroyCalls q = destroyCalls p /\ reactions q = reactions p /\
  (nextId p <= nextId q)%nat.

Lemma createResources_frame n p : sameButCreations p (Js.times n _createResource p).
Proof.
  apply (times_ind (sameButCreations p)); [|by repeat split].
  intros q Hq. unfold sameButCreations in *. simpl.
  destruct Hq as (?&?&?&?&?&?&?&?&?&?&?&?&?&?). repeat split; try done. lia.
Qed.

Lemma ensureMinimum_frame p : sameButCreations p (_ensureMinimum p).
Proof.
  unfold _ensureMinimum. destruct (_ || _); [by repeat split|].
  apply createResources_frame.
Qed.

(** The evictor never changes the pool: a test either leaves the
    resource alone or throws at [remove]. *)
Lemma evictTest_state now resource p : (_evictTest now resource p).2 = p.
Proof.
  unfold _evictTest. destruct (pooled p !! resource); [|done].
  by destruct (_ && _).
Qed.

Lemma evict_state now visited p : (_evict now visited p).2 = p.
Proof.
  unfold _evict.
  apply (forEachR_ind (fun q => q = p)); [|done].
  intros x s ->. apply evictTest_state.
Qed.

(** The continuation of [clear] throws at once. *)
Lemma onClearCreatesSettled_throws p :
  onClearCreatesSettled p = (Throw TypeError, p).
Proof. done. Qed.

End PoolFrame.

(** ** The pool: the states it reaches

    [acquire] throws before it enqueues (see [enqueue_throws]), so no
    request ever waits, no resource is ever lent, and the paths of the
    pool that serve a request, validate or destroy a resource are never
    taken.  The steps a pool takes are therefore few: they are the
    [calm_move]s below. *)

Section PoolQuiet.
Import Pool.

(** The reactions that a pool can have registered. *)
Definition harmless (r : Reaction) : bool :=
  match r with
  | AfterCreate | AfterCreateError _ | ClearAwaitsCreates _ => true
  | _ => false
  end.

(** Nobody waits, nothing is lent, nothing was destroyed. *)
Definition quiet (p : Pool.t) : Prop :=
  _waitingClientsQueue p = PriorityQueue.new (PoolOptions.priorityRange (_config p)) /\
  _resourceLoans p = ∅ /\
  destroyCalls p = [] /\
  Forall (fun r => harmless r = true) (reactions p).

(** A change that touches only the requests, the timers of the host,
    the events emitted and the bookkeeping of reactions. *)
Definition host_same (p q : Pool.t) : Prop :=
  _config q = _config p /\ _draining q = _draining p /\ _started q = _started p /\
  _waitingClientsQueue q = _waitingClientsQueue p /\
  _factoryCreateOperations q = _factoryCreateOperations p /\
  _availableObjects q = _availableObjects p /\ _allObjects q = _allObjects p /\
  _resourceLoans q = _resourceLoans p /\ _scheduledEviction q = _scheduledEviction p /\
  pooled q = pooled p /\ destroyCalls q = destroyCalls p /\
  (nextId p <= nextId q)%nat /\
  (forall r, r ∈ reactions q -> r ∈ reactions p \/ harmless r = true).

Inductive calm_move (p : Pool.t) : Pool.t -> Prop :=
| cm_host q : host_same p q -> calm_move p q
| cm_start : calm_move p (start p)
| cm_drain : calm_move p (drain p)
| cm_fulfil now op resource :
    phaseOf op (_factoryCreateOperations p) = Some OpPending ->
    calm_move p (onCreateFulfilled now op resource p)
| cm_reject op e :
    phaseOf op (_factoryCreateOperations p) = Some OpPending ->
    calm_move p (onCreateRejected op e p)
| cm_untrack op : calm_move p (onCreateUntracked op p)
| cm_reschedule :
    is_Some (_scheduledEviction p) -> calm_move p (_scheduleEvictorRun p).

Lemma host_same_refl p : host_same p p.
Proof. repeat split; try done. by left. Qed.

Ltac host_fields :=
  repeat split; simpl; try done; try lia; try (intros ? ?; by left).

Lemma new_queue_length (size : Z) :
  PriorityQueue.length (PriorityQueue.new (T := nat) size) = 0.
Proof.
  unfold PriorityQueue.new, PriorityQueue.length. cbn [PriorityQueue._slots].
  generalize (Z.to_nat (Z.max (Js.bitor size 0) 1)). intros n.
  induction n as [|n IH]; simpl; done.
Qed.

Lemma quiet_pending p : quiet p -> pending p = 0.
Proof. intros (Hq & _). unfold pending. rewrite Hq. apply new_queue_length. Qed.

Lemma removeFirst_elem {A : Type} `{EqDecision A} (x y : A) l :
  y ∈ removeFirst x l -> y ∈ l.
Proof.
  induction l as [|z l IH]; simpl; [done|].
  case_decide; [by right|]. intros Hy.
  apply elem_of_cons in Hy as [->|Hy]; [by left|right; auto].
Qed.

Lemma scheduleEvictorRun_frame p :
  let q := _scheduleEvictorRun p in
  _config q = _config p /\ _draining q = _draining p /\ _started q = _started p /\
  _waitingClientsQueue q = _waitingClientsQueue p /\
  _factoryCreateOperations q = _factoryCreateOperations p /\
  _availableObjects q = _availableObjects p /\ _allObjects q = _allObjects p /\
  _resourceLoans q = _resourceLoans p /\
  pooled q = pooled p /\ destroyCalls q = destroyCalls p /\
  nextId q = nextId p /\ reactions q = reactions p /\ requests q = requests p.
Proof. cbv zeta. unfold _scheduleEvictorRun. by destruct (_ && _). Qed.

(** What [start] leaves alone. *)
Lemma start_frame p :
  _config (start p) = _config p /\ _draining (start p) = _draining p /\
  _waitingClientsQueue (start p) = _waitingClientsQueue p /\
  _availableObjects (start p) = _availableObjects p /\
  _allObjects (start p) = _allObjects p /\
  _resourceLoans (start p) = _resourceLoans p /\
  pooled (start p) = pooled p /\ destroyCalls (start p) = destroyCalls p /\
  reactions (start p) = reactions p /\ requests (start p) = requests p /\
  (nextId p <= nextId (start p))%nat.
Proof.
  unfold start. destruct (_ || _); [by repeat split|].
  destruct (ensureMinimum_frame (_scheduleEvictorRun (set_started true p)))
    as (-> & -> & _ & -> & -> & -> & -> & _ & -> & -> & _ & -> & -> & Hn).
  destruct (scheduleEvictorRun_frame (set_started true p))
    as (-> & -> & _ & -> & _ & -> & -> & -> & -> & -> & Hn' & -> & ->).
  rewrite Hn' in Hn. by repeat split.
Qed.

(** [acquire], past the implicit [start], changes only the requests and
    the timers: [enqueue] throws. *)
Lemma acquireStarted_host now priority p : host_same p (acquireStarted now priority p).2.
Proof.
  unfold acquireStarted.
  destruct (_draining p); [apply host_same_refl|].
  destruct (waitingClientsExceeded p); [apply host_same_refl|].
  destruct (ResourceRequest.new _ _ _) as [[rr tm]|e]; [|apply host_same_refl].
  rewrite enqueue_throws. host_fields.
Qed.

Lemma addPooled_frame now pr p :
  let q := _addPooledResourceToAvailableObjects now pr p in
  _config q = _config p /\ _draining q = _draining p /\ _started q = _started p /\
  _waitingClientsQueue q = _waitingClientsQueue p /\
  _factoryCreateOperations q = _factoryCreateOperations p /\
  _allObjects q = _allObjects p /\ _resourceLoans q = _resourceLoans p /\
  _scheduledEviction q = _scheduledEviction p /\
  destroyCalls q = destroyCalls p /\ nextId q = nextId p /\
  reactions q = reactions p /\ requests q = requests p /\ timers q = timers p /\
  pooled q = alter (PooledResource.idle now) pr (pooled p) /\
  _availableObjects q =
    (if PoolOptions.fifo (_config p) then _availableObjects p ++ [pr]
     else pr :: _availableObjects p).
Proof.
  cbv zeta. unfold _addPooledResourceToAvailableObjects. cbn [_config set_pooled].
  by destruct (PoolOptions.fifo (_config p)).
Qed.

Lemma calm_quiet p q : calm_move p q -> quiet p -> quiet q.
Proof.
  intros Hm (Hq & Hl & Hd & Hr). destruct Hm as [q Hh| | |now op resource Hph|op e Hph|op|Hs].
  - destruct Hh as (Hc & _ & _ & Hq' & _ & _ & _ & Hl' & _ & _ & Hd' & _ & Hr').
    unfold quiet. rewrite Hc, Hq', Hl', Hd'. repeat split; try done.
    apply Forall_forall. intros r Hin. destruct (Hr' r Hin) as [Hin'|?]; [|done].
    by eapply Forall_forall in Hr.
  - destruct (start_frame p) as (Hc & _ & Hq' & _ & _ & Hl' & _ & Hd' & Hr' & _).
    unfold quiet. by rewrite Hc, Hq', Hl', Hd', Hr'.
  - unfold quiet, drain, _descheduleEvictorRun. cbn [_scheduledEviction set_draining].
    by destruct (_scheduledEviction p).
  - unfold quiet, onCreateFulfilled.
    cbn [_config _waitingClientsQueue _resourceLoans destroyCalls reactions
         set_factoryCreateOperations].
    match goal with |- context [_addPooledResourceToAvailableObjects now ?pr ?q] =>
      destruct (addPooled_frame now pr q)
        as (-> & _ & _ & -> & _ & _ & -> & _ & -> & _ & -> & _) end.
    done.
  - done.
  - unfold quiet, onCreateUntracked.
    destruct (phaseOf op _) as [[| |e]|]; simpl; repeat split; try done;
      apply Forall_app; (split; [done|]); by repeat constructor.
  - destruct (scheduleEvictorRun_frame p)
      as (Hc & _ & _ & Hq' & _ & _ & _ & Hl' & _ & Hd' & _ & Hr' & _).
    unfold quiet. by rewrite Hc, Hq', Hl', Hd', Hr'.
Qed.

Lemma quiet_no_reaction r p : quiet p -> harmless r = false -> takeReaction r p = None.
Proof.
  intros (_ & _ & _ & Hr) Hh. unfold takeReaction. case_decide as Hin; [|done].
  eapply Forall_forall in Hr; [|exact Hin]. congruence.
Qed.

Lemma takeReaction_host r p p' : takeReaction r p = Some p' -> host_same p p'.
Proof.
  unfold takeReaction. case_decide; [|done]. intros [= <-].
  repeat split; simpl; try done. intros r' Hr'. left. by eapply removeFirst_elem.
Qed.

Lemma fireTimer_host h p p' : fireTimer h p = Some p' -> host_same p p'.
Proof.
  unfold fireTimer. destruct (_ !! h); [|done]. intros [= <-]. host_fields.
Qed.

Lemma host_same_trans p q r : host_same p q -> host_same q r -> host_same p r.
Proof.
  intros (H1&H2&H3&H4&H5&H6&H7&H8&H9&H10&H11&H12&H13)
         (G1&G2&G3&G4&G5&G6&G7&G8&G9&G10&G11&G12&G13).
  repeat split; try congruence; try lia.
  intros x Hx. destruct (G13 x Hx) as [Hx'|?]; [|by right]. by apply H13.
Qed.

Lemma host_same_pending p q : host_same p q -> pending q = pending p.
Proof. intros (_&_&_&Hq&_). unfold pending. by rewrite Hq. Qed.

(** Every step of a quiet pool is made of calm moves. *)
Lemma quiet_step now l p p' :
  quiet p -> step now l p = Some p' -> rtc calm_move p p'.
Proof.
  intros Hq Hstep. pose proof Hq as (Hqu & Hl & Hd & Hr).
  destruct l; simpl in Hstep.
  - injection Hstep as <-. apply rtc_once, cm_start.
  - injection Hstep as <-. unfold acquire.
    destruct (_ && _).
    + eapply rtc_l; [apply cm_start|]. apply rtc_once, cm_host, acquireStarted_host.
    + apply rtc_once, cm_host, acquireStarted_host.
  - injection Hstep as <-. unfold release. rewrite Hl, lookup_empty. done.
  - injection Hstep as <-. unfold destroy. rewrite Hl, lookup_empty. done.
  - injection Hstep as <-. apply rtc_once, cm_drain.
  - injection Hstep as <-. apply rtc_once, cm_host. unfold clear.
    repeat split; simpl; try done. intros r Hin.
    apply elem_of_app in Hin as [?|Hin]; [by left|].
    apply list_elem_of_singleton in Hin as ->. by right.
  - destruct (phaseOf _ _) as [[]|] eqn:Hph; simplify_eq. by apply rtc_once, cm_fulfil.
  - destruct (phaseOf _ _) as [[]|] eqn:Hph; simplify_eq. by apply rtc_once, cm_reject.
  - destruct (phaseOf _ _) as [[]|] eqn:Hph; simplify_eq; apply rtc_once, cm_untrack.
  - destruct (takeReaction _ p) as [p0|] eqn:Ht; simplify_eq/=.
    pose proof (takeReaction_host _ _ _ Ht) as Hh.
    unfold onAfterCreate. rewrite dispense_nobody.
    + by apply rtc_once, cm_host.
    + rewrite (host_same_pending _ _ Hh). by apply quiet_pending.
  - destruct (takeReaction _ p) as [p0|] eqn:Ht; simplify_eq/=.
    pose proof (takeReaction_host _ _ _ Ht) as Hh.
    unfold onAfterCreateError. rewrite dispense_nobody.
    + apply rtc_once, cm_host. eapply host_same_trans; [exact Hh|]. host_fields.
    + change (pending (set_emitted _ p0)) with (pending p0).
      rewrite (host_same_pending _ _ Hh). by apply quiet_pending.
  - by rewrite quiet_no_reaction in Hstep.
  - by rewrite quiet_no_reaction in Hstep.
  - by rewrite quiet_no_reaction in Hstep.
  - by rewrite quiet_no_reaction in Hstep.
  - by rewrite quiet_no_reaction in Hstep.
  - case_decide; simplify_eq. apply rtc_once, cm_host. host_fields.
  - destruct (requests p !! request ≫= ResourceRequest._timerRef) as [h|];
      simplify_eq/=.
    destruct (fireTimer h p) as [p0|] eqn:Ht; simplify_eq/=.
    apply rtc_once, cm_host. eapply host_same_trans; [by eapply fireTimer_host|].
    unfold onRequestTimer. destruct (requests p0 !! request) as [rr|];
      [|apply host_same_refl].
    destruct (ResourceRequest._fireTimeout rr (timers p0)). host_fields.
  - destruct (rejectionOf request p); simplify_eq/=.
    by rewrite quiet_no_reaction in Hstep.
  - destruct (_scheduledEviction p) as [h|] eqn:Hse; simplify_eq/=.
    destruct (fireTimer h p) as [p0|] eqn:Ht; simplify_eq/=.
    pose proof (fireTimer_host _ _ _ Ht) as Hh.
    unfold onEvictorTimer.
    pose proof (evict_state now visited p0) as He.
    destruct (_evict now visited p0) as [[[]|e] p1]; simpl in He; subst p1.
    + destruct (_started p0); [|by apply rtc_once, cm_host].
      eapply rtc_l; [by apply cm_host|]. apply rtc_once, cm_reschedule.
      destruct Hh as (_&_&_&_&_&_&_&_&->&_). by rewrite Hse.
    + by apply rtc_once, cm_host.
  - destruct (forallb _ ops); [|done].
    destruct (takeReaction _ p) as [p0|] eqn:Ht; simplify_eq/=.
    apply rtc_once, cm_host. by eapply takeReaction_host.
  - destruct (forallb _ ds); [|done]. by rewrite quiet_no_reaction in Hstep.
  - destruct (forallb _ ops); [|done]. by rewrite quiet_no_reaction in Hstep.
Qed.

(** The pool before the constructor runs [start]. *)
Definition unstarted (options : PoolOptions.IPoolOptionsParams) : Pool.t :=
  Pool.mk (PoolOptions.new options) false false
    (PriorityQueue.new (PoolOptions.priorityRange (PoolOptions.new options)))
    [] ∅ Deque.empty ∅ ∅ ∅ ∅ None ∅ ∅ Timers.empty 0%nat [] [] [] ∅.

Lemma new_unstarted options :
  Pool.new options =
    if PoolOptions.autostart (PoolOptions.new options)
    then start (unstarted options) else unstarted options.
Proof. done. Qed.

Lemma quiet_unstarted options : quiet (unstarted options).
Proof. repeat split. by constructor. Qed.

Lemma rtc_calm_quiet p q : rtc calm_move p q -> quiet p -> quiet q.
Proof. induction 1; [done|]. intros Hq. eauto using calm_quiet. Qed.

Lemma reachable_quiet options p : reachable options p -> quiet p.
Proof.
  induction 1 as [|p p' now l _ IH Hstep].
  - rewrite new_unstarted. destruct (PoolOptions.autostart _).
    + eapply calm_quiet; [apply cm_start|apply quiet_unstarted].
    + apply quiet_unstarted.
  - eapply rtc_calm_quiet; [by eapply quiet_step|done].
Qed.

(** A property that the unstarted pool has and every calm move of a
    quiet pool keeps holds in every state the pool reaches. *)
Lemma reachable_calm_ind options (P : Pool.t -> Prop) :
  P (unstarted options) ->
  (forall p q, quiet p -> P p -> calm_move p q -> P q) ->
  forall p, reachable options p -> P p.
Proof.
  intros H0 Hmove.
  assert (forall p q, rtc calm_move p q -> quiet p -> P p -> P q) as Hrtc.
  { intros a b Hab. induction Hab as [|a b c Hab _ IH]; [done|]. intros Hq Hp.
    apply IH; [by eapply calm_quiet|by eapply Hmove]. }
  induction 1 as [|p p' now l Hr IH Hstep].
  - rewrite new_unstarted. destruct (PoolOptions.autostart _); [|done].
    eapply Hmove; [apply quiet_unstarted|done|apply cm_start].
  - eapply Hrtc; [eapply quiet_step; [|done]| |done]; by eapply reachable_quiet.
Qed.

Lemma reachable_config options p :
  reachable options p -> _config p = PoolOptions.new options.
Proof.
  revert p. apply (reachable_calm_ind options (fun p => _config p = PoolOptions.new options)); [done|].
  intros p q _ Hp Hm. rewrite <- Hp. clear Hp.
  destruct Hm as [q Hh| | |now op resource Hph|op e Hph|op|Hs].
  - by destruct Hh as (-> & _).
  - by destruct (start_frame p) as (-> & _).
  - unfold drain, _descheduleEvictorRun. cbn [_scheduledEviction set_draining].
    by destruct (_scheduledEviction p).
  - unfold onCreateFulfilled. cbn [_config set_factoryCreateOperations].
    match goal with |- context [_addPooledResourceToAvailableObjects now ?pr ?q] =>
      by destruct (addPooled_frame now pr q) as (-> & _) end.
  - done.
  - unfold onCreateUntracked. by destruct (phaseOf op _) as [[| |e]|].
  - by destruct (scheduleEvictorRun_frame p) as (-> & _).
Qed.

End PoolQuiet.

(** ** The pool: the public operations *)

Section PoolOperations.
Import Pool.

(** What [start] does to a pool that is neither started nor draining. *)
Lemma start_effects p :
  _draining p = false -> _started p = false ->
  start p = _ensureMinimum (_scheduleEvictorRun (set_started true p)) /\
  _started (start p) = true /\
  (0 < PoolOptions.evictionRunIntervalMillis (_config p) ->
   exists h, _scheduledEviction (start p) = Some h /\
     Timers.armed (timers (start p)) !! h
       = Some (PoolOptions.evictionRunIntervalMillis (_config p))) /\
  (PoolOptions.evictionRunIntervalMillis (_config p) <= 0 ->
   _scheduledEviction (start p) = _scheduledEviction p /\ timers (start p) = timers p) /\
  _allObjects (start p) = _allObjects p /\
  exists ops,
    _factoryCreateOperations (start p) = _factoryCreateOperations p ++ ops /\
    Forall (fun o => op_phase o = OpPending) ops /\
    length ops = Js.rounds (Js.sub (Pool.min p) (Js.ofZ (_count p))).
Proof.
  intros Hd Hs. unfold start. rewrite Hd, Hs. cbn [orb].
  set (p1 := _scheduleEvictorRun (set_started true p)).
  destruct (ensureMinimum_frame p1)
    as (Hc & _ & Hst & _ & _ & Ha & _ & Hse & _ & _ & Htm & _).
  split; [done|]. rewrite Hst, Hse, Htm, Ha.
  assert (_started p1 = true /\ _draining p1 = false /\ _config p1 = _config p /\
          _allObjects p1 = _allObjects p /\
          _factoryCreateOperations p1 = _factoryCreateOperations p) as (Hs1 & Hd1 & Hc1 & Ha1 & Ho1).
  { subst p1. unfold _scheduleEvictorRun. destruct (_ && _); done. }
  split; [done|]. split; [|split; [|split; [done|]]].
  - intros Hpos. subst p1. unfold _scheduleEvictorRun.
    cbn [_config _started set_started andb].
    destruct (0 <? _) eqn:E; [|lia]. cbn [andb].
    eexists. split; [reflexivity|]. simpl. apply lookup_insert_eq.
  - intros Hle. subst p1. unfold _scheduleEvictorRun.
    cbn [_config _started set_started].
    destruct (0 <? _) eqn:E; [lia|]. done.
  - destruct (core_ensureMinimum p1) as (ops & Hlen & Hall & Hcore).
    unfold core in Hcore. injection Hcore as _ _ _ _ Hops.
    exists ops. rewrite Hops, Ho1. split; [done|]. split; [done|].
    rewrite Hlen, Hd1, Hs1. simpl. unfold Pool.min, _count.
    by rewrite Hc1, Ha1, Ho1.
Qed.

(** C10, as amended.  On a pool that is not started and whose
    [autostart] option is false, [acquire] first calls [start] and
    evaluates its draining and capacity checks on the state that [start]
    leaves.  [start] does nothing when the pool is draining; otherwise it
    sets the started flag, schedules the evictor when the eviction
    interval is positive, and runs [_ensureMinimum], whose loop begins
    one creation for each [i = 0, 1, ...] below [min - count]. *)
Theorem acquire_calls_start_first now priority p :
  _started p = false -> PoolOptions.autostart (_config p) = false ->
  acquire now priority p = acquireStarted now priority (start p) /\
  (_draining p = true ->
   start p = p /\ acquire now priority p = (AcquireRejected DrainingError, p)) /\
  (_draining p = false ->
   start p = _ensureMinimum (_scheduleEvictorRun (set_started true p)) /\
   _started (start p) = true /\
   (0 < PoolOptions.evictionRunIntervalMillis (_config p) ->
    exists h, _scheduledEviction (start p) = Some h /\
      Timers.armed (timers (start p)) !! h
        = Some (PoolOptions.evictionRunIntervalMillis (_config p))) /\
   (PoolOptions.evictionRunIntervalMillis (_config p) <= 0 ->
    _scheduledEviction (start p) = _scheduledEviction p /\ timers (start p) = timers p) /\
   _allObjects (start p) = _allObjects p /\
   exists ops,
     _factoryCreateOperations (start p) = _factoryCreateOperations p ++ ops /\
     Forall (fun o => op_phase o = OpPending) ops /\
     length ops = Js.rounds (Js.sub (Pool.min p) (Js.ofZ (_count p)))).
Proof.
  intros Hs Ha. split; [|split].
  - unfold acquire. by rewrite Hs, Ha.
  - intros Hd. assert (start p = p) as Hst by (unfold start; by rewrite Hd).
    split; [done|]. unfold acquire. rewrite Hs, Ha. cbn [negb andb].
    rewrite Hst. unfold acquireStarted. by rewrite Hd.
  - intros Hd. by apply start_effects.
Qed.

(** The delays [new ResourceRequest] accepts: none, or one whose floor
    is positive. *)
Definition timeoutAccepted (timeoutMillis : option Js.number) : bool :=
  match timeoutMillis with
  | None => true
  | Some d =>
      match Js.Math_floor d with
      | Some ttl => 0 <? ttl
      | None => false
      end
  end.

Lemma new_request_outcome now timeoutMillis e :
  if timeoutAccepted timeoutMillis then
    exists rr tm, ResourceRequest.new now timeoutMillis e = Ok (rr, tm) /\
                  ResourceRequest.state rr = PENDING
  else ResourceRequest.new now timeoutMillis e = Throw DelayError.
Proof.
  unfold timeoutAccepted, ResourceRequest.new.
  destruct timeoutMillis as [d|]; [|by eexists _, _].
  unfold ResourceRequest.setTimeout. rewrite decide_True by done.
  destruct (Js.Math_floor d) as [ttl|]; [|done].
  destruct (0 <? ttl) eqn:E.
  - destruct (ttl <=? 0) eqn:E'; [lia|]. simpl. by eexists _, _.
  - destruct (ttl <=? 0) eqn:E'; [done|lia].
Qed.




End PoolOperations.

(** A pool that starts only on demand, with [min = 1] and [max = 2]. *)
Definition onDemandOptions : PoolOptions.IPoolOptionsParams :=
  PoolOptions.mkParams None None None None (Some false) None None None
    (Some (Js.ofZ 1)) (Some (Js.ofZ 2)) None None None None.

(** C10, witness: a pool built with [autostart = false]. *)
Lemma acquire_calls_start_first_witness :
  Pool._started (Pool.new onDemandOptions) = false /\
  Pool.acquire 0 None (Pool.new onDemandOptions)
    = Pool.acquireStarted 0 None (Pool.start (Pool.new onDemandOptions)).
Proof.
  split; [reflexivity|].
  exact (proj1 (acquire_calls_start_first 0 None (Pool.new onDemandOptions)
                  eq_refl eq_refl)).
Defined.

(** C10, the claim as stated fails: on a pool that was never started
    and is draining, [acquire] leaves the started flag unset (and rejects). *)
Lemma acquire_does_not_start_draining_pool :
  let p := Pool.drain (Pool.new onDemandOptions) in
  Pool._started p = false /\
  PoolOptions.autostart (Pool._config p) = false /\
  (Pool.acquire 0 None p).1 = Pool.AcquireRejected DrainingError /\
  Pool._started (Pool.acquire 0 None p).2 = false.
Proof. repeat apply conj; vm_compute; reflexivity. Qed.



(** ** The pool: dispatch, release and clear *)

Section PoolDispatch.
Import Pool.

Lemma addPooled_effects now pr p r0 :
  pooled p !! pr = Some r0 ->
  let p' := _addPooledResourceToAvailableObjects now pr p in
  _availableObjects p' =
    (if PoolOptions.fifo (_config p) then _availableObjects p ++ [pr]
     else pr :: _availableObjects p) /\
  pooled p' !! pr = Some (PooledResource.idle now r0) /\
  _waitingClientsQueue p' = _waitingClientsQueue p /\
  _resourceLoans p' = _resourceLoans p /\
  requests p' = requests p.
Proof.
  intros Hp. unfold _addPooledResourceToAvailableObjects.
  cbn [_config set_pooled].
  destruct (PoolOptions.fifo (_config p)); simpl;
    rewrite lookup_alter_eq, Hp; done.
Qed.

Lemma handleOf_lookup pr p r0 :
  pooled p !! pr = Some r0 -> handleOf pr p = PooledResource.obj r0.
Proof. intros Hp. unfold handleOf. by rewrite Hp. Qed.


End PoolDispatch.

Section PoolRelease.
Import Pool.

Lemma destroy_effects pr p r0 :
  pooled p !! pr = Some r0 ->
  pooled (_destroy pr p) !! pr = Some (PooledResource.invalidate r0) /\
  (pr ∉ _allObjects (_destroy pr p)) /\
  destroyCalls (_destroy pr p) = destroyCalls p ++ [PooledResource.obj r0] /\
  _availableObjects (_destroy pr p) = _availableObjects p.
Proof.
  intros Hp. unfold _destroy.
  match goal with |- context [_ensureMinimum ?q] =>
    destruct (ensureMinimum_frame q)
      as (_ & _ & _ & _ & -> & -> & _ & _ & -> & _ & _ & -> & _)
  end.
  assert (handleOf pr (set_allObjects (_allObjects p ∖ {[pr]})
            (set_pooled (alter PooledResource.invalidate pr (pooled p)) p))
          = PooledResource.obj r0) as Hh.
  { unfold handleOf. simpl. by rewrite lookup_alter_eq, Hp. }
  destruct (Js.truthy _); simpl; rewrite lookup_alter_eq, Hp; simpl;
    (split; [done|]); (split; [apply not_elem_of_difference; right; by apply elem_of_singleton|]);
    (split; [|done]);
    f_equal; f_equal; exact Hh.
Qed.

(** C3, as amended.  A successful [release] removes the loan and calls
    [deallocate], which puts the pooled resource in state IDLE (not
    RETURNING: [release] never calls [returning]).  With [testOnReturn]
    the resource then enters VALIDATION and a validation is awaited:
    when the validator answers [false] or fails the resource is
    destroyed (state INVALID, out of [_allObjects], handed to
    [factory.destroy]) and dispensing runs; when it answers [true] the
    resource re-enters the available cache and dispensing runs.  Without
    [testOnReturn] the resource re-enters the available cache at once
    and dispensing runs.  Re-entering is a push at the tail when [fifo]
    is true and an unshift at the head when [fifo] is false.  [release]
    returns a resolved promise when dispensing returns, as it does when
    nobody waits or a validation is awaited; an exception of dispensing
    leaves [release], and under the validation callback it makes the
    [.catch] callback ready. *)
Theorem release_deallocates_to_idle now resource p loan r0 :
  _resourceLoans p !! resource = Some loan ->
  pooled p !! ResourceLoan.pooledResource loan = Some r0 ->
  let pr := ResourceLoan.pooledResource loan in
  let p2 := set_pooled (alter (PooledResource.deallocate now) pr (pooled p))
              (set_resourceLoans (delete resource (_resourceLoans p)) p) in
  release now resource p = returned (releaseDeallocated now pr p2) /\
  (PoolOptions.testOnReturn (_config p) = true \/ pending p = 0 ->
   (release now resource p).1 = CallResolved) /\
  _resourceLoans p2 !! resource = None /\
  pooled p2 !! pr = Some (PooledResource.deallocate now r0) /\
  PooledResource.state (PooledResource.deallocate now r0) = IDLE /\
  (release now resource p).2 = (releaseDeallocated now pr p2).2 /\
  (PoolOptions.testOnReturn (_config p) = true ->
   pooled (releaseDeallocated now pr p2).2 !! pr
     = Some (PooledResource.test (PooledResource.deallocate now r0)) /\
   PooledResource.state (PooledResource.test (PooledResource.deallocate now r0))
     = VALIDATION /\
   _availableObjects (releaseDeallocated now pr p2).2 = _availableObjects p /\
   reactions (releaseDeallocated now pr p2).2
     = reactions p ++ [ReturnValidation (nextId p) pr]) /\
  (PoolOptions.testOnReturn (_config p) = false ->
   releaseDeallocated now pr p2
     = _dispense now (_addPooledResourceToAvailableObjects now pr p2) /\
   _availableObjects (_addPooledResourceToAvailableObjects now pr p2)
     = (if PoolOptions.fifo (_config p) then _availableObjects p ++ [pr]
        else pr :: _availableObjects p) /\
   PooledResource.state <$>
     pooled (_addPooledResourceToAvailableObjects now pr p2) !! pr = Some IDLE) /\
  (forall op q rq e, pooled q !! pr = Some rq ->
   let q0 := set_validationOperations (_validationOperations q ∖ {[op]}) q in
   onReturnValidation now op pr (ResolvedWith false) q
     = orCatch (fun _ => ReturnValidationFailed pr) (_dispense now (_destroy pr q0)) /\
   onReturnValidation now op pr (RejectedWith e) q = (_dispense now (_destroy pr q0)).2 /\
   PooledResource.state <$> pooled (_destroy pr q0) !! pr = Some INVALID /\
   (pr ∉ _allObjects (_destroy pr q0)) /\
   destroyCalls (_destroy pr q0) = destroyCalls q ++ [PooledResource.obj rq] /\
   _availableObjects (_destroy pr q0) = _availableObjects q /\
   onReturnValidation now op pr (ResolvedWith true) q
     = orCatch (fun _ => ReturnValidationFailed pr)
         (_dispense now (_addPooledResourceToAvailableObjects now pr q0)) /\
   _availableObjects (_addPooledResourceToAvailableObjects now pr q0)
     = (if PoolOptions.fifo (_config q) then _availableObjects q ++ [pr]
        else pr :: _availableObjects q) /\
   PooledResource.state <$>
     pooled (_addPooledResourceToAvailableObjects now pr q0) !! pr = Some IDLE).
Proof.
  intros Hl Hp pr p2. fold pr in Hp.
  assert (pooled p2 !! pr = Some (PooledResource.deallocate now r0)) as Hp2.
  { subst p2. simpl. by rewrite lookup_alter_eq, Hp. }
  assert (release now resource p = returned (releaseDeallocated now pr p2)) as Hrel
    by (unfold release; by rewrite Hl).
  split; [done|]. split.
  { intros Hcase. rewrite Hrel. unfold releaseDeallocated.
    assert (_config p2 = _config p) as -> by done.
    destruct (PoolOptions.testOnReturn (_config p)) eqn:Et; [done|].
    destruct Hcase as [|Hpend]; [done|]. rewrite dispense_nobody; [done|].
    unfold pending in *.
    by destruct (addPooled_effects now pr p2 _ Hp2) as (_ & _ & -> & _). }
  split; [subst p2; simpl; apply lookup_delete_eq|].
  split; [done|]. split; [done|].
  split; [rewrite Hrel; by destruct (releaseDeallocated now pr p2) as [[[]|e] p3]|].
  split; [|split].
  - intros Ht. unfold releaseDeallocated.
    assert (_config p2 = _config p) as -> by done. rewrite Ht.
    simpl. rewrite lookup_alter_eq, lookup_alter_eq, Hp. done.
  - intros Ht. unfold releaseDeallocated.
    assert (_config p2 = _config p) as -> by done. rewrite Ht.
    split; [done|].
    destruct (addPooled_effects now pr p2 _ Hp2) as (Ha & Hpl & _).
    split; [exact Ha|]. by rewrite Hpl.
  - intros op q rq e Hq q0.
    assert (pooled q0 !! pr = Some rq) as Hq0 by done.
    destruct (destroy_effects pr q0 rq Hq0) as (Hd1 & Hd2 & Hd3 & Hd4).
    destruct (addPooled_effects now pr q0 rq Hq0) as (Ha & Hpl & _).
    repeat split; try done.
    + by rewrite Hd1.
    + by rewrite Hpl.
Qed.

End PoolRelease.

(** The states of some small runs, for the examples: the labels are run
    in order, at time 0; a label that is not enabled is skipped. *)
Definition runLabels (ls : list Pool.Label) (p : Pool.t) : Pool.t :=
  fold_left (fun q l => default q (Pool.step 0 l q)) ls p.

(** The runs of the examples end in reachable states. *)
Lemma reachable_runLabels options ls p :
  Pool.reachable options p -> Pool.reachable options (runLabels ls p).
Proof.
  revert p. induction ls as [|l ls IH]; intros p Hp; [done|].
  unfold runLabels. cbn [fold_left]. apply IH.
  destruct (Pool.step 0 l p) as [q|] eqn:Hq; [|done].
  by eapply Pool.reachable_step.
Qed.

(** A pool in which the resource with handle 100 is on loan: its pooled
    resource, 2, is ALLOCATED and in no cache.  This is the state in
    which the loan branch of
    [_dispatchPooledResourceToNextWaitingClient] leaves a pool with
    these options; it is an input of [release] and [destroy], not a
    state the pool reaches. *)
Definition oneBorrowed (options : PoolOptions.IPoolOptionsParams) : Pool.t :=
  Pool.set_resourceLoans {[ 100%nat := ResourceLoan.new 2 0 ]}
    (Pool.set_pooled
       {[ 2%nat := PooledResource.allocate 0 (PooledResource.new 100 0) ]}
       (Pool.set_allObjects {[ 2%nat ]}
          (Pool.set_nextId 3 (Pool.new options)))).

Definition testOnReturnOptions : PoolOptions.IPoolOptionsParams :=
  PoolOptions.mkParams None None None (Some true) None None None None
    None None None None None None.

(** C3, witness: releasing the borrowed resource of [oneBorrowed]. *)
Lemma release_deallocates_to_idle_witness :
  Pool._resourceLoans (oneBorrowed PoolOptions.noOptions) !! 100%nat
    = Some (ResourceLoan.new 2 0) /\
  (Pool.release 0 100 (oneBorrowed PoolOptions.noOptions)).1 = Pool.CallResolved.
Proof.
  split; [reflexivity|].
  exact (proj1 (proj2 (release_deallocates_to_idle 0 100%nat
                  (oneBorrowed PoolOptions.noOptions)
                  (ResourceLoan.new 2 0) (PooledResource.allocate 0 (PooledResource.new 100 0))
                  eq_refl eq_refl)) (or_intror eq_refl)).
Defined.

(** C3, the claim as stated fails: the borrowed resource is ALLOCATED;
    [deallocate], which [release] calls, makes it IDLE; after [release] it
    is IDLE (without [testOnReturn]) or under VALIDATION (with it).  It is
    never RETURNING. *)
Lemma release_never_makes_returning :
  PooledResource.state <$> Pool.pooled (oneBorrowed PoolOptions.noOptions) !! 2%nat
    = Some ALLOCATED /\
  PooledResource.state (PooledResource.deallocate 0
      (PooledResource.allocate 0 (PooledResource.new 100 0))) = IDLE /\
  PooledResource.state <$>
    Pool.pooled (Pool.release 0 100 (oneBorrowed PoolOptions.noOptions)).2 !! 2%nat
    = Some IDLE /\
  PooledResource.state <$>
    Pool.pooled (Pool.release 0 100 (oneBorrowed testOnReturnOptions)).2 !! 2%nat
    = Some VALIDATION.
Proof. repeat apply conj; vm_compute; reflexivity. Qed.

(** A pool with default options ([fifo] is true) that holds two idle
    resources, 5 and 7; resource 5 has been shifted out of the available
    cache to be dispatched, and nobody waits. *)
Definition dispatching : Pool.t :=
  Pool.set_pooled {[ 5%nat := PooledResource.new 50 0; 7%nat := PooledResource.new 70 0 ]}
    (Pool.set_availableObjects [7%nat] (Pool.new PoolOptions.noOptions)).



(** ** The pool: the bound on the number of resources *)

Section PoolBound.
Import Pool.















End PoolBound.

Section PoolBoundStated.
Import Pool.


End PoolBoundStated.

(** A pool with [min = 1] and [max = 1]. *)
Definition minOneOptions : PoolOptions.IPoolOptionsParams :=
  PoolOptions.mkParams None None None None None None None None
    (Some (Js.ofZ 1)) (Some (Js.ofZ 1)) None None None None.

(** The pool of [minOneOptions] once its first creation, promise 0, is
    fulfilled with the resource of handle 100: the pooled resource, 1, is
    available and the promise is still tracked. *)
Definition oneCreated : Pool.t :=
  runLabels [Pool.CreateFulfils 0 100] (Pool.new minOneOptions).

(** The same pool once the promise is deleted from the tracked set and
    the reaction after the creation has run. *)
Definition oneAvailable : Pool.t :=
  runLabels [Pool.CreateUntracked 0; Pool.RunAfterCreate] oneCreated.

(** A pool with [min = 2.2] and [max = 2.5]. *)
Definition fractionalOptions : PoolOptions.IPoolOptionsParams :=
  PoolOptions.mkParams None None None None None None None None
    (Some (Js.Num (22 # 10))) (Some (Js.Num (25 # 10))) None None None None.



(** ** The pool: [clear] *)

(** The pool [oneAvailable] on which [clear] was called and, no creation
    being under way, the callback of [clear] has run. *)
Definition cleared : Pool.t :=
  runLabels [Pool.CallClear; Pool.ClearCreatesSettled []] oneAvailable.

Section PoolClear.
Import Pool.

(** C5.  [clear] registers its callback behind the create promises that
    are tracked when it is called.  The callback throws a TypeError at
    its first statement, the spread of [this._availableObjects.iterator()],
    whatever the pool holds: it removes nothing from the available
    cache, calls [factory.destroy] for nothing and does not clear
    [_allObjects]; the step of the pool that runs it only consumes the
    registration.  The statement that would remove a resource,
    [this._availableObjects.remove], throws as well.  On the pool
    [oneAvailable], which holds one available resource, the resource is
    still available, known and not destroyed after [clear] has run. *)
Theorem clear_throws_before_it_destroys now ops p :
  reactions (clear p)
    = reactions p ++ [ClearAwaitsCreates (op_id <$> _factoryCreateOperations p)] /\
  spreadIterator (_availableObjects p) = Throw TypeError /\
  (forall pooledResource acc, clearOne pooledResource acc = (Throw TypeError, acc)) /\
  onClearCreatesSettled p = (Throw TypeError, p) /\
  (forall p', step now (ClearCreatesSettled ops) p = Some p' ->
     _availableObjects p' = _availableObjects p /\
     _allObjects p' = _allObjects p /\
     pooled p' = pooled p /\
     destroyCalls p' = destroyCalls p /\
     _factoryCreateOperations p' = _factoryCreateOperations p /\
     reactions p' = removeFirst (ClearAwaitsCreates ops) (reactions p)) /\
  (reachable minOneOptions cleared /\
   available oneAvailable = 1 /\
   available cleared = 1 /\
   _availableObjects cleared = [1%nat] /\
   _allObjects cleared = {[1%nat]} /\
   destroyCalls cleared = [] /\
   reactions cleared = []).
Proof.
  split; [done|]. split; [done|]. split; [done|]. split; [done|]. split.
  - intros p' Hstep. cbn [step] in Hstep.
    destruct (forallb _ ops); [|done].
    unfold takeReaction in Hstep. case_decide; [|done].
    cbn in Hstep. by injection Hstep as <-.
  - split.
    { apply reachable_runLabels. do 2 apply reachable_runLabels. apply reachable_new. }
    repeat apply conj; vm_compute; reflexivity.
Qed.

End PoolClear.

(** * Further properties *)

(** ** The doubly linked list: insertion and lookup *)

Section LinkedListInsertion.
Context {T : Type}.
Import DoublyLinkedList.
Implicit Types (h : gmap nat (INode T)) (l : DoublyLinkedList.t) (ns : list nat).

Lemma repr_in_heap h l ns n :
  dll_repr h l ns -> n ∈ ns -> is_Some (h !! n).
Proof.
  intros Hr Hin. apply list_elem_of_lookup in Hin as [i Hi].
  destruct (repr_node _ _ _ _ _ Hr Hi) as (nd & Hn & _). eauto.
Qed.

Lemma fresh_not_linked h l ns :
  dll_repr h l ns -> fresh (dom h) ∉ ns.
Proof.
  intros Hr Hin. apply (repr_in_heap _ _ _ _ Hr) in Hin.
  apply elem_of_dom in Hin. by apply is_fresh in Hin.
Qed.

(** [insertEnd] on a list that is not empty: the list and the heap. *)
Lemma insertEnd_linked h l ns tl d :
  dll_repr h l ns -> last ns = Some tl ->
  let n := fresh (dom h) in
  (insertEnd d h l).1 = n /\
  (insertEnd d h l).2.2 = mk (_head l) (Some n) (_length l + 1) /\
  forall k, (insertEnd d h l).2.1 !! k =
    if decide (k = n) then Some (mkNode (Some tl) None d)
    else if decide (k = tl)
         then (fun nd : INode T => mkNode (prev nd) (Some n) (data nd)) <$> h !! tl
         else h !! k.
Proof.
  intros Hr Hl n.
  pose proof (fresh_not_linked _ _ _ Hr) as Hfresh. fold n in Hfresh.
  pose proof Hr as (Hnd & Hhead & Htail & Hlen & Hnodes).
  rewrite last_lookup in Hl.
  assert (tl <> n) as Hne.
  { intros ->. apply Hfresh. by eapply list_elem_of_lookup_2. }
  destruct (Hnodes _ _ Hl) as (ndt & Ht & Hpt & Hnt).
  assert (next ndt = None) as Hnone.
  { rewrite Hnt. apply lookup_ge_None_2.
    pose proof (lookup_lt_Some _ _ _ Hl). lia. }
  unfold insertEnd, createNode. fold n.
  rewrite Htail, last_lookup, Hl. unfold insertAfter, getNext.
  rewrite !lookup_setPrev, !lookup_setNext, !lookup_setPrev.
  rewrite !(decide_False (P := n = tl)) by done.
  rewrite lookup_insert_ne by done. rewrite Ht. simpl. rewrite Hnone. simpl.
  split; [done|]. split; [done|].
  intros k.
  rewrite ?lookup_setNext, ?lookup_setPrev, ?lookup_insert;
    repeat (case_decide; simplify_eq;
            rewrite ?lookup_setNext, ?lookup_setPrev, ?lookup_insert);
    rewrite ?Ht; simpl; try done.
Qed.


(** [insertEnd] on an empty list: the node it returns is not the one
    that [insertBeginning] links. *)
Lemma insertEnd_empty h l d :
  _head l = None -> _tail l = None ->
  let n0 := fresh (dom h) in
  let h1 := <[n0 := mkNode None None d]> h in
  let n := fresh (dom h1) in
  insertEnd d h l = (n0, (<[n := mkNode None None d]> h1, mk (Some n) (Some n) (_length l + 1))).
Proof.
  intros Hh Ht. unfold insertEnd, insertBeginning, createNode.
  rewrite Ht. simpl. rewrite Hh. done.
Qed.

(** [insertBeginning] on a list that is not empty. *)
Lemma insertBeginning_linked h l ns hd d :
  dll_repr h l ns -> head ns = Some hd ->
  let n := fresh (dom h) in
  (insertBeginning d h l).1 = n /\
  (insertBeginning d h l).2.2 = mk (Some n) (_tail l) (_length l + 1) /\
  forall k, (insertBeginning d h l).2.1 !! k =
    if decide (k = n) then Some (mkNode None (Some hd) d)
    else if decide (k = hd)
         then (fun nd : INode T => mkNode (Some n) (next nd) (data nd)) <$> h !! hd
         else h !! k.
Proof.
  intros Hr Hl n.
  pose proof (fresh_not_linked _ _ _ Hr) as Hfresh. fold n in Hfresh.
  pose proof Hr as (Hnd & Hhead & Htail & Hlen & Hnodes).
  rewrite head_lookup in Hl.
  assert (hd <> n) as Hne.
  { intros ->. apply Hfresh. by eapply list_elem_of_lookup_2. }
  destruct (Hnodes _ _ Hl) as (ndh & Hh & Hph & Hnh).
  unfold insertBeginning, createNode. fold n.
  rewrite Hhead, head_lookup, Hl. unfold insertBefore, getPrev.
  rewrite !lookup_setNext, !lookup_setPrev.
  rewrite !(decide_False (P := n = hd)) by done.
  rewrite lookup_insert_ne by done. rewrite Hh. simpl. rewrite Hph. simpl.
  split; [done|]. split; [done|].
  intros k.
  rewrite ?lookup_setNext, ?lookup_setPrev, ?lookup_insert;
    repeat (case_decide; simplify_eq;
            rewrite ?lookup_setNext, ?lookup_setPrev, ?lookup_insert);
    rewrite ?Hh; simpl; try done.
Qed.

Lemma repr_singleton h n nd len :
  h !! n = Some nd -> prev nd = None -> next nd = None -> len = 1 ->
  dll_repr h (mk (Some n) (Some n) len) [n].
Proof.
  intros Hn Hp Hx ->. split; [apply NoDup_singleton|].
  split; [done|]. split; [done|]. split; [done|].
  intros i m Hi. destruct i as [|i]; simpl in Hi; [|done]. simplify_eq.
  exists nd. done.
Qed.

(** [insertEnd] on a well linked list. *)
Lemma insertEnd_repr h l ns d :
  dll_repr h l ns ->
  exists n,
    h !! n = None /\
    dll_repr (insertEnd d h l).2.1 (insertEnd d h l).2.2 (ns ++ [n]) /\
    data <$> (insertEnd d h l).2.1 !! n = Some d /\
    (forall m, is_Some (h !! m) ->
       data <$> (insertEnd d h l).2.1 !! m = data <$> h !! m) /\
    ((insertEnd d h l).1 = n <-> ns <> []).
Proof.
  intros Hr.
  pose proof (fresh_not_linked _ _ _ Hr) as Hfresh.
  pose proof Hr as (Hnd & Hhead & Htail & Hlen & Hnodes).
  destruct (last ns) as [tl|] eqn:Hl.
  - destruct (insertEnd_linked h l ns tl d Hr Hl) as (Hret & Hlist & Hheap).
    set (n := fresh (dom h)) in *.
    assert (h !! n = None) as Hnone by (apply not_elem_of_dom, is_fresh).
    assert (ns <> []) as Hne by (intros ->; done).
    pose proof Hl as Hl'. rewrite last_lookup in Hl'.
    assert (tl <> n) as Htn.
    { intros ->. apply Hfresh. by eapply list_elem_of_lookup_2. }
    destruct (Hnodes _ _ Hl') as (ndt & Ht & Hpt & Hnt).
    exists n. split; [done|]. split; [|split; [|split]].
    + rewrite Hlist. split.
      { apply NoDup_app. split; [done|]. split; [|apply NoDup_singleton].
        intros x Hx Hx'. apply list_elem_of_singleton in Hx'. by subst. }
      split; [simpl; rewrite Hhead; by destruct ns|].
      split; [simpl; by rewrite last_snoc|].
      split; [simpl; rewrite length_app, Hlen; simpl; lia|].
      intros i m Hi. rewrite Hheap.
      apply lookup_app_Some in Hi as [Hi|[Hge Hi]].
      * pose proof (lookup_lt_Some _ _ _ Hi) as Hlt.
        assert (m <> n) by (intros ->; apply Hfresh; by eapply list_elem_of_lookup_2).
        rewrite decide_False by done.
        destruct (Hnodes _ _ Hi) as (nd & Hm & Hp & Hx).
        assert (prev nd = match i with O => None | S j => (ns ++ [n]) !! j end) as Hp'.
        { rewrite Hp. destruct i as [|j]; [done|]. by rewrite lookup_app_l by lia. }
        case_decide as Hmt.
        { subst m. pose proof (NoDup_lookup _ _ _ _ Hnd Hi Hl') as ->.
          rewrite Ht. simpl. eexists. split; [done|]. simpl. simplify_eq.
          split; [done|].
          rewrite lookup_app_r by lia.
          replace (S (Init.Nat.pred (length ns)) - length ns)%nat with 0%nat by lia.
          done. }
        exists nd. split; [done|]. split; [done|].
        rewrite Hx. rewrite lookup_app_l; [done|].
        destruct (decide (S i < length ns)%nat) as [|Hge]; [done|].
        exfalso. apply Hmt. assert (i = Init.Nat.pred (length ns)) as -> by lia.
        congruence.
      * destruct (i - length ns)%nat as [|k] eqn:Ek; simpl in Hi; [|done].
        simplify_eq. assert (i = length ns) as -> by lia.
        rewrite decide_True by done. eexists. split; [done|]. simpl.
        split.
        { destruct (length ns) as [|j] eqn:El; [by destruct ns|].
          rewrite lookup_app_l by lia. done. }
        symmetry. apply lookup_ge_None_2. rewrite length_app. simpl. lia.
    + rewrite Hheap. by rewrite decide_True by done.
    + intros m [nd Hm]. rewrite Hheap.
      assert (m <> n) by (intros ->; congruence).
      rewrite decide_False by done.
      case_decide; [subst; rewrite Ht in *; by simplify_eq|done].
    + rewrite Hret. done.
  - apply last_None in Hl. subst ns.
    simpl in Hhead, Htail.
    rewrite (insertEnd_empty h l d Hhead Htail). simpl.
    set (n0 := fresh (dom h)).
    set (h1 := <[n0 := mkNode None None d]> h).
    set (n := fresh (dom h1)).
    assert (n0 <> n) as Hne.
    { intros E. pose proof (is_fresh (dom h1)) as Hf. fold n in Hf. rewrite <- E in Hf.
      apply Hf. unfold h1. rewrite dom_insert. apply elem_of_union_l.
      by apply elem_of_singleton. }
    assert (h1 !! n = None) as Hn1 by (apply not_elem_of_dom, is_fresh).
    assert (h !! n = None) as Hn.
    { unfold h1 in Hn1. by rewrite lookup_insert_ne in Hn1 by done. }
    exists n. split; [done|]. split; [|split; [|split]].
    + eapply repr_singleton; [apply lookup_insert_eq|done|done|].
      simpl in Hlen. lia.
    + by rewrite lookup_insert_eq.
    + intros m [nd Hm]. assert (m <> n) by (intros ->; congruence).
      rewrite lookup_insert_ne by done. unfold h1.
      assert (m <> n0).
      { intros ->. pose proof (is_fresh (dom h)) as Hf. apply Hf.
        apply elem_of_dom. eauto. }
      by rewrite lookup_insert_ne by done.
    + split; [done|]. intros Hc. by exfalso.
Qed.

(** [insertBeginning] on a well linked list. *)
Lemma insertBeginning_repr h l ns d :
  dll_repr h l ns ->
  let n := (insertBeginning d h l).1 in
  h !! n = None /\
  dll_repr (insertBeginning d h l).2.1 (insertBeginning d h l).2.2 (n :: ns) /\
  data <$> (insertBeginning d h l).2.1 !! n = Some d /\
  (forall m, is_Some (h !! m) ->
     data <$> (insertBeginning d h l).2.1 !! m = data <$> h !! m).
Proof.
  intros Hr.
  pose proof (fresh_not_linked _ _ _ Hr) as Hfresh.
  pose proof Hr as (Hnd & Hhead & Htail & Hlen & Hnodes).
  assert (h !! fresh (dom h) = None) as Hnone by (apply not_elem_of_dom, is_fresh).
  destruct (head ns) as [hd|] eqn:Hl.
  - destruct (insertBeginning_linked h l ns hd d Hr Hl) as (Hret & Hlist & Hheap).
    rewrite Hret. set (n := fresh (dom h)) in *.
    pose proof Hl as Hl'. rewrite head_lookup in Hl'.
    assert (hd <> n) as Htn.
    { intros ->. apply Hfresh. by eapply list_elem_of_lookup_2. }
    destruct (Hnodes _ _ Hl') as (ndh & Hh & Hph & Hnh).
    cbv zeta. split; [done|]. split; [|split].
    + rewrite Hlist. split; [by apply NoDup_cons|].
      split; [done|].
      split; [simpl; rewrite Htail; by destruct ns|].
      split; [simpl length; rewrite Hlen; cbn [_length]; lia|].
      intros i m Hi. rewrite Hheap.
      destruct i as [|i]; simpl in Hi.
      * simplify_eq. rewrite decide_True by done. eexists. split; [done|].
        simpl. split; [done|]. by rewrite Hl'.
      * assert (m <> n) by (intros ->; apply Hfresh; by eapply list_elem_of_lookup_2).
        rewrite decide_False by done.
        destruct (Hnodes _ _ Hi) as (nd & Hm & Hp & Hx).
        case_decide as Hmh.
        { subst m. pose proof (NoDup_lookup _ _ _ _ Hnd Hi Hl') as ->.
          rewrite Hh. simpl. eexists. split; [done|]. simpl. simplify_eq.
          split; [done|]. done. }
        exists nd. split; [done|]. split; [|done].
        rewrite Hp. destruct i as [|j]; [|done].
        exfalso. apply Hmh. congruence.
    + rewrite Hheap. by rewrite decide_True by done.
    + intros m [nd Hm]. rewrite Hheap.
      assert (m <> n) by (intros ->; congruence).
      rewrite decide_False by done.
      case_decide; [subst; rewrite Hh in *; by simplify_eq|done].
  - destruct ns as [|x ns']; [|done]. simpl in Hhead, Htail.
    unfold insertBeginning, createNode. rewrite Hhead. simpl.
    split; [done|]. split; [|split].
    + eapply repr_singleton; [apply lookup_insert_eq|done|done|].
      simpl in Hlen. lia.
    + by rewrite lookup_insert_eq.
    + intros m [nd Hm].
      assert (m <> fresh (dom h)) by (intros ->; congruence).
      by rewrite lookup_insert_ne by done.
Qed.

(** X1.  [insertEnd] links one new node, holding the data, after the
    last node of a well linked list, and leaves the data of every node
    of the heap as it is.  The node it returns is the new node when the
    list was not empty; when the list was empty the node returned is a
    different one, linked nowhere. *)
Theorem insertEnd_appends_new_node h l ns d :
  dll_repr h l ns ->
  exists n,
    h !! n = None /\
    dll_repr (insertEnd d h l).2.1 (insertEnd d h l).2.2 (ns ++ [n]) /\
    data <$> (insertEnd d h l).2.1 !! n = Some d /\
    (forall m, is_Some (h !! m) ->
       data <$> (insertEnd d h l).2.1 !! m = data <$> h !! m) /\
    ((insertEnd d h l).1 = n <-> ns <> []).
Proof. apply insertEnd_repr. Qed.

(** X2.  [insertBeginning] links one new node, holding the data, before
    the first node of a well linked list, returns that node, and leaves
    the data of every node of the heap as it is. *)
Theorem insertBeginning_prepends_new_node h l ns d :
  dll_repr h l ns ->
  let n := (insertBeginning d h l).1 in
  h !! n = None /\
  dll_repr (insertBeginning d h l).2.1 (insertBeginning d h l).2.2 (n :: ns) /\
  data <$> (insertBeginning d h l).2.1 !! n = Some d /\
  (forall m, is_Some (h !! m) ->
     data <$> (insertBeginning d h l).2.1 !! m = data <$> h !! m).
Proof. apply insertBeginning_repr. Qed.

(** X3.  On a well linked list [getNode] never throws: it returns the
    node at the index, and [null] for an index that is negative or not
    below the length. *)
Theorem getNode_returns_node_at_index h l ns index :
  dll_repr h l ns ->
  getNode index h l = Ok (if index <? 0 then None else ns !! Z.to_nat index).
Proof.
  intros Hr. pose proof Hr as (Hnd & Hhead & Htail & Hlen & Hnodes).
  unfold getNode. destruct (index <? 0) eqn:Eneg; [done|]. simpl.
  destruct (_length l <=? index) eqn:Ege.
  { f_equal. symmetry. apply lookup_ge_None_2. lia. }
  assert (Z.to_nat index < length ns)%nat as Hlt by lia.
  clear Eneg Ege. revert Hlt. generalize (Z.to_nat index) as k. clear index.
  intros k Hlt.
  assert (forall j i : nat, (i + j < length ns)%nat ->
            Js.times j
              (fun current : Result (option nat) =>
                 bindR current (fun cur =>
                   match cur with
                   | Some c => Ok (getNext h c)
                   | None => Throw TypeError
                   end))
              (Ok (ns !! i)) = Ok (ns !! (i + j)%nat)) as Hloop.
  { induction j as [|j IH]; intros i Hij; simpl.
    - by rewrite Nat.add_0_r.
    - destruct (lookup_lt_is_Some_2 ns i ltac:(lia)) as [c Hc].
      rewrite Hc. destruct (Hnodes _ _ Hc) as (nd & Hn & _ & Hx).
      assert (getNext h c = ns !! S i) as -> by (unfold getNext; rewrite Hn; done).
      cbn [bindR]. rewrite (IH (S i)) by lia. do 2 f_equal. lia. }
  rewrite Hhead, head_lookup. by rewrite (Hloop k 0%nat) by lia.
Qed.

End LinkedListInsertion.

(** ** The deque on the linked list *)

Section LinkedDequeFacts.
Context {T : Type} `{EqDecision T}.
Import DoublyLinkedList.
Implicit Types (h : gmap nat (INode T)) (l : DoublyLinkedList.t) (ns : list nat)
  (xs : list T).

(** [remove] changes no data. *)
Lemma remove_data h l m ndm k :
  h !! m = Some ndm -> prev ndm <> Some m -> next ndm <> Some m ->
  data <$> (remove m h l).1 !! k = data <$> h !! k.
Proof.
  intros Hm Hp Hn. rewrite (remove_heap h l m ndm k Hm Hp Hn).
  case_decide as Hk; [subst; by rewrite Hm|].
  by destruct (h !! k).
Qed.

Lemma holds_remove h l ns xs i m :
  dll_repr h l ns ->
  Forall2 (fun n x => data <$> h !! n = Some x) ns xs ->
  ns !! i = Some m ->
  LinkedDeque.holds (remove m h l).1 (remove m h l).2 (delete i xs) /\
  data <$> (remove m h l).1 !! m = xs !! i.
Proof.
  intros Hr Hd Hi.
  destruct (repr_node _ _ _ _ _ Hr Hi) as (ndm & Hm & _).
  destruct (repr_no_self_link _ _ _ _ _ _ Hr Hi Hm) as [Hps Hns].
  split.
  - exists (delete i ns). split; [by apply remove_repr|].
    apply Forall2_delete.
    eapply Forall2_impl; [exact Hd|]. intros n x Hx. simpl in Hx.
    by rewrite (remove_data h l m ndm n Hm Hps Hns).
  - rewrite (remove_data h l m ndm m Hm Hps Hns).
    destruct (Forall2_lookup_l _ _ _ _ _ Hd Hi) as (x & Hx & Hmx).
    by rewrite Hx.
Qed.

Lemma holds_length h l ns xs :
  dll_repr h l ns ->
  Forall2 (fun n x => data <$> h !! n = Some x) ns xs ->
  _length l = Z.of_nat (length xs).
Proof.
  intros (_ & _ & _ & Hlen & _) Hd. rewrite Hlen.
  by rewrite (Forall2_length _ _ _ Hd).
Qed.

(** X4.  On a deque that holds the sequence [xs], [shift] does not throw:
    it returns the first element and leaves the rest, and on the empty
    deque it returns [undefined] and changes nothing. *)
Theorem shift_takes_first h l xs :
  LinkedDeque.holds h l xs ->
  exists h' l',
    LinkedDeque.shift h l = Some ((Deque.shift xs).1, (h', l')) /\
    LinkedDeque.holds h' l' (Deque.shift xs).2 /\
    (xs = [] -> h' = h /\ l' = l).
Proof.
  intros (ns & Hr & Hd).
  pose proof (holds_length _ _ _ _ Hr Hd) as Hlen.
  unfold LinkedDeque.shift, LinkedDeque.length.
  destruct xs as [|x xs'].
  - simpl in Hlen. rewrite Hlen. simpl. exists h, l.
    split; [done|]. split; [by exists ns|done].
  - destruct (_length l =? 0) eqn:El; [simpl in Hlen; lia|].
    apply Forall2_cons_inv_r in Hd as (n & ns' & Hn & Hd' & ->).
    pose proof Hr as (_ & Hhead & _). rewrite Hhead. simpl.
    destruct (holds_remove h l (n :: ns') (x :: xs') 0 n Hr) as [Hh Hx];
      [by constructor|done|].
    destruct (remove n h l) as [h' l'] eqn:Erm. simpl in *.
    exists h', l'. rewrite Hx. done.
Qed.

(** X5.  On a deque that holds the sequence [xs], [pop] does not throw:
    it returns the last element and leaves the others, and on the empty
    deque it returns [undefined] and changes nothing. *)
Theorem pop_takes_last h l xs :
  LinkedDeque.holds h l xs ->
  exists h' l',
    LinkedDeque.pop h l = Some ((Deque.pop xs).1, (h', l')) /\
    LinkedDeque.holds h' l' (Deque.pop xs).2 /\
    (xs = [] -> h' = h /\ l' = l).
Proof.
  intros (ns & Hr & Hd).
  pose proof (holds_length _ _ _ _ Hr Hd) as Hlen.
  unfold LinkedDeque.pop, LinkedDeque.length, Deque.pop.
  destruct (last xs) as [x|] eqn:Hl.
  - apply last_Some in Hl as [xs' ->].
    rewrite length_app in Hlen. simpl in Hlen.
    destruct (_length l =? 0) eqn:El; [lia|].
    apply Forall2_app_inv_r in Hd as (ns' & k & Hd' & Hk & ->).
    apply Forall2_cons_inv_r in Hk as (n & k' & Hn & Hk' & ->).
    apply Forall2_nil_inv_r in Hk' as ->.
    pose proof Hr as (_ & _ & Htail & _). rewrite Htail, last_snoc.
    assert ((ns' ++ [n]) !! length ns' = Some n) as Hi by (by apply list_lookup_middle).
    destruct (holds_remove h l (ns' ++ [n]) (xs' ++ [x]) (length ns') n Hr) as [Hh Hx];
      [apply Forall2_app; [done|by constructor]|done|].
    destruct (remove n h l) as [h' l'] eqn:Erm. simpl in *.
    exists h', l'. rewrite Hx.
    rewrite (Forall2_length _ _ _ Hd') in *.
    rewrite (list_lookup_middle xs' [] x (length xs')) by done.
    rewrite removelast_last.
    split; [done|]. split; [|by destruct xs'].
    replace (delete (length xs') (xs' ++ [x])) with xs' in Hh; [done|].
    clear. induction xs' as [|y ys IH]; simpl; [done|]. by f_equal.
  - apply last_None in Hl as ->. simpl in Hlen. rewrite Hlen. simpl.
    exists h, l. split; [done|]. split; [by exists ns|done].
Qed.

Lemma holds_push h l xs element :
  LinkedDeque.holds h l xs ->
  LinkedDeque.holds (LinkedDeque.push element h l).1 (LinkedDeque.push element h l).2
    (xs ++ [element]).
Proof.
  intros (ns & Hr & Hd).
  destruct (insertEnd_repr h l ns element Hr) as (n & Hnone & Hr' & Hdn & Hkeep & _).
  unfold LinkedDeque.push. exists (ns ++ [n]). split; [done|].
  apply Forall2_app; [|by constructor].
  eapply Forall2_impl; [exact Hd|]. intros m x Hx. simpl in *.
  rewrite Hkeep; [done|]. destruct (h !! m); [eauto|done].
Qed.

Lemma holds_unshift h l xs element :
  LinkedDeque.holds h l xs ->
  LinkedDeque.holds (LinkedDeque.unshift element h l).1 (LinkedDeque.unshift element h l).2
    (element :: xs).
Proof.
  intros (ns & Hr & Hd).
  destruct (insertBeginning_repr h l ns element Hr) as (Hnone & Hr' & Hdn & Hkeep).
  unfold LinkedDeque.unshift. eexists. split; [exact Hr'|].
  constructor; [done|].
  eapply Forall2_impl; [exact Hd|]. intros m x Hx. simpl in *.
  rewrite Hkeep; [done|]. destruct (h !! m); [eauto|done].
Qed.

(** X6.  [push] appends the element and [unshift] prepends it: on a deque
    that holds [xs] they give a deque that holds [xs] followed,
    respectively preceded, by the element. *)
Theorem push_appends_unshift_prepends h l xs element :
  LinkedDeque.holds h l xs ->
  LinkedDeque.holds (LinkedDeque.push element h l).1 (LinkedDeque.push element h l).2
    (Deque.push element xs) /\
  LinkedDeque.holds (LinkedDeque.unshift element h l).1 (LinkedDeque.unshift element h l).2
    (Deque.unshift element xs).
Proof.
  intros Hh. split; [by apply holds_push | by apply holds_unshift].
Qed.

(** X7.  The getters of a deque that holds [xs]: [length] is the number
    of elements, [head] the first element and [tail] the last one, both
    [undefined] on the empty deque. *)
Theorem getters_read_the_sequence h l xs :
  LinkedDeque.holds h l xs ->
  LinkedDeque.length l = Deque.length xs /\
  LinkedDeque.head h l = Deque.head xs /\
  LinkedDeque.tail h l = Deque.tail xs.
Proof.
  intros (ns & Hr & Hd).
  pose proof (holds_length _ _ _ _ Hr Hd) as Hlen.
  pose proof Hr as (_ & Hhead & Htail & _).
  unfold LinkedDeque.length, LinkedDeque.head, LinkedDeque.tail, LinkedDeque.length,
    Deque.length, Deque.head, Deque.tail.
  split; [done|].
  destruct (_length l =? 0) eqn:El.
  - assert (xs = []) as -> by (destruct xs; [done|simpl in Hlen; lia]). done.
  - rewrite Hhead, Htail. split.
    + destruct Hd as [|n x ns' xs' Hn Hd']; [done|]. done.
    + destruct (last xs) as [x|] eqn:Hl.
      * apply last_Some in Hl as [xs' ->].
        apply Forall2_app_inv_r in Hd as (ns' & k & Hd' & Hk & ->).
        apply Forall2_cons_inv_r in Hk as (n & k' & Hn & Hk' & ->).
        apply Forall2_nil_inv_r in Hk' as ->.
        by rewrite last_snoc.
      * apply last_None in Hl as ->. simpl in Hlen. lia.
Qed.

End LinkedDequeFacts.

(** ** Iterating over a deque *)

Section DequeIteration.
Context {T : Type}.
Import DoublyLinkedList DoublyLinkedListIterator.
Implicit Types (h : gmap nat (INode T)) (l : DoublyLinkedList.t) (ns : list nat)
  (xs : list T).

(** A node that is linked in the list is never taken as detached. *)
Lemma linked_not_detached h l ns i c r s d :
  dll_repr h l ns -> ns !! i = Some c ->
  _isCursorDetached h l (mk r s (Some c) d) = false.
Proof.
  intros Hr Hi. destruct (repr_node _ _ _ _ _ Hr Hi) as (nd & Hn & Hp & Hx).
  pose proof Hr as (_ & Hhead & _ & Hlen & _).
  pose proof (lookup_lt_Some _ _ _ Hi).
  unfold _isCursorDetached. simpl.
  destruct (_length l =? 0) eqn:El; [lia|].
  unfold getPrev. rewrite Hn. simpl. rewrite Hp.
  destruct i as [|j].
  - rewrite Hhead, head_lookup, Hi.
    rewrite (bool_decide_eq_false_2 (Some c <> Some c)) by (intros Hc; by apply Hc).
    by rewrite andb_false_r.
  - destruct (lookup_lt_is_Some_2 ns j ltac:(lia)) as [x ->].
    by rewrite bool_decide_eq_false_2 by done.
Qed.

(** A reverse cursor on a linked node moves to the node before it, and
    is done when there is none. *)
Lemma next_reverse_at_linked_node h l ns i c (it : DoublyLinkedListIterator.t) :
  dll_repr h l ns -> ns !! i = Some c ->
  reverse it = true -> _started it = true -> _done it = false -> _cursor it = Some c ->
  next h l it =
    match i with
    | S j => match ns !! j with
             | Some x => (IterValue x, mk true true (Some x) false)
             | None => (IterDone, mk true true None true)
             end
    | O => (IterDone, mk true true None true)
    end.
Proof.
  intros Hr Hi Hrev Hst Hdn Hc.
  destruct (repr_node _ _ _ _ _ Hr Hi) as (nd & Hn & Hp & Hx).
  unfold next, _advanceCursor. rewrite Hdn, Hst, Hc, Hrev. simpl.
  unfold getPrev. rewrite Hn. simpl. rewrite Hp.
  destruct i as [|j]; [done|].
  destruct (ns !! j) as [x|] eqn:Ex; [|done].
  by rewrite (linked_not_detached h l ns j x _ _ _ Hr Ex).
Qed.

(** An iterator that has not started yields the head, or the tail when
    it runs in reverse. *)
Lemma next_first h l ns (it : DoublyLinkedListIterator.t) :
  dll_repr h l ns -> _started it = false -> _done it = false ->
  next h l it =
    match (if reverse it then last ns else head ns) with
    | Some x => (IterValue x, mk (reverse it) true (Some x) false)
    | None => (IterDone, mk (reverse it) true None true)
    end.
Proof.
  intros Hr Hst Hdn. pose proof Hr as (_ & Hhead & Htail & _).
  unfold next, _advanceCursor. rewrite Hdn, Hst. simpl.
  rewrite Hhead, Htail.
  destruct (if reverse it then last ns else head ns) as [x|] eqn:Ex; [|done].
  assert (exists i, ns !! i = Some x) as [i Hi].
  { destruct (reverse it).
    - rewrite last_lookup in Ex. eauto.
    - rewrite head_lookup in Ex. eauto. }
  by rewrite (linked_not_detached h l ns i x _ _ _ Hr Hi).
Qed.

Lemma values_forward_from h l ns xs fuel i c :
  dll_repr h l ns ->
  Forall2 (fun n x => data <$> h !! n = Some x) ns xs ->
  ns !! i = Some c -> (length ns - S i < fuel)%nat ->
  LinkedDeque.values fuel h l (mk false true (Some c) false) = Some <$> drop (S i) xs.
Proof.
  intros Hr Hd. revert i c. induction fuel as [|k IH]; intros i c Hi Hf; [lia|].
  simpl. unfold LinkedDeque.iteratorNext.
  rewrite (next_at_linked_node h l ns i c _ Hr Hi) by done.
  destruct (ns !! S i) as [x|] eqn:Ex.
  - destruct (Forall2_lookup_l _ _ _ _ _ Hd Ex) as (v & Hv & Hxv). simpl in Hxv.
    pose proof (lookup_lt_Some _ _ _ Ex).
    rewrite Hxv. rewrite (IH (S i) x Ex) by lia.
    rewrite (drop_S _ _ _ Hv). done.
  - apply lookup_ge_None in Ex. rewrite drop_ge; [done|].
    rewrite <- (Forall2_length _ _ _ Hd). lia.
Qed.

Lemma values_reverse_from h l ns xs fuel i c :
  dll_repr h l ns ->
  Forall2 (fun n x => data <$> h !! n = Some x) ns xs ->
  ns !! i = Some c -> (i < fuel)%nat ->
  LinkedDeque.values fuel h l (mk true true (Some c) false) = Some <$> rev (take i xs).
Proof.
  intros Hr Hd. revert i c. induction fuel as [|k IH]; intros i c Hi Hf; [lia|].
  simpl. unfold LinkedDeque.iteratorNext.
  rewrite (next_reverse_at_linked_node h l ns i c _ Hr Hi) by done.
  destruct i as [|j]; [done|].
  destruct (lookup_lt_is_Some_2 ns j) as [x Ex].
  { pose proof (lookup_lt_Some _ _ _ Hi). lia. }
  rewrite Ex.
  destruct (Forall2_lookup_l _ _ _ _ _ Hd Ex) as (v & Hv & Hxv). simpl in Hxv.
  rewrite Hxv. rewrite (IH j x Ex) by lia.
  rewrite (take_S_r _ _ _ Hv). rewrite rev_unit. done.
Qed.

(** X8.  Run to the end, a new iterator of a deque that holds [xs]
    yields the elements of [xs] from the first to the last, and a new
    reverse iterator yields them from the last to the first. *)
Theorem iterators_yield_the_sequence h l xs fuel :
  LinkedDeque.holds h l xs -> (length xs < fuel)%nat ->
  LinkedDeque.values fuel h l (new false) = Some <$> xs /\
  LinkedDeque.values fuel h l (new true) = Some <$> rev xs.
Proof.
  intros (ns & Hr & Hd) Hf.
  pose proof (Forall2_length _ _ _ Hd) as Hlen.
  destruct fuel as [|k]; [lia|]. split.
  - simpl. unfold LinkedDeque.iteratorNext.
    rewrite (next_first h l ns _ Hr) by done. simpl.
    destruct Hd as [|n x ns' xs' Hn Hd']; [done|]. simpl.
    rewrite Hn.
    rewrite (values_forward_from h l (n :: ns') (x :: xs') k 0 n Hr); [done| |done|].
    + by constructor.
    + simpl in *. lia.
  - simpl. unfold LinkedDeque.iteratorNext.
    rewrite (next_first h l ns _ Hr) by done. simpl.
    destruct (last ns) as [n|] eqn:Hl.
    + rewrite last_lookup in Hl.
      destruct (Forall2_lookup_l _ _ _ _ _ Hd Hl) as (v & Hv & Hxv). simpl in Hxv.
      rewrite Hxv. pose proof (lookup_lt_Some _ _ _ Hl).
      rewrite (values_reverse_from h l ns xs k _ n Hr Hd Hl) by lia.
      rewrite Hlen in Hv.
      assert (xs = take (Init.Nat.pred (length xs)) xs ++ [v]) as Hxs.
      { rewrite <- (take_S_r _ _ _ Hv).
        pose proof (lookup_lt_Some _ _ _ Hv).
        by rewrite take_ge by lia. }
      rewrite Hxs at 2. rewrite rev_unit. by rewrite Hlen.
    + apply last_None in Hl. subst ns. apply Forall2_nil_inv_l in Hd as ->. done.
Qed.

(** X9.  [remove] of an iterator whose cursor stands on a linked node
    unlinks that node and no other; called a second time it does
    nothing, and it does nothing either before the first [next] or once
    the iterator is done. *)
Theorem iterator_remove_unlinks_once h l ns i c (it : DoublyLinkedListIterator.t) :
  dll_repr h l ns -> ns !! i = Some c -> _cursor it = Some c ->
  let r := remove h l it in
  (_started it = true -> _done it = false ->
     dll_repr r.1 r.2 (delete i ns) /\ remove r.1 r.2 it = r) /\
  (_started it = false \/ _done it = true -> r = (h, l)).
Proof.
  intros Hr Hi Hc r. subst r. split.
  - intros Hst Hdn.
    assert (remove h l it = DoublyLinkedList.remove c h l) as ->.
    { unfold remove. rewrite Hc, Hst, Hdn. simpl.
      destruct it as [rv st cur dn]. simpl in *. subst.
      by rewrite (linked_not_detached h l ns i c _ _ _ Hr Hi). }
    split; [by apply remove_repr|].
    destruct (repr_node _ _ _ _ _ Hr Hi) as (nd & Hn & _).
    destruct (remove_detaches h l c nd Hn) as [d Hd].
    assert (_isCursorDetached (DoublyLinkedList.remove c h l).1
              (DoublyLinkedList.remove c h l).2 it = true) as Hdet.
    { unfold _isCursorDetached. rewrite Hc.
      destruct (_length (DoublyLinkedList.remove c h l).2 =? 0); [done|].
      unfold getPrev, getNext. rewrite Hd. simpl.
      pose proof (remove_repr h l ns i c Hr Hi) as (Hnd' & Hhead' & Htail' & _).
      pose proof Hr as (Hnd & _).
      assert (c ∉ delete i ns) as Hnot.
      { intros Hin. apply list_elem_of_lookup in Hin as [j Hj].
        destruct (decide (j < i)%nat).
        - rewrite list_lookup_delete_lt in Hj by lia.
          pose proof (NoDup_lookup _ _ _ _ Hnd Hi Hj). lia.
        - rewrite list_lookup_delete_ge in Hj by lia.
          pose proof (NoDup_lookup _ _ _ _ Hnd Hi Hj). lia. }
      rewrite Hhead', Htail'.
      rewrite !bool_decide_eq_true_2; [done| |].
      - rewrite head_lookup. intros Hx. apply Hnot. by eapply list_elem_of_lookup_2.
      - rewrite last_lookup. intros Hx. apply Hnot. by eapply list_elem_of_lookup_2. }
    unfold remove. rewrite Hc, Hst, Hdn, Hdet. simpl.
    by destruct (DoublyLinkedList.remove c h l).
  - unfold remove. rewrite Hc. intros [Hst|Hdn].
    + by rewrite Hst.
    + rewrite Hdn. by rewrite orb_true_r.
Qed.

End DequeIteration.

(** ** The queue of a priority slot on the linked list *)

Section LinkedQueueFacts.
Context {T : Type} `{EqDecision T}.
Import DoublyLinkedList.
Implicit Types (h : gmap nat (INode T)) (l : DoublyLinkedList.t) (ns : list nat)
  (xs : list T).

Lemma remove_absent (x : T) xs : x ∉ xs -> removeFirst x xs = xs.
Proof.
  induction xs as [|y ys IH]; simpl; [done|]. intros Hx.
  apply not_elem_of_cons in Hx as [Hne Hx].
  rewrite decide_False by done. by rewrite IH.
Qed.

Lemma remove_first_at (x : T) xs i :
  x ∉ take i xs -> xs !! i = Some x -> removeFirst x xs = delete i xs.
Proof.
  revert i. induction xs as [|y ys IH]; intros i Hx Hi; [done|].
  destruct i as [|i]; simpl in *.
  - simplify_eq. by rewrite decide_True.
  - apply not_elem_of_cons in Hx as [Hne Hx].
    rewrite decide_False by done. by rewrite (IH i).
Qed.

Lemma removeItemFrom_holds h l ns xs fuel i resourceRequest :
  dll_repr h l ns ->
  Forall2 (fun n x => data <$> h !! n = Some x) ns xs ->
  resourceRequest ∉ take i xs ->
  (length ns - i < fuel)%nat ->
  exists h' l',
    LinkedDeque.removeItemFrom fuel resourceRequest (ns !! i) h l = Some (h', l') /\
    LinkedDeque.holds h' l' (Queue.removeItem resourceRequest xs).
Proof.
  intros Hr Hd. revert i. induction fuel as [|k IH]; intros i Hx Hf; [lia|].
  simpl. unfold Queue.removeItem.
  destruct (ns !! i) as [c|] eqn:Hi.
  - destruct (Forall2_lookup_l _ _ _ _ _ Hd Hi) as (x & Hxi & Hcx). simpl in Hcx.
    rewrite Hcx. case_decide as Heq.
    + simplify_eq. rewrite (remove_first_at _ _ i Hx Hxi).
      destruct (holds_remove h l ns xs i c Hr Hd Hi) as [Hh _].
      destruct (remove c h l) as [h' l']. eauto.
    + destruct (repr_node _ _ _ _ _ Hr Hi) as (nd & Hn & _ & Hnx).
      assert (getNext h c = ns !! S i) as -> by (unfold getNext; rewrite Hn; done).
      pose proof (lookup_lt_Some _ _ _ Hi).
      apply (IH (S i)); [|lia].
      rewrite (take_S_r _ _ _ Hxi). intros Hin.
      apply elem_of_app in Hin as [Hin|Hin]; [done|].
      apply list_elem_of_singleton in Hin. congruence.
  - apply lookup_ge_None in Hi.
    rewrite take_ge in Hx by (rewrite <- (Forall2_length _ _ _ Hd); lia).
    rewrite (remove_absent _ _ Hx). exists h, l. split; [done|]. by exists ns.
Qed.

(** X11.  The rejection handler [removeItem] of [Queue.push] ends on a
    well linked slot: it unlinks the first node that holds the request,
    and only that one, and changes nothing when no node holds it. *)
Theorem removeItem_unlinks_first_occurrence h l xs fuel resourceRequest :
  LinkedDeque.holds h l xs -> (length xs < fuel)%nat ->
  exists h' l',
    LinkedDeque.removeItem fuel resourceRequest h l = Some (h', l') /\
    LinkedDeque.holds h' l' (Queue.removeItem resourceRequest xs) /\
    (resourceRequest ∉ xs -> h' = h /\ l' = l).
Proof.
  intros (ns & Hr & Hd) Hf. unfold LinkedDeque.removeItem.
  pose proof Hr as (_ & Hhead & _). rewrite Hhead, head_lookup.
  destruct (removeItemFrom_holds h l ns xs fuel 0 resourceRequest Hr Hd)
    as (h' & l' & Hrm & Hh).
  { simpl. apply not_elem_of_nil. }
  { rewrite (Forall2_length _ _ _ Hd). lia. }
  exists h', l'. split; [done|]. split; [done|].
  intros Hnot. clear Hh.
  assert (forall k i, resourceRequest ∉ xs ->
            LinkedDeque.removeItemFrom k resourceRequest (ns !! i) h l = Some (h', l') ->
            h' = h /\ l' = l) as Hsame.
  { clear Hrm. induction k as [|k IH]; intros i Hx Hk; [done|]. simpl in Hk.
    destruct (ns !! i) as [c|] eqn:Hi; [|by simplify_eq].
    destruct (Forall2_lookup_l _ _ _ _ _ Hd Hi) as (x & Hxi & Hcx). simpl in Hcx.
    rewrite Hcx in Hk. case_decide as Heq.
    - simplify_eq. exfalso. apply Hx. by eapply list_elem_of_lookup_2.
    - destruct (repr_node _ _ _ _ _ Hr Hi) as (nd & Hn & _ & Hnx).
      assert (getNext h c = ns !! S i) as Hg by (unfold getNext; rewrite Hn; done).
      rewrite Hg in Hk. by apply (IH (S i)). }
  by apply (Hsame fuel 0%nat).
Qed.

End LinkedQueueFacts.

(** ** The life of a pooled resource *)

Section PooledResourceLife.
Import PooledResource.

(** X12.  Whatever lifecycle operations a pooled resource receives after
    its construction, it keeps its handle and its creation time; when
    its state is IDLE it has an idle time, and when its state is
    ALLOCATED it has a borrow time and no idle time. *)
Theorem lifecycle_keeps_handle_and_times resource now ops :
  let p := run ops (new resource now) in
  obj p = resource /\ creationTime p = now /\
  (state p = IDLE -> lastIdleTime p <> None) /\
  (state p = ALLOCATED -> lastBorrowTime p <> None /\ lastIdleTime p = None).
Proof.
  cbv zeta.
  assert (forall p,
            obj p = resource /\ creationTime p = now /\
            (state p = IDLE -> lastIdleTime p <> None) /\
            (state p = ALLOCATED -> lastBorrowTime p <> None /\ lastIdleTime p = None) ->
            obj (run ops p) = resource /\ creationTime (run ops p) = now /\
            (state (run ops p) = IDLE -> lastIdleTime (run ops p) <> None) /\
            (state (run ops p) = ALLOCATED ->
               lastBorrowTime (run ops p) <> None /\ lastIdleTime (run ops p) = None)) as H.
  { induction ops as [|o ops IH]; intros p Hp; [done|]. simpl. apply IH.
    destruct Hp as (Ho & Hc & Hi & Ha).
    destruct o; simpl; repeat split; try done. }
  apply H. simpl. repeat split; done.
Qed.

End PooledResourceLife.

(** ** The life of a resource request *)

Section ResourceRequestLife.
Import ResourceRequest.














End ResourceRequestLife.

(** ** The priority queue as one sequence *)

Section PriorityQueueSequence.
Context {T : Type} `{EqDecision T}.
Import PriorityQueue.

Lemma length_fold (slots : list (list T)) (a : Z) :
  fold_left (fun totalLength slot => totalLength + Deque.length slot) slots a
  = a + Z.of_nat (List.length (concat slots)).
Proof.
  revert a. induction slots as [|slot rest IH]; intros a; simpl; [lia|].
  rewrite IH, length_app. unfold Deque.length. lia.
Qed.

Lemma length_concat (pq : PriorityQueue.t T) :
  PriorityQueue.length pq = Z.of_nat (List.length (concat (_slots pq))).
Proof. unfold PriorityQueue.length. by rewrite length_fold. Qed.

Lemma slot_nonempty (slot : list T) :
  (0 <? Deque.length slot) = match slot with [] => false | _ :: _ => true end.
Proof. by destruct slot. Qed.

Lemma head_slots_concat (slots : list (list T)) :
  head_slots slots = List.head (concat slots).
Proof.
  induction slots as [|slot rest IH]; simpl; [done|].
  rewrite slot_nonempty. by destruct slot.
Qed.

Lemma tail_slots_concat (slots : list (list T)) :
  tail_slots (rev slots) = last (concat slots).
Proof.
  induction slots as [|slot rest IH] using rev_ind; simpl; [done|].
  rewrite rev_unit, concat_app. simpl. rewrite app_nil_r.
  rewrite slot_nonempty. destruct slot as [|x slot'].
  - by rewrite app_nil_r.
  - unfold Deque.tail. rewrite last_app.
    destruct (last (x :: slot')) eqn:E; [done|]. by apply last_None in E.
Qed.

Lemma dequeue_slots_concat (slots : list (list T)) :
  (dequeue_slots slots).1 = List.head (concat slots) /\
  concat (dequeue_slots slots).2 = drop 1 (concat slots).
Proof.
  induction slots as [|slot rest IH]; simpl; [done|].
  rewrite slot_nonempty. destruct slot as [|x slot']; simpl.
  - destruct (dequeue_slots rest) as [y rest']. simpl in *. done.
  - done.
Qed.

(** X14.  A priority queue is one sequence, the slots one after the
    other: [length] is its length, [head] its first element and [tail]
    its last; [dequeue] returns the first element, [undefined] when
    there is none, and leaves the rest; it keeps the number of slots. *)
Theorem queue_is_the_sequence_of_its_slots (pq : PriorityQueue.t T) :
  let items := concat (_slots pq) in
  PriorityQueue.length pq = Z.of_nat (List.length items) /\
  PriorityQueue.head pq = List.head items /\
  PriorityQueue.tail pq = last items /\
  (dequeue pq).1 = List.head items /\
  concat (_slots (dequeue pq).2) = drop 1 items /\
  _size (dequeue pq).2 = _size pq /\
  List.length (_slots (dequeue pq).2) = List.length (_slots pq).
Proof.
  cbv zeta. split; [apply length_concat|].
  split; [apply head_slots_concat|]. split; [apply tail_slots_concat|].
  unfold dequeue. pose proof (dequeue_slots_concat (_slots pq)) as [H1 H2].
  pose proof (dequeue_slots_length (_slots pq)) as H3.
  destruct (dequeue_slots (_slots pq)) as [x slots']. simpl in *. done.
Qed.

(** X16.  The constructor clamps the number of slots: it is the 32-bit
    integer conversion of the size, and 1 when that is below 1; every
    slot is empty, so the queue has length 0 and [dequeue] returns
    [undefined]. *)
Theorem new_queue_is_empty (size : Z) :
  let pq := PriorityQueue.new (T := T) size in
  _size pq = Z.max (Js.ToInt32 size) 1 /\
  Z.of_nat (List.length (_slots pq)) = _size pq /\
  PriorityQueue.length pq = 0 /\
  (dequeue pq).1 = None /\ PriorityQueue.head pq = None /\ PriorityQueue.tail pq = None.
Proof.
  cbv zeta. unfold PriorityQueue.new. cbn [_size _slots].
  rewrite bitor_zero. split; [done|].
  split; [rewrite length_replicate; lia|].
  assert (forall n, concat (replicate n ([] : list T)) = []) as Hc.
  { induction n as [|n IH]; simpl; done. }
  rewrite length_concat. cbn [_slots]. rewrite Hc. split; [done|].
  unfold dequeue, PriorityQueue.head, PriorityQueue.tail. cbn [_slots _size].
  pose proof (dequeue_slots_concat (replicate (Z.to_nat (Z.max (Js.ToInt32 size) 1)) ([] : list T)))
    as [H1 _].
  destruct (dequeue_slots _) as [x slots']. simpl in *.
  rewrite H1, head_slots_concat, tail_slots_concat, Hc. done.
Qed.

End PriorityQueueSequence.

(** ** The options of a pool *)

(** X17.  The constructor of the options passes the bounds through
    [Math.max] and [Math.min]: [max] is [Math.max(given, 1)], and 1 when
    none is given; [min] is [Math.min(Math.max(given, 0), max)], and 0
    when none is given.  Hence, when they are numbers, [1 <= max] and
    [0 <= min <= max]; when NaN is passed it stays: [max] is NaN exactly
    when NaN is passed for it, and [min] is NaN exactly when a minimum is
    passed and it or the maximum is NaN.  A fraction stays a fraction. *)
Theorem options_bounds_are_normalised (opts : PoolOptions.IPoolOptionsParams) :
  let c := PoolOptions.new opts in
  PoolOptions.max c = match PoolOptions.opt_max opts with
                      | Some m => Js.Math_max m (Js.ofZ 1)
                      | None => Js.ofZ 1
                      end /\
  PoolOptions.min c = match PoolOptions.opt_min opts with
                      | Some m => Js.Math_min (Js.Math_max m (Js.ofZ 0)) (PoolOptions.max c)
                      | None => Js.ofZ 0
                      end /\
  (forall x, PoolOptions.max c = Js.Num x -> (1 <= x)%Q) /\
  (forall x y, PoolOptions.max c = Js.Num x -> PoolOptions.min c = Js.Num y ->
     (0 <= y)%Q /\ (y <= x)%Q) /\
  (PoolOptions.max c = Js.NaN <-> PoolOptions.opt_max opts = Some Js.NaN) /\
  (PoolOptions.min c = Js.NaN <->
   exists m, PoolOptions.opt_min opts = Some m /\
             (m = Js.NaN \/ PoolOptions.opt_max opts = Some Js.NaN)) /\
  PoolOptions.new (PoolOptions.mkParams None None None None None None None None
                     (Some (Js.Num (22 # 10))) (Some (Js.Num (25 # 10))) None None None None)
    = PoolOptions.mk true 1 false false true None None None
        (Js.Num (22 # 10)) (Js.Num (25 # 10)) 0 3 (-1) 30000.
Proof.
  cbv zeta.
  split; [apply new_max|]. split; [apply new_min|].
  split; [apply new_max_ge_1|]. split; [apply new_min_range|].
  split; [|split; [|done]].
  - rewrite new_max. destruct (PoolOptions.opt_max opts) as [[|m]|]; simpl; split; done.
  - rewrite new_min, new_max.
    destruct (PoolOptions.opt_min opts) as [[|m]|], (PoolOptions.opt_max opts) as [[|m']|];
      simpl; split; try done; eauto;
      try (intros (? & [= <-] & [?|?]); done); intros (? & ? & ?); done.
Qed.

(** ** The evictor *)

Section EvictorFacts.
Import DefaultEvictor.

(** X18.  The evictor never selects a resource that has no idle time,
    nor one whose idle time does not exceed a positive threshold; the
    soft threshold counts only while more than [min] resources are
    available ([min < count] as JavaScript compares numbers: never when
    [min] is NaN, and the comparison of the integers when [min] is one);
    and a resource that is selected stays selected as time passes. *)
Theorem evict_selects_by_idle_time now config pooledResource availableObjectsCount :
  (PooledResource.lastIdleTime pooledResource = None ->
     evict now config pooledResource availableObjectsCount = false) /\
  (forall lastIdle, PooledResource.lastIdleTime pooledResource = Some lastIdle ->
     (evict now config pooledResource availableObjectsCount = true <->
        (0 < softIdleTimeoutMillis config < now - lastIdle
         /\ Js.ltb (min config) (Js.ofZ availableObjectsCount) = true)
        \/ 0 < idleTimeoutMillis config < now - lastIdle)) /\
  (forall m, min config = Js.ofZ m ->
     (Js.ltb (min config) (Js.ofZ availableObjectsCount) = true
      <-> m < availableObjectsCount)) /\
  (forall later, now <= later ->
     evict now config pooledResource availableObjectsCount = true ->
     evict later config pooledResource availableObjectsCount = true).
Proof.
  assert (forall m, min config = Js.ofZ m ->
            (Js.ltb (min config) (Js.ofZ availableObjectsCount) = true
             <-> m < availableObjectsCount)) as Hint.
  { intros m ->. rewrite ltb_ofZ. apply Z.ltb_lt. }
  unfold evict. destruct (PooledResource.lastIdleTime pooledResource) as [t|].
  - split; [done|]. split; [|split; [done|]].
    + intros ? [= <-]. cbv zeta.
      destruct (Js.ltb _ _);
      repeat match goal with |- context [?a <? ?b] => destruct (Z.ltb_spec a b) end;
        simpl; split; try done; try lia; try (intros; exfalso; lia);
        try (intros [[_ ?]|?]; [done|lia]); eauto.
    + intros later Hl. cbv zeta.
      destruct (Js.ltb _ _);
      repeat match goal with |- context [?a <? ?b] => destruct (Z.ltb_spec a b) end;
        simpl; try done; try lia.
  - split; [done|]. split; [done|]. done.
Qed.

End EvictorFacts.

(** ** The event emitter *)

Section EmitterFacts.
Import SimpleEventEmitter.

Lemma emit_on_same eventName listener em :
  emit eventName (on eventName listener em) = emit eventName em ++ [listener].
Proof.
  unfold emit, on. simpl.
  destruct (_events em !! eventName) as [ls|] eqn:E.
  - rewrite lookup_alter_eq, E. done.
  - rewrite lookup_alter_eq, lookup_insert_eq. done.
Qed.

Lemma emit_on_other eventName other listener em :
  other <> eventName ->
  emit other (on eventName listener em) = emit other em.
Proof.
  intros Hne. unfold emit, on. simpl.
  rewrite lookup_alter_ne by done.
  destruct (_events em !! eventName) as [ls|] eqn:E; [done|].
  by rewrite lookup_insert_ne by done.
Qed.

Lemma emit_off_same eventName listener em :
  emit eventName (off eventName listener em) =
    match indexOf listener (emit eventName em) with
    | Some index => delete index (emit eventName em)
    | None => emit eventName em
    end.
Proof.
  unfold emit at 2 3 4. unfold off.
  destruct (_events em !! eventName) as [ls|] eqn:E.
  - destruct (indexOf listener ls) as [i|] eqn:Ei.
    + destruct (Z.eqb_spec (Z.of_nat (length (delete i ls))) 0) as [H0|H0].
      * unfold emit. simpl. rewrite lookup_delete_eq.
        destruct (delete i ls); [done|simpl in H0; lia].
      * unfold emit. simpl. by rewrite lookup_insert_eq.
    + unfold emit. by rewrite E.
  - unfold emit. by rewrite E.
Qed.

Lemma emit_off_other eventName other listener em :
  other <> eventName ->
  emit other (off eventName listener em) = emit other em.
Proof.
  intros Hne. unfold off.
  destruct (_events em !! eventName) as [ls|] eqn:E; [|done].
  destruct (indexOf listener ls) as [i|] eqn:Ei; [|done].
  destruct (Z.of_nat (length (delete i ls)) =? 0); unfold emit; simpl.
  - by rewrite lookup_delete_ne by done.
  - by rewrite lookup_insert_ne by done.
Qed.

(** X19.  [on] registers the listener last for its event and touches no
    other event; [off] removes the earliest registration of the listener
    for the event, and nothing when there is none.  So [off] after [on]
    gives back the listeners of every event when the listener was not
    registered before, and otherwise moves it to the end. *)
Theorem on_appends_off_removes_first eventName listener em other :
  emit eventName (on eventName listener em) = emit eventName em ++ [listener] /\
  emit eventName (off eventName listener em) =
    match indexOf listener (emit eventName em) with
    | Some index => delete index (emit eventName em)
    | None => emit eventName em
    end /\
  emit eventName (off eventName listener (on eventName listener em)) =
    match indexOf listener (emit eventName em) with
    | Some index => delete index (emit eventName em) ++ [listener]
    | None => emit eventName em
    end /\
  (other <> eventName ->
     emit other (on eventName listener em) = emit other em /\
     emit other (off eventName listener em) = emit other em).
Proof.
  split; [apply emit_on_same|]. split; [apply emit_off_same|]. split.
  - rewrite emit_off_same, emit_on_same.
    generalize (emit eventName em). intros ls.
    induction ls as [|x rest IH]; simpl.
    + by rewrite decide_True.
    + case_decide as Hx; [done|].
      destruct (indexOf listener rest) as [i|] eqn:Ei; simpl in *.
      * destruct (indexOf listener (rest ++ [listener])) as [j|]; simpl in *;
          by f_equal.
      * destruct (indexOf listener (rest ++ [listener])) as [j|]; simpl in *;
          by f_equal.
  - intros Hne. split; [by apply emit_on_other | by apply emit_off_other].
Qed.

End EmitterFacts.

(** ** The pool: every resource is in one place *)

Section PoolBuckets.
Import Pool.

(** The resources under validation: those a pending [BorrowValidation]
    or [ReturnValidation] reaction will receive. *)
Definition borrowValidated (rs : list Reaction) : list nat :=
  omap (fun r => match r with BorrowValidation _ pr => Some pr | _ => None end) rs.

Definition returnValidated (rs : list Reaction) : list nat :=
  omap (fun r => match r with ReturnValidation _ pr => Some pr | _ => None end) rs.

Definition validating (p : Pool.t) : list nat :=
  borrowValidated (reactions p) ++ returnValidated (reactions p).

(** No reaction of a quiet pool is a validation. *)
Lemma harmless_not_validated rs :
  Forall (fun r => harmless r = true) rs ->
  borrowValidated rs = [] /\ returnValidated rs = [].
Proof.
  induction 1 as [|r rs Hr _ [IH1 IH2]]; [done|].
  unfold borrowValidated, returnValidated in *. cbn [omap list_omap].
  rewrite IH1, IH2. by destruct r.
Qed.

Lemma quiet_validating p : quiet p -> validating p = [].
Proof.
  intros (_ & _ & _ & Hr). unfold validating.
  by destruct (harmless_not_validated _ Hr) as [-> ->].
Qed.







End PoolBuckets.

(** ** The pool: draining *)

Section PoolDraining.
Import Pool.

Lemma drain_effects p : _draining (drain p) = true /\ _scheduledEviction (drain p) = None.
Proof.
  unfold drain, _descheduleEvictorRun. cbn [_scheduledEviction set_draining].
  by destruct (_scheduledEviction p).
Qed.

Lemma acquire_draining now priority p :
  _draining p = true -> acquire now priority p = (AcquireRejected DrainingError, p).
Proof.
  intros Hd. unfold acquire.
  assert (start p = p) as -> by (unfold start; by rewrite Hd).
  destruct (_ && _); unfold acquireStarted; by rewrite Hd.
Qed.

(** A draining pool stays draining, and without a timer of the evictor. *)
Definition drained_for_good (p : Pool.t) : Prop :=
  _draining p = true -> _scheduledEviction p = None.

Lemma calm_draining p q :
  calm_move p q -> _draining p = true -> _draining q = true.
Proof.
  intros Hm Hd. destruct Hm as [q Hh| | |now op resource Hph|op e Hph|op|Hs].
  - destruct Hh as (_ & -> & _). done.
  - destruct (start_frame p) as (_ & -> & _). done.
  - apply drain_effects.
  - unfold onCreateFulfilled. cbn [_draining set_factoryCreateOperations].
    match goal with |- context [_addPooledResourceToAvailableObjects now ?pr ?q] =>
      by destruct (addPooled_frame now pr q) as (_ & -> & _) end.
  - done.
  - unfold onCreateUntracked. by destruct (phaseOf op _) as [[| |e]|].
  - by destruct (scheduleEvictorRun_frame p) as (_ & -> & _).
Qed.

Lemma rtc_calm_draining p q :
  rtc calm_move p q -> _draining p = true -> _draining q = true.
Proof. induction 1; [done|]. intros Hd. eauto using calm_draining. Qed.

Lemma calm_drained_for_good p q :
  drained_for_good p -> calm_move p q -> drained_for_good q.
Proof.
  unfold drained_for_good.
  intros Hp Hm. destruct Hm as [q Hh| | |now op resource Hph|op e Hph|op|Hs].
  - destruct Hh as (_ & -> & _ & _ & _ & _ & _ & _ & -> & _). done.
  - destruct (_draining p) eqn:Hd.
    + unfold start. rewrite Hd. cbn [orb]. by rewrite Hd.
    + destruct (start_frame p) as (_ & -> & _). by rewrite Hd.
  - intros _. apply drain_effects.
  - unfold onCreateFulfilled.
    cbn [_draining _scheduledEviction set_factoryCreateOperations].
    match goal with |- context [_addPooledResourceToAvailableObjects now ?pr ?q] =>
      by destruct (addPooled_frame now pr q) as (_ & -> & _ & _ & _ & _ & _ & -> & _) end.
  - done.
  - unfold onCreateUntracked. by destruct (phaseOf op _) as [[| |e]|].
  - destruct (scheduleEvictorRun_frame p) as (_ & -> & _). intros Hd.
    rewrite (Hp Hd) in Hs. by destruct Hs.
Qed.

Lemma draining_descheduled options p :
  reachable options p -> _draining p = true -> _scheduledEviction p = None.
Proof.
  revert p. apply (reachable_calm_ind options drained_for_good); [done|].
  intros p q _ Hp Hm. by eapply calm_drained_for_good.
Qed.

(** X21.  Draining is permanent.  Once a pool that was built by the
    constructor is draining, every step leaves it draining; it holds no
    timer of the evictor, so the evictor does not run again; and every
    [acquire] is rejected with the draining error and changes nothing. *)
Theorem draining_is_permanent options p now l p' :
  reachable options p -> _draining p = true -> step now l p = Some p' ->
  _draining p' = true /\
  _scheduledEviction p' = None /\
  (forall visited, l <> EvictorTimerFires visited) /\
  (forall now' priority,
     acquire now' priority p' = (AcquireRejected DrainingError, p')) /\
  start p' = p'.
Proof.
  intros Hr Hd Hstep.
  assert (_draining p' = true) as Hd'.
  { eapply rtc_calm_draining; [|exact Hd].
    eapply quiet_step; [|exact Hstep]. by eapply reachable_quiet. }
  split; [done|]. split.
  { apply (draining_descheduled options); [|done]. by eapply reachable_step. }
  split.
  { intros visited ->. simpl in Hstep.
    by rewrite (draining_descheduled options p Hr Hd) in Hstep. }
  split; [intros; by apply acquire_draining|].
  unfold start. by rewrite Hd'.
Qed.

End PoolDraining.

(** ** The pool: further properties *)

Section PoolFurther.
Import Pool.

Lemma borrowed_empty p : _resourceLoans p = ∅ -> borrowed p = 0.
Proof. unfold borrowed. intros ->. by rewrite map_size_empty. Qed.

(** X22.  A resource is released once.  After a [release] that found
    the loan, and when the option [testOnReturn] is set or no request
    waits, the resource is no longer borrowed: a second [release], or a
    [destroy], of the same resource is rejected and changes nothing. *)
Theorem second_release_is_rejected now now' resource p loan :
  _resourceLoans p !! resource = Some loan ->
  PoolOptions.testOnReturn (_config p) = true \/ pending p = 0 ->
  let p' := (release now resource p).2 in
  (release now resource p).1 = CallResolved /\
  isBorrowedResource resource p' = false /\
  release now' resource p' = (CallRejected UnknownResourceError, p') /\
  destroy now' resource p' = (CallRejected UnknownResourceError, p').
Proof.
  intros Hl Hcase p'.
  assert ((release now resource p).1 = CallResolved /\
          _resourceLoans p' !! resource = None) as [Hres Hnone].
  { subst p'. unfold release. rewrite Hl. unfold releaseDeallocated.
    cbn [_config set_pooled set_resourceLoans].
    destruct (PoolOptions.testOnReturn (_config p)) eqn:Et.
    - simpl. split; [done|]. apply lookup_delete_eq.
    - destruct Hcase as [|Hp]; [done|].
      rewrite dispense_nobody.
      + simpl. split; [done|].
        match goal with |- context [_addPooledResourceToAvailableObjects now ?pr ?q] =>
          destruct (addPooled_frame now pr q) as (_ & _ & _ & _ & _ & _ & -> & _) end.
        apply lookup_delete_eq.
      + unfold pending in *.
        match goal with |- context [_addPooledResourceToAvailableObjects now ?pr ?q] =>
          destruct (addPooled_frame now pr q) as (_ & _ & _ & -> & _) end.
        exact Hp. }
  split; [done|].
  split; [unfold isBorrowedResource; rewrite Hnone; apply bool_decide_eq_false_2;
          by intros [? ?]|].
  unfold release, destroy. by rewrite Hnone.
Qed.

(** X30.  A dequeued request is not served.  When the waiting queue
    yields a request, [_dispatchPooledResourceToNextWaitingClient]
    compares its state with [DeferredState.PENDING]; Pool.ts imports
    [DeferredState] from Deferred.ts, which does not export it, so the
    comparison throws a TypeError.  The request has left the queue, the
    pooled resource that [_dispatchResource] shifted out is put back
    nowhere, and no loan is made. *)
Theorem dispatch_throws_when_somebody_waits now pr p r q :
  PriorityQueue.dequeue (_waitingClientsQueue p) = (Some r, q) ->
  let p' := (_dispatchPooledResourceToNextWaitingClient now pr p).2 in
  DeferredState_PENDING = Throw TypeError /\
  (_dispatchPooledResourceToNextWaitingClient now pr p).1 = Throw TypeError /\
  p' = set_waitingClientsQueue q p /\
  _waitingClientsQueue p' = q /\
  _availableObjects p' = _availableObjects p /\
  _resourceLoans p' = _resourceLoans p /\
  pooled p' = pooled p /\
  requests p' = requests p.
Proof.
  intros Hdq. cbv zeta. by rewrite (dispatch_somebody now pr p r q Hdq).
Qed.

(** *** The evictor *)

Definition evictorSelects (now : Z) (p : Pool.t) (resource : nat) : bool :=
  match pooled p !! resource with
  | Some r =>
      bool_decide (resource ∈ _availableObjects p)
      && DefaultEvictor.evict now (evictionConfig p) r (Deque.length (_availableObjects p))
  | None => false
  end.

Lemma evictTest_outcome now resource p :
  _evictTest now resource p
  = (if evictorSelects now p resource then Throw TypeError else Ok tt, p).
Proof.
  unfold _evictTest, evictorSelects. destruct (pooled p !! resource); [|done].
  by destruct (_ && _).
Qed.

Lemma evictTests_outcome now rs p :
  Js.forEachR (_evictTest now) rs p
  = (if existsb (evictorSelects now p) rs then Throw TypeError else Ok tt, p).
Proof.
  induction rs as [|r rs IH]; [done|]. cbn [Js.forEachR existsb].
  rewrite evictTest_outcome. by destruct (evictorSelects now p r).
Qed.

(** X23.  One run of the evictor destroys nothing.  It tests the first
    [min(numTestsPerEvictionRun, available)] resources its cursor
    yields.  When the evictor selects none of them the run ends and the
    pool is as it was; when it selects one, the call
    [this._availableObjects.remove(resource)] throws a TypeError, for
    [Deque] has no such method: the resource stays in the available
    cache, [_destroy] is not reached, the remaining tests are not made,
    and the timer callback, left by the exception, does not schedule the
    next run. *)
Theorem evict_run_destroys_nothing now visited p :
  let tested :=
    take (Z.to_nat (Z.min (PoolOptions.numTestsPerEvictionRun (_config p)) (available p)))
         visited in
  _evict now visited p
  = (if existsb (evictorSelects now p) tested then Throw TypeError else Ok tt, p) /\
  (forall resource r, resource ∈ tested -> pooled p !! resource = Some r ->
     resource ∈ _availableObjects p ->
     DefaultEvictor.evict now (evictionConfig p) r (available p) = true ->
     _evict now visited p = (Throw TypeError, p)) /\
  _availableObjects (_evict now visited p).2 = _availableObjects p /\
  destroyCalls (_evict now visited p).2 = destroyCalls p /\
  onEvictorTimer now visited p
  = (if existsb (evictorSelects now p) tested then p
     else if _started p then _scheduleEvictorRun p else p).
Proof.
  cbv zeta. unfold available.
  assert (_evict now visited p
          = (if existsb (evictorSelects now p)
                  (take (Z.to_nat (Z.min (PoolOptions.numTestsPerEvictionRun (_config p))
                                         (Deque.length (_availableObjects p)))) visited)
             then Throw TypeError else Ok tt, p)) as He
    by (unfold _evict; apply evictTests_outcome).
  split; [done|]. split.
  - intros resource r Hin Hr Ha Hev. rewrite He.
    assert (existsb (evictorSelects now p)
              (take (Z.to_nat (Z.min (PoolOptions.numTestsPerEvictionRun (_config p))
                                     (Deque.length (_availableObjects p)))) visited) = true)
      as ->; [|done].
    apply existsb_exists. exists resource. split; [by apply list_elem_of_In|].
    unfold evictorSelects. rewrite Hr, Hev. by rewrite bool_decide_eq_true_2.
  - unfold onEvictorTimer. rewrite He. by destruct (existsb _ _).
Qed.

(** *** A new pool *)

Lemma rounds_orZero (x : Js.number) :
  Z.of_nat (Js.rounds (Js.orZero x))
  = match x with Js.NaN => 0 | Js.Num q => Z.max 0 (Qceiling q) end.
Proof.
  destruct x as [|q]; [done|]. unfold Js.orZero.
  destruct (Qeq_bool q 0) eqn:E.
  - apply Qeq_bool_iff in E. rewrite (Qceiling_comp _ _ E). done.
  - simpl. lia.
Qed.

(** X24.  A pool fresh from the constructor holds nothing: nothing is
    available, borrowed or waited for, and it is not draining.  Without
    [autostart] it is not started and has begun no creation.  With
    [autostart] it is started and has begun one creation, all pending,
    for each [i = 0, 1, ...] below the normalised minimum: [min] rounded
    up to an integer, none when [min] is NaN.  With [min = 2.2] and
    [max = 2.5] that is three creations. *)
Theorem new_pool_begins_min_creations options :
  let p := Pool.new options in
  let c := PoolOptions.new options in
  _config p = c /\ _draining p = false /\ _started p = PoolOptions.autostart c /\
  available p = 0 /\ borrowed p = 0 /\ pending p = 0 /\
  _allObjects p = ∅ /\
  Forall (fun o => op_phase o = OpPending) (_factoryCreateOperations p) /\
  _count p = (if PoolOptions.autostart c
              then match PoolOptions.min c with
                   | Js.NaN => 0
                   | Js.Num q => Z.max 0 (Qceiling q)
                   end
              else 0) /\
  _count (Pool.new fractionalOptions) = 3.
Proof.
  cbv zeta. rewrite new_unstarted.
  set (p0 := unstarted options).
  split; [|split; [|split; [|split; [|split; [|split; [|split; [|split; [|split]]]]]]]].
  - destruct (PoolOptions.autostart _); [|done]. by destruct (start_frame p0) as (-> & _).
  - destruct (PoolOptions.autostart _); [|done]. by destruct (start_frame p0) as (_ & -> & _).
  - destruct (PoolOptions.autostart _); [|done].
    by destruct (start_effects p0 eq_refl eq_refl) as (_ & -> & _).
  - unfold available. destruct (PoolOptions.autostart _); [|done].
    by destruct (start_frame p0) as (_ & _ & _ & -> & _).
  - apply borrowed_empty. destruct (PoolOptions.autostart _); [|done].
    by destruct (start_frame p0) as (_ & _ & _ & _ & _ & -> & _).
  - unfold pending. destruct (PoolOptions.autostart _).
    + destruct (start_frame p0) as (_ & _ & -> & _). apply new_queue_length.
    + apply new_queue_length.
  - destruct (PoolOptions.autostart _); [|done].
    by destruct (start_effects p0 eq_refl eq_refl) as (_ & _ & _ & _ & -> & _).
  - destruct (PoolOptions.autostart _); [|by constructor].
    destruct (start_effects p0 eq_refl eq_refl) as (_ & _ & _ & _ & _ & ops & -> & Hall & _).
    done.
  - destruct (PoolOptions.autostart _); [|done].
    destruct (start_effects p0 eq_refl eq_refl)
      as (_ & _ & _ & _ & Ha & ops & Hops & _ & Hlen).
    unfold _count. rewrite Ha, Hops.
    change (_allObjects p0) with (∅ : gset nat).
    change (_factoryCreateOperations p0) with ([] : list CreateOp).
    rewrite size_empty. cbn [app]. rewrite Hlen.
    assert (_count p0 = 0) as -> by reflexivity.
    assert (Pool.min p0 = Js.orZero (PoolOptions.min (PoolOptions.new options))) as -> by done.
    rewrite <- rounds_orZero.
    destruct (orZero_num (PoolOptions.min (PoolOptions.new options))) as (q & -> & _).
    rewrite rounds_sub. simpl. lia.
  - vm_compute. reflexivity.
Qed.

End PoolFurther.

(** ** The pool: the waiting queue *)

Section PoolQueue.
Import Pool.

(** X27.  In every state a pool reaches, the waiting queue has the
    slots its constructor made, [max(priorityRange | 0, 1)] of them, and
    whatever priority is passed, the index [enqueue] computes names one
    of them: the slot it pushes onto is never [undefined]. *)
Theorem waiting_queue_keeps_its_slots options p priority :
  reachable options p ->
  PriorityQueue._size (_waitingClientsQueue p)
    = Z.max (Js.ToInt32 (PoolOptions.priorityRange (PoolOptions.new options))) 1 /\
  Z.of_nat (length (PriorityQueue._slots (_waitingClientsQueue p)))
    = PriorityQueue._size (_waitingClientsQueue p) /\
  0 <= PriorityQueue.resolvedPriority (_waitingClientsQueue p) priority
    < PriorityQueue._size (_waitingClientsQueue p) /\
  is_Some (PriorityQueue._slots (_waitingClientsQueue p)
             !! Z.to_nat (PriorityQueue.resolvedPriority (_waitingClientsQueue p) priority)).
Proof.
  intros Hr. destruct (reachable_quiet options p Hr) as (Hq & _).
  rewrite (reachable_config options p Hr) in Hq. rewrite Hq.
  pose proof (new_wf (T := nat) (PoolOptions.priorityRange (PoolOptions.new options))) as Hwf.
  pose proof (resolvedPriority_range _ priority Hwf) as Hrange.
  assert (PriorityQueue._size
            (PriorityQueue.new (T := nat) (PoolOptions.priorityRange (PoolOptions.new options)))
          = Z.max (Js.ToInt32 (PoolOptions.priorityRange (PoolOptions.new options))) 1) as Hs.
  { unfold PriorityQueue.new. cbn [PriorityQueue._size]. by rewrite bitor_zero. }
  split; [done|]. split; [by destruct Hwf|]. split; [done|].
  destruct Hwf as [_ Hlen]. apply lookup_lt_is_Some_2. lia.
Qed.

(** X28.  [acquire] never hands out a resource.  On a pool that is not
    draining and whose queue is not full, with a timeout that
    [new ResourceRequest] accepts, [acquire] constructs the request and
    arms its timer, and then throws a TypeError out of
    [PriorityQueue.enqueue]: [Queue.push] calls
    [this._createTimeoutRejectionHandler], which no class defines, before
    it links the request.  The request is in no slot, [_dispense] is not
    reached, and the caches, the loans and the creations under way are
    as the implicit [start] left them. *)
Theorem acquire_throws_at_enqueue now priority p :
  let p0 := if negb (_started p) && negb (PoolOptions.autostart (_config p))
            then start p else p in
  _draining p = false -> waitingClientsExceeded p0 = false ->
  timeoutAccepted (PoolOptions.acquireTimeoutMillis (_config p0)) = true ->
  exists rr tm,
    ResourceRequest.new now (PoolOptions.acquireTimeoutMillis (_config p0)) (timers p0)
      = Ok (rr, tm) /\
    acquire now priority p
      = (AcquireThrew TypeError,
         set_nextId (S (nextId p0))
           (set_timers tm (set_requests (<[nextId p0 := rr]> (requests p0)) p0))) /\
    _waitingClientsQueue (acquire now priority p).2 = _waitingClientsQueue p0 /\
    pending (acquire now priority p).2 = pending p0 /\
    _availableObjects (acquire now priority p).2 = _availableObjects p0 /\
    _resourceLoans (acquire now priority p).2 = _resourceLoans p0 /\
    _factoryCreateOperations (acquire now priority p).2 = _factoryCreateOperations p0.
Proof.
  intros p0 Hd Hex Hto.
  assert (_draining p0 = false) as Hd0.
  { subst p0. destruct (_ && _); [|done]. by destruct (start_frame p) as (_ & -> & _). }
  pose proof (new_request_outcome now (PoolOptions.acquireTimeoutMillis (_config p0))
                (timers p0)) as Hnew.
  rewrite Hto in Hnew. destruct Hnew as (rr & tm & Hnew & _).
  exists rr, tm. split; [done|].
  assert (acquire now priority p
          = (AcquireThrew TypeError,
             set_nextId (S (nextId p0))
               (set_timers tm (set_requests (<[nextId p0 := rr]> (requests p0)) p0)))) as ->.
  { change (acquire now priority p) with (acquireStarted now priority p0).
    unfold acquireStarted. rewrite Hd0, Hex, Hnew. by rewrite enqueue_throws. }
  done.
Qed.

(** X29.  No request is ever served.  In every state a pool reaches,
    nobody waits, nothing is lent, no resource is under validation and
    [factory.destroy] was never called; [_dispense] finds no request and
    does nothing; [release] and [destroy] reject whatever resource they
    are given, for no resource is on loan. *)
Theorem reachable_pool_lends_nothing options p :
  reachable options p ->
  pending p = 0 /\ borrowed p = 0 /\ _resourceLoans p = ∅ /\
  validating p = [] /\ destroyCalls p = [] /\
  (forall now, _dispense now p = (Ok tt, p)) /\
  (forall now resource,
     release now resource p = (CallRejected UnknownResourceError, p) /\
     destroy now resource p = (CallRejected UnknownResourceError, p) /\
     isBorrowedResource resource p = false).
Proof.
  intros Hr. pose proof (reachable_quiet options p Hr) as Hq.
  pose proof (quiet_pending p Hq) as Hp.
  pose proof (quiet_validating p Hq) as Hv.
  destruct Hq as (_ & Hl & Hdc & _).
  split; [done|]. split; [by apply borrowed_empty|].
  split; [done|]. split; [done|]. split; [done|].
  split; [intros now; by apply dispense_nobody|].
  intros now resource. unfold release, destroy, isBorrowedResource.
  rewrite Hl, lookup_empty. split; [done|]. split; [done|].
  apply bool_decide_eq_false_2. by intros [? ?].
Qed.

End PoolQueue.

(** ** Examples for the further properties *)

(** The deque of [threeNodes] holds 10, 20 and 30. *)
Lemma threeNodes_holds :
  LinkedDeque.holds threeNodes.1 threeNodes.2 [10; 20; 30]%nat.
Proof.
  exists [1; 2; 3]%nat. split; [exact threeNodes_repr|].
  repeat constructor; vm_compute; reflexivity.
Qed.

(** X1, witness: a fourth element after the three of [threeNodes]. *)
Lemma insertEnd_appends_new_node_witness :
  DoublyLinkedList.dll_repr threeNodes.1 threeNodes.2 [1; 2; 3]%nat /\
  exists n,
    DoublyLinkedList.dll_repr
      (DoublyLinkedList.insertEnd 40%nat threeNodes.1 threeNodes.2).2.1
      (DoublyLinkedList.insertEnd 40%nat threeNodes.1 threeNodes.2).2.2
      ([1; 2; 3]%nat ++ [n]).
Proof.
  split; [exact threeNodes_repr|].
  destruct (insertEnd_appends_new_node threeNodes.1 threeNodes.2 [1; 2; 3]%nat 40%nat
              threeNodes_repr) as (n & _ & Hr & _).
  exists n. exact Hr.
Defined.

(** X2, witness: an element before the three of [threeNodes]. *)
Lemma insertBeginning_prepends_new_node_witness :
  DoublyLinkedList.dll_repr threeNodes.1 threeNodes.2 [1; 2; 3]%nat /\
  DoublyLinkedList.dll_repr
    (DoublyLinkedList.insertBeginning 5%nat threeNodes.1 threeNodes.2).2.1
    (DoublyLinkedList.insertBeginning 5%nat threeNodes.1 threeNodes.2).2.2
    ((DoublyLinkedList.insertBeginning 5%nat threeNodes.1 threeNodes.2).1 :: [1; 2; 3]%nat).
Proof.
  split; [exact threeNodes_repr|].
  exact (proj1 (proj2 (insertBeginning_prepends_new_node threeNodes.1 threeNodes.2
                         [1; 2; 3]%nat 5%nat threeNodes_repr))).
Defined.

(** X3, witness: the node at index 1 of [threeNodes] is node 2. *)
Lemma getNode_returns_node_at_index_witness :
  DoublyLinkedList.dll_repr threeNodes.1 threeNodes.2 [1; 2; 3]%nat /\
  DoublyLinkedList.getNode 1 threeNodes.1 threeNodes.2 = Ok (Some 2%nat).
Proof.
  split; [exact threeNodes_repr|].
  exact (getNode_returns_node_at_index threeNodes.1 threeNodes.2 [1; 2; 3]%nat 1
           threeNodes_repr).
Defined.

(** X4, witness: [shift] on the deque of [threeNodes] returns 10. *)
Lemma shift_takes_first_witness :
  LinkedDeque.holds threeNodes.1 threeNodes.2 [10; 20; 30]%nat /\
  exists h' l',
    LinkedDeque.shift threeNodes.1 threeNodes.2 = Some (Some 10%nat, (h', l')) /\
    LinkedDeque.holds h' l' [20; 30]%nat.
Proof.
  split; [exact threeNodes_holds|].
  destruct (shift_takes_first threeNodes.1 threeNodes.2 [10; 20; 30]%nat threeNodes_holds)
    as (h' & l' & H1 & H2 & _).
  exists h', l'. split; [exact H1 | exact H2].
Defined.

(** X5, witness: [pop] on the deque of [threeNodes] returns 30. *)
Lemma pop_takes_last_witness :
  LinkedDeque.holds threeNodes.1 threeNodes.2 [10; 20; 30]%nat /\
  exists h' l',
    LinkedDeque.pop threeNodes.1 threeNodes.2 = Some (Some 30%nat, (h', l')) /\
    LinkedDeque.holds h' l' [10; 20]%nat.
Proof.
  split; [exact threeNodes_holds|].
  destruct (pop_takes_last threeNodes.1 threeNodes.2 [10; 20; 30]%nat threeNodes_holds)
    as (h' & l' & H1 & H2 & _).
  exists h', l'. split; [exact H1 | exact H2].
Defined.

(** X6, witness: pushing 40 on the deque of [threeNodes]. *)
Lemma push_appends_unshift_prepends_witness :
  LinkedDeque.holds threeNodes.1 threeNodes.2 [10; 20; 30]%nat /\
  LinkedDeque.holds (LinkedDeque.push 40%nat threeNodes.1 threeNodes.2).1
    (LinkedDeque.push 40%nat threeNodes.1 threeNodes.2).2 [10; 20; 30; 40]%nat.
Proof.
  split; [exact threeNodes_holds|].
  exact (proj1 (push_appends_unshift_prepends threeNodes.1 threeNodes.2
                  [10; 20; 30]%nat 40%nat threeNodes_holds)).
Defined.

(** X7, witness: the getters on the deque of [threeNodes]. *)
Lemma getters_read_the_sequence_witness :
  LinkedDeque.holds threeNodes.1 threeNodes.2 [10; 20; 30]%nat /\
  LinkedDeque.length threeNodes.2 = 3 /\
  LinkedDeque.head threeNodes.1 threeNodes.2 = Some 10%nat /\
  LinkedDeque.tail threeNodes.1 threeNodes.2 = Some 30%nat.
Proof.
  split; [exact threeNodes_holds|].
  exact (getters_read_the_sequence threeNodes.1 threeNodes.2 [10; 20; 30]%nat
           threeNodes_holds).
Defined.

(** X8, witness: four calls of [next] exhaust the deque of [threeNodes]. *)
Lemma iterators_yield_the_sequence_witness :
  LinkedDeque.holds threeNodes.1 threeNodes.2 [10; 20; 30]%nat /\
  LinkedDeque.values 4 threeNodes.1 threeNodes.2 (DoublyLinkedListIterator.new false)
    = [Some 10; Some 20; Some 30]%nat /\
  LinkedDeque.values 4 threeNodes.1 threeNodes.2 (DoublyLinkedListIterator.new true)
    = [Some 30; Some 20; Some 10]%nat.
Proof.
  split; [exact threeNodes_holds|].
  exact (iterators_yield_the_sequence threeNodes.1 threeNodes.2 [10; 20; 30]%nat 4%nat
           threeNodes_holds ltac:(simpl; lia)).
Defined.

(** X9, witness: the iterator [cursorOnSecond] removes node 2. *)
Lemma iterator_remove_unlinks_once_witness :
  DoublyLinkedList.dll_repr threeNodes.1 threeNodes.2 [1; 2; 3]%nat /\
  DoublyLinkedList.dll_repr
    (DoublyLinkedListIterator.remove threeNodes.1 threeNodes.2 cursorOnSecond).1
    (DoublyLinkedListIterator.remove threeNodes.1 threeNodes.2 cursorOnSecond).2
    [1; 3]%nat.
Proof.
  split; [exact threeNodes_repr|].
  exact (proj1 (proj1 (iterator_remove_unlinks_once threeNodes.1 threeNodes.2
                         [1; 2; 3]%nat 1%nat 2%nat cursorOnSecond
                         threeNodes_repr eq_refl eq_refl) eq_refl eq_refl)).
Defined.

(** X11, witness: [removeItem] of 20 on the slot of [threeNodes]. *)
Lemma removeItem_unlinks_first_occurrence_witness :
  LinkedDeque.holds threeNodes.1 threeNodes.2 [10; 20; 30]%nat /\
  exists h' l',
    LinkedDeque.removeItem 4 20%nat threeNodes.1 threeNodes.2 = Some (h', l') /\
    LinkedDeque.holds h' l' [10; 30]%nat.
Proof.
  split; [exact threeNodes_holds|].
  destruct (removeItem_unlinks_first_occurrence threeNodes.1 threeNodes.2
              [10; 20; 30]%nat 4%nat 20%nat threeNodes_holds ltac:(simpl; lia))
    as (h' & l' & H1 & H2 & _).
  exists h', l'. split; [exact H1 | exact H2].
Defined.





(** A pool with default options on which [drain] was called. *)
Definition drained : Pool.t := runLabels [Pool.CallDrain] (Pool.new PoolOptions.noOptions).

(** X21, witness: [start] on the drained pool. *)
Lemma draining_is_permanent_witness :
  Pool.reachable PoolOptions.noOptions drained /\
  Pool._draining drained = true /\
  Pool.step 0 Pool.CallStart drained = Some (Pool.start drained) /\
  Pool._draining (Pool.start drained) = true.
Proof.
  assert (Pool.reachable PoolOptions.noOptions drained) as Hr
    by apply reachable_runLabels, Pool.reachable_new.
  split; [exact Hr|]. split; [reflexivity|]. split; [reflexivity|].
  exact (proj1 (draining_is_permanent PoolOptions.noOptions drained 0 Pool.CallStart
                  (Pool.start drained) Hr eq_refl eq_refl)).
Defined.

(** X22, witness: the borrowed resource of [oneBorrowed], with
    [testOnReturn]. *)
Lemma second_release_is_rejected_witness :
  Pool._resourceLoans (oneBorrowed testOnReturnOptions) !! 100%nat
    = Some (ResourceLoan.new 2 0) /\
  Pool.isBorrowedResource 100
    (Pool.release 0 100 (oneBorrowed testOnReturnOptions)).2 = false.
Proof.
  split; [reflexivity|].
  exact (proj1 (proj2 (second_release_is_rejected 0 0 100%nat
                         (oneBorrowed testOnReturnOptions) (ResourceLoan.new 2 0)
                         eq_refl (or_introl eq_refl)))).
Defined.

(** X27, witness: the pool [oneAvailable], whose queue has one slot. *)
Lemma waiting_queue_keeps_its_slots_witness :
  Pool.reachable minOneOptions oneAvailable /\
  PriorityQueue._size (Pool._waitingClientsQueue oneAvailable) = 1 /\
  PriorityQueue.resolvedPriority (Pool._waitingClientsQueue oneAvailable) (Some 5) = 0.
Proof.
  assert (Pool.reachable minOneOptions oneAvailable) as Hr
    by (do 2 apply reachable_runLabels; apply Pool.reachable_new).
  split; [exact Hr|].
  destruct (waiting_queue_keeps_its_slots minOneOptions oneAvailable (Some 5) Hr)
    as (H1 & _ & H3 & _).
  assert (Z.max (Js.ToInt32 (PoolOptions.priorityRange (PoolOptions.new minOneOptions))) 1
          = 1) as H0 by (vm_compute; reflexivity).
  rewrite H0 in H1. split; [exact H1|]. rewrite H1 in H3. lia.
Defined.

(** X28, witness: [acquire] on [oneAvailable], where a resource is
    available. *)
Lemma acquire_throws_at_enqueue_witness :
  Pool._draining oneAvailable = false /\
  Pool._availableObjects oneAvailable = [1%nat] /\
  (Pool.acquire 0 None oneAvailable).1 = Pool.AcquireThrew TypeError /\
  Pool._availableObjects (Pool.acquire 0 None oneAvailable).2 = [1%nat] /\
  Pool.pending (Pool.acquire 0 None oneAvailable).2 = 0.
Proof.
  assert (Pool._draining oneAvailable = false) as Hd by (vm_compute; reflexivity).
  assert (Pool.waitingClientsExceeded oneAvailable = false) as Hex
    by (vm_compute; reflexivity).
  assert (timeoutAccepted (PoolOptions.acquireTimeoutMillis (Pool._config oneAvailable))
          = true) as Hto by (vm_compute; reflexivity).
  assert (Pool._availableObjects oneAvailable = [1%nat]) as Ha by (vm_compute; reflexivity).
  assert (Pool.pending oneAvailable = 0) as Hp by (vm_compute; reflexivity).
  split; [exact Hd|]. split; [exact Ha|].
  destruct (acquire_throws_at_enqueue 0 None oneAvailable Hd Hex Hto)
    as (rr & tm & _ & H1 & _ & H3 & H4 & _).
  split; [rewrite H1; reflexivity|]. split; [rewrite H4; exact Ha|].
  rewrite H3. exact Hp.
Defined.

(** X29, witness: the pool [oneAvailable]. *)
Lemma reachable_pool_lends_nothing_witness :
  Pool.reachable minOneOptions oneAvailable /\
  Pool.release 0 100 oneAvailable = (Pool.CallRejected UnknownResourceError, oneAvailable).
Proof.
  assert (Pool.reachable minOneOptions oneAvailable) as Hr
    by (do 2 apply reachable_runLabels; apply Pool.reachable_new).
  split; [exact Hr|].
  exact (proj1 (proj2 (proj2 (proj2 (proj2 (proj2 (proj2
           (reachable_pool_lends_nothing minOneOptions oneAvailable Hr)))))) 0 100%nat)).
Defined.

(** The pool [dispatching] with the request 9 in its waiting queue. *)
Definition dispatchingToWaiter : Pool.t :=
  Pool.set_waitingClientsQueue (PriorityQueue.mk 1 [[9%nat]]) dispatching.

(** X30, witness: the dispatch of resource 5 to the request 9. *)
Lemma dispatch_throws_when_somebody_waits_witness :
  PriorityQueue.dequeue (Pool._waitingClientsQueue dispatchingToWaiter)
    = (Some 9%nat, PriorityQueue.mk 1 [[]]) /\
  (Pool._dispatchPooledResourceToNextWaitingClient 0 5 dispatchingToWaiter).1
    = Throw TypeError /\
  Pool._availableObjects
    (Pool._dispatchPooledResourceToNextWaitingClient 0 5 dispatchingToWaiter).2 = [7%nat].
Proof.
  split; [reflexivity|].
  destruct (dispatch_throws_when_somebody_waits 0 5%nat dispatchingToWaiter 9%nat
              (PriorityQueue.mk 1 [[]]) eq_refl) as (_ & H1 & _ & _ & H4 & _).
  split; [exact H1|]. rewrite H4. reflexivity.
Defined.
